(** * mpegflow: the arranged output pipeline of [mpegflow.cpp]

    A shallow embedding of the frame dispatcher ([main], [frameCallback]),
    the raw emitter ([output_vectors_raw]) and the arranged pipeline
    ([output_vectors_std] and the [FrameInfo] methods), followed by the
    properties the specification states about them.

    Conventions.
    - C integers are [Z].  [int] and [int64_t] arithmetic carries its
      two's-complement wrap-around ([wrap32], [wrap64]); [size_t] arithmetic
      is taken modulo [2^64] ([to_size_t]).
    - The fixed arrays [int dx[512][512]] etc. are total maps [Z -> Z -> Z]
      updated pointwise ([upd2]).  A total map answers at every index; the
      source is defined only where both indices lie in [0, 512).  The two
      agree on a stream at least one grid step high and wide, where the
      grid has a row and a column and every index the program computes lies
      inside the grid ([cell_of_in_arrays], [fill_sweep_in_arrays]).  The
      properties of the arranged pipeline are stated for such streams; on a
      smaller frame the source leaves its arrays and nothing is claimed of
      it beyond the index computations themselves.
    - [static] locals ([prev], [FirstPts]) and [stdout] are fields of an
      explicit pipeline state that every call threads through. *)

From Stdlib Require Import String Ascii ZArith List Bool Lia FinFun Sorted.
Import ListNotations.
Open Scope Z_scope.

(* ================================================================== *)
(** ** Machine integers *)

Module MachInt.

Definition wrap (w : Z) (z : Z) : Z :=
  (z + 2 ^ (w - 1)) mod 2 ^ w - 2 ^ (w - 1).

(** [int] (32 bit, signed). *)
Definition wrap32 (z : Z) : Z := wrap 32 z.
(** [int64_t] / [long long]. *)
Definition wrap64 (z : Z) : Z := wrap 64 z.
(** Conversion to [size_t] (64 bit, unsigned). *)
Definition to_size_t (z : Z) : Z := z mod 2 ^ 64.

Definition in_int16 (z : Z) : Prop := -32768 <= z <= 32767.
Definition in_int32 (z : Z) : Prop := -2147483648 <= z <= 2147483647.

End MachInt.
Import MachInt.

(* ================================================================== *)
(** ** Loops and arrays *)

(** The index values of [for (int i = lo; i < hi; i++)]. *)
Definition range (lo hi : Z) : list Z :=
  map (fun k => lo + Z.of_nat k) (seq 0 (Z.to_nat (hi - lo))).

(** [for (int i = lo; i < hi; i++) body(i)] over a state of type [A]. *)
Definition for_loop {A : Type} (lo hi : Z) (body : Z -> A -> A) (a : A) : A :=
  fold_left (fun acc i => body i acc) (range lo hi) a.

(** A two-dimensional array as a total map; [upd2 a i j v] is [a[i][j] = v].
    It stands for a [512][512] array of the source as long as the indices
    used lie in [0, 512) ([in_arrays]). *)
Definition array2 : Type := Z -> Z -> Z.

Definition zeros : array2 := fun _ _ => 0.

Definition upd2 (a : array2) (i j v : Z) : array2 :=
  fun i' j' => if (i' =? i) && (j' =? j) then v else a i' j'.

(* ================================================================== *)
(** ** Inputs: command line, stream geometry, decoder output *)

(** The globals set by [parse_options] and [ffmpeg_init] before the first
    frame.  [width] and [height] are the codec context's [int] dimensions. *)
Record Config : Type := mkConfig {
  ARG_OUTPUT_RAW_MOTION_VECTORS : bool;
  ARG_FORCE_GRID_8 : bool;
  ARG_OUTPUT_OCCUPANCY : bool;
  ARG_QUIET : bool;
  width : Z;
  height : Z
}.

(** [ffmpeg_frameWidth = ffmpeg_pVideoCtx->width] into a [size_t]. *)
Definition ffmpeg_frameWidth (cfg : Config) : Z := to_size_t (width cfg).
Definition ffmpeg_frameHeight (cfg : Config) : Z := to_size_t (height cfg).

(** libavutil's [AVMotionVector], restricted to the fields the program
    reads; all four are [int16_t]. *)
Record AVMotionVector : Type := mkMV {
  src_x : Z;
  src_y : Z;
  dst_x : Z;
  dst_y : Z
}.

Definition int16_mv (mv : AVMotionVector) : Prop :=
  in_int16 (src_x mv) /\ in_int16 (src_y mv) /\
  in_int16 (dst_x mv) /\ in_int16 (dst_y mv).

(** [AVERROR_EOF] is [FFERRTAG('E','O','F',' ')] in libavutil. *)
Definition AVERROR_EOF : Z := -541478725.

(* ================================================================== *)
(** ** [struct FrameInfo] *)

Definition MAX_GRID_SIZE : Z := 512.

(** The index pairs of the arrays [dx], [dy] and [occupancy]. *)
Definition in_arrays (i j : Z) : Prop :=
  0 <= i < MAX_GRID_SIZE /\ 0 <= j < MAX_GRID_SIZE.

Record FrameInfo : Type := mkFrameInfo {
  GridStep : Z;
  Shape : Z * Z;
  dx : array2;
  dy : array2;
  occupancy : array2;
  Pts : Z;
  FrameIndex : Z;
  PictType : ascii;
  Origin : string;
  Empty : bool;
  Printed : bool
}.

(** The constructor [FrameInfo()].  [GridStep] and [Shape] are left
    uninitialised by the source and assigned by the only caller before any
    use; they are 0 here. *)
Definition FrameInfo_new : FrameInfo :=
  {| GridStep := 0; Shape := (0, 0);
     dx := zeros; dy := zeros; occupancy := zeros;
     Pts := -1; FrameIndex := -1; PictType := "?"%char;
     Origin := ""%string; Empty := true; Printed := false |}.

Definition set_cell (f : FrameInfo) (i j vx vy occ : Z) : FrameInfo :=
  {| GridStep := GridStep f; Shape := Shape f;
     dx := upd2 (dx f) i j vx; dy := upd2 (dy f) i j vy;
     occupancy := upd2 (occupancy f) i j occ;
     Pts := Pts f; FrameIndex := FrameIndex f; PictType := PictType f;
     Origin := Origin f; Empty := Empty f; Printed := Printed f |}.

Definition set_flow (f : FrameInfo) (i j vx vy : Z) : FrameInfo :=
  {| GridStep := GridStep f; Shape := Shape f;
     dx := upd2 (dx f) i j vx; dy := upd2 (dy f) i j vy;
     occupancy := occupancy f;
     Pts := Pts f; FrameIndex := FrameIndex f; PictType := PictType f;
     Origin := Origin f; Empty := Empty f; Printed := Printed f |}.

Definition set_Empty (f : FrameInfo) (b : bool) : FrameInfo :=
  {| GridStep := GridStep f; Shape := Shape f;
     dx := dx f; dy := dy f; occupancy := occupancy f;
     Pts := Pts f; FrameIndex := FrameIndex f; PictType := PictType f;
     Origin := Origin f; Empty := b; Printed := Printed f |}.

Definition set_Origin (f : FrameInfo) (o : string) : FrameInfo :=
  {| GridStep := GridStep f; Shape := Shape f;
     dx := dx f; dy := dy f; occupancy := occupancy f;
     Pts := Pts f; FrameIndex := FrameIndex f; PictType := PictType f;
     Origin := o; Empty := Empty f; Printed := Printed f |}.

Definition set_Printed (f : FrameInfo) (b : bool) : FrameInfo :=
  {| GridStep := GridStep f; Shape := Shape f;
     dx := dx f; dy := dy f; occupancy := occupancy f;
     Pts := Pts f; FrameIndex := FrameIndex f; PictType := PictType f;
     Origin := Origin f; Empty := Empty f; Printed := b |}.

(** [(a + b) / 2] on [int]: the sum wraps, the division truncates. *)
Definition avg (a b : Z) : Z := Z.quot (wrap32 (a + b)) 2.

(** *** [FrameInfo::InterpolateFlow] *)

Definition InterpolateFlow (this prev next : FrameInfo) : FrameInfo :=
  let this :=
    for_loop 0 (fst (Shape this)) (fun i =>
      for_loop 0 (snd (Shape this)) (fun j this =>
        set_flow this i j (avg (dx prev i j) (dx next i j))
                          (avg (dy prev i j) (dy next i j)))) this in
  set_Origin (set_Empty this false) "interpolated".

(** *** [FrameInfo::FillInSomeMissingVectorsInGrid8] *)

(** The body of the innermost loop, at cell [(i, j)]. *)
Definition fill_cell (i j : Z) (f : FrameInfo) : FrameInfo :=
  if occupancy f i j =? 0 then
    if negb (occupancy f i (j - 1) =? 0) && negb (occupancy f i (j + 1) =? 0)
    then set_cell f i j (avg (dx f i (j - 1)) (dx f i (j + 1)))
                        (avg (dy f i (j - 1)) (dy f i (j + 1))) 2
    else if negb (occupancy f (i - 1) j =? 0) && negb (occupancy f (i + 1) j =? 0)
    then set_cell f i j (avg (dx f (i - 1) j) (dx f (i + 1) j))
                        (avg (dy f (i - 1) j) (dy f (i + 1) j)) 2
    else f
  else f.

(** One iteration of the outer [k] loop.  The bounds [Shape.first - 1] and
    [Shape.second - 1] are [size_t] expressions: for a shape without rows
    or without columns they are [2^64 - 1], and the source then runs its
    [int] counter out of the arrays, which this definition does not follow.
    With at least one row and one column the counters stay inside the grid
    ([fill_sweep_in_arrays]). *)
Definition fill_sweep (f : FrameInfo) : FrameInfo :=
  for_loop 1 (to_size_t (fst (Shape f) - 1)) (fun i =>
    for_loop 1 (to_size_t (snd (Shape f) - 1)) (fun j => fill_cell i j)) f.

Definition FillInSomeMissingVectorsInGrid8 (f : FrameInfo) : FrameInfo :=
  for_loop 0 2 (fun _ => fill_sweep) f.

(* ================================================================== *)
(** ** Standard output of the arranged pipeline *)

(** One call of [PrintIfNotPrinted] that prints: the grid as it stands at
    that moment and the value of the static [FirstPts] used for the header. *)
Record Emission : Type := mkEmission {
  em_grid : FrameInfo;
  em_first_pts : Z
}.

(** The text of one block: the header fields in the order of the format
    string, then the matrices row by row. *)
Record Block : Type := mkBlock {
  b_pts : Z;
  b_frame_index : Z;
  b_pict_type : ascii;
  b_shape : Z * Z;
  b_origin : string;
  b_dx : list (list Z);
  b_dy : list (list Z);
  b_occupancy : option (list (list Z))
}.

(** The rows printed by the nested [printf("%4d", a[i][j])] loops. *)
Definition matrix (f : FrameInfo) (a : array2) : list (list Z) :=
  map (fun i => map (fun j => a i j) (range 0 (snd (Shape f))))
      (range 0 (fst (Shape f))).

(** The rebased timestamp of the header, [(long long) Pts - FirstPts]. *)
Definition header_pts (e : Emission) : Z :=
  wrap64 (Pts (em_grid e) - em_first_pts e).

Definition printf_block (cfg : Config) (e : Emission) : Block :=
  let f := em_grid e in
  {| b_pts := header_pts e;
     b_frame_index := FrameIndex f;
     b_pict_type := PictType f;
     b_shape := (to_size_t ((if ARG_OUTPUT_OCCUPANCY cfg then 3 else 2)
                            * fst (Shape f)),
                 snd (Shape f));
     b_origin := Origin f;
     b_dx := matrix f (dx f);
     b_dy := matrix f (dy f);
     b_occupancy :=
       if ARG_OUTPUT_OCCUPANCY cfg then Some (matrix f (occupancy f))
       else None |}.

(** The static [FirstPts] of [PrintIfNotPrinted] and what has been printed
    so far, oldest first. *)
Record Printer : Type := mkPrinter {
  FirstPts : Z;
  emitted : list Emission
}.

(** *** [FrameInfo::PrintIfNotPrinted] *)

Definition PrintIfNotPrinted (f : FrameInfo) (p : Printer)
  : FrameInfo * Printer :=
  if Printed f then (f, p)
  else
    let first := if FirstPts p =? -1 then Pts f else FirstPts p in
    (set_Printed f true,
     {| FirstPts := first;
        emitted := emitted p ++ [ {| em_grid := f; em_first_pts := first |} ] |}).

(** [for (i = 0; i < prev.size(); i++) prev[i].PrintIfNotPrinted();] *)
Fixpoint print_each (fs : list FrameInfo) (p : Printer)
  : list FrameInfo * Printer :=
  match fs with
  | [] => ([], p)
  | f :: rest =>
      let '(f', p1) := PrintIfNotPrinted f p in
      let '(rest', p2) := print_each rest p1 in
      (f' :: rest', p2)
  end.

(* ================================================================== *)
(** ** [output_vectors_std] *)

(** The static [prev] together with the printer. *)
Record PState : Type := mkPState {
  prev : list FrameInfo;
  printer : Printer
}.

Definition pipeline_init : PState :=
  {| prev := []; printer := {| FirstPts := -1; emitted := [] |} |}.

Definition gridStep (cfg : Config) : Z :=
  if ARG_FORCE_GRID_8 cfg then 8 else 16.

Definition shape (cfg : Config) : Z * Z :=
  (Z.min (ffmpeg_frameHeight cfg / gridStep cfg) MAX_GRID_SIZE,
   Z.min (ffmpeg_frameWidth cfg / gridStep cfg) MAX_GRID_SIZE).

(** [cur] after the six field assignments that follow its construction. *)
Definition fresh_cur (cfg : Config) (frameIndex pts : Z) (pictType : ascii)
  : FrameInfo :=
  let cur := FrameInfo_new in
  {| GridStep := gridStep cfg; Shape := shape cfg;
     dx := dx cur; dy := dy cur; occupancy := occupancy cur;
     Pts := pts; FrameIndex := frameIndex; PictType := pictType;
     Origin := "video"; Empty := Empty cur; Printed := Printed cur |}.

(** [std::max(size_t(0), std::min(d / GridStep, n - 1))] where [d] is an
    [int16_t] coordinate converted to [size_t] by the division and [n - 1]
    is computed in [size_t]. *)
Definition clipped (d step n : Z) : Z :=
  Z.max (to_size_t 0) (Z.min (to_size_t d / step) (to_size_t (n - 1))).

(** The body of the binning loop for one vector.  With at least one row and
    one column the clamped cell lies inside the grid ([cell_of_in_arrays]);
    for a shape without rows or columns the upper clamp is [2^64 - 1] and
    the source writes wherever the quotient points. *)
Definition bin_vector (cur : FrameInfo) (mv : AVMotionVector) : FrameInfo :=
  let mvdx := wrap32 (dst_x mv - src_x mv) in
  let mvdy := wrap32 (dst_y mv - src_y mv) in
  let i_clipped := clipped (dst_y mv) (GridStep cur) (fst (Shape cur)) in
  let j_clipped := clipped (dst_x mv) (GridStep cur) (snd (Shape cur)) in
  set_cell (set_Empty cur false) i_clipped j_clipped mvdx mvdy 1.

Definition bin_vectors (cur : FrameInfo) (motionVectors : list AVMotionVector)
  : FrameInfo :=
  fold_left bin_vector motionVectors cur.

(** [cur] as it stands when the branch on [frameIndex] is reached: binned,
    then neighbour-filled when the step is 8. *)
Definition build_cur (cfg : Config) (frameIndex pts : Z) (pictType : ascii)
    (motionVectors : list AVMotionVector) : FrameInfo :=
  let cur := bin_vectors (fresh_cur cfg frameIndex pts pictType) motionVectors in
  if GridStep cur =? 8 then FillInSomeMissingVectorsInGrid8 cur else cur.

Definition is_empty {A : Type} (l : list A) : bool :=
  match l with [] => true | _ => false end.

Definition output_vectors_std (cfg : Config) (frameIndex pts : Z)
    (pictType : ascii) (motionVectors : list AVMotionVector) (s : PState)
  : PState :=
  let cur := build_cur cfg frameIndex pts pictType motionVectors in
  if frameIndex =? -1 then
    let '(prev', p') := print_each (prev s) (printer s) in
    {| prev := prev' ++ [cur]; printer := p' |}
  else if negb (is_empty motionVectors) then
    let p1 :=
      match prev s with
      | [front; back] =>
          if negb (Empty front) then
            (* prev.size() == 2 && prev.front().Empty == false *)
            let back' := InterpolateFlow back front cur in
            snd (PrintIfNotPrinted back' (printer s))
          else snd (print_each (prev s) (printer s))
      | _ => snd (print_each (prev s) (printer s))
      end in
    (* prev.clear(); cur.PrintIfNotPrinted(); prev.push_back(cur); *)
    let '(cur', p2) := PrintIfNotPrinted cur p1 in
    {| prev := [cur']; printer := p2 |}
  else
    {| prev := prev s ++ [cur]; printer := printer s |}.

(** What the arranged mode has written to [stdout]. *)
Definition stdout_std (cfg : Config) (s : PState) : list Block :=
  map (printf_block cfg) (emitted (printer s)).

(* ================================================================== *)
(** ** [output_vectors_raw] *)

Record RawBlock : Type := mkRawBlock {
  r_pts : Z;
  r_frame_index : Z;
  r_pict_type : ascii;
  r_count : Z;
  r_rows : list (Z * Z * Z * Z)
}.

Definition raw_nonzero (mv : AVMotionVector) : bool :=
  negb (wrap32 (dst_x mv - src_x mv) =? 0) ||
  negb (wrap32 (dst_y mv - src_y mv) =? 0).

Definition output_vectors_raw (frameIndex pts : Z) (pictType : ascii)
    (motionVectors : list AVMotionVector) : RawBlock :=
  {| r_pts := pts; r_frame_index := frameIndex; r_pict_type := pictType;
     r_count := Z.of_nat (length motionVectors);
     r_rows :=
       map (fun mv => (dst_x mv, dst_y mv,
                       wrap32 (dst_x mv - src_x mv),
                       wrap32 (dst_y mv - src_y mv)))
           (filter raw_nonzero motionVectors) |}.

(* ================================================================== *)
(** ** [main]: the frame callback and the end of the stream *)

(** What [for_each_frame] hands to one call of the callback: the two
    arguments and the contents of [motionVectors] at that moment. *)
Record Frame : Type := mkFrame {
  f_pts : Z;
  f_pict_type : ascii;
  f_vectors : list AVMotionVector
}.

(** The lines that [main] and the callback write to [stderr].  What libav
    logs there on its own (it does unless [--quiet] is given) is not part of
    the model. *)
Inductive Diagnostic : Type :=
| Skipping (frame : Z) (pts : Z)   (* "Skipping frame %d (frame with pts %d ..." *)
| ErrorOccurred (ret : Z).         (* "Error occurred: %s" *)

(** The locals of [main] captured by the callback, and the three sinks. *)
Record MState : Type := mkMState {
  frameIndex : Z;
  pts : Z;
  pictType : ascii;
  prev_pts : Z;
  motionVectors : list AVMotionVector;
  pipeline : PState;
  stdout_raw : list RawBlock;
  stderr : list Diagnostic
}.

(** [pts] and [pictType] are declared without an initialiser; their
    initial contents are the arguments. *)
Definition main_init (pts0 : Z) (pict0 : ascii) : MState :=
  {| frameIndex := 0; pts := pts0; pictType := pict0; prev_pts := -1;
     motionVectors := []; pipeline := pipeline_init;
     stdout_raw := []; stderr := [] |}.

Definition frameCallback (cfg : Config) (m : MState) (fr : Frame) : MState :=
  let frameIndex' := wrap32 (frameIndex m + 1) in
  let pts' := f_pts fr in
  let pictType' := f_pict_type fr in
  if (pts' <=? prev_pts m) && negb (prev_pts m =? -1) then
    {| frameIndex := frameIndex'; pts := pts'; pictType := pictType';
       prev_pts := prev_pts m; motionVectors := f_vectors fr;
       pipeline := pipeline m; stdout_raw := stdout_raw m;
       stderr :=
         if negb (ARG_QUIET cfg)
         then stderr m ++ [Skipping frameIndex' (wrap32 pts')]
         else stderr m |}
  else if ARG_OUTPUT_RAW_MOTION_VECTORS cfg then
    {| frameIndex := frameIndex'; pts := pts'; pictType := pictType';
       prev_pts := pts'; motionVectors := f_vectors fr;
       pipeline := pipeline m;
       stdout_raw := stdout_raw m ++
         [output_vectors_raw frameIndex' pts' pictType' (f_vectors fr)];
       stderr := stderr m |}
  else
    {| frameIndex := frameIndex'; pts := pts'; pictType := pictType';
       prev_pts := pts'; motionVectors := f_vectors fr;
       pipeline := output_vectors_std cfg frameIndex' pts' pictType'
                     (f_vectors fr) (pipeline m);
       stdout_raw := stdout_raw m;
       stderr := stderr m |}.

(** [for_each_frame]: the decoder calls the callback once per decoded frame
    and returns a non-zero code when it stops. *)
Definition for_each_frame (cfg : Config) (frames : list Frame) (m : MState)
  : MState :=
  fold_left (frameCallback cfg) frames m.

Record Exit : Type := mkExit {
  exit_code : Z;
  final : MState
}.

(** [main] after [ffmpeg_init]: [frames] and [ret] are what the decoder
    delivers and returns. *)
Definition main (cfg : Config) (pts0 : Z) (pict0 : ascii)
    (frames : list Frame) (ret : Z) : Exit :=
  let m := for_each_frame cfg frames (main_init pts0 pict0) in
  if (ret <? 0) && negb (ret =? AVERROR_EOF) then
    {| exit_code := 1;
       final :=
         {| frameIndex := frameIndex m; pts := pts m; pictType := pictType m;
            prev_pts := prev_pts m; motionVectors := motionVectors m;
            pipeline := pipeline m; stdout_raw := stdout_raw m;
            stderr := stderr m ++ [ErrorOccurred ret] |} |}
  else if negb (ARG_OUTPUT_RAW_MOTION_VECTORS cfg) then
    {| exit_code := 0;
       final :=
         {| frameIndex := frameIndex m; pts := pts m; pictType := pictType m;
            prev_pts := prev_pts m; motionVectors := motionVectors m;
            pipeline := output_vectors_std cfg (-1) (pts m) (pictType m)
                          (motionVectors m) (pipeline m);
            stdout_raw := stdout_raw m;
            stderr := stderr m |} |}
  else {| exit_code := 0; final := m |}.

(** ** Runs of the arranged pipeline *)

(** One call of [output_vectors_std] made by the frame callback. *)
Record Call : Type := mkCall {
  c_index : Z;
  c_pts : Z;
  c_pict_type : ascii;
  c_vectors : list AVMotionVector
}.

Definition deliver (cfg : Config) (s : PState) (c : Call) : PState :=
  output_vectors_std cfg (c_index c) (c_pts c) (c_pict_type c) (c_vectors c) s.

Definition deliver_all (cfg : Config) (cs : list Call) (s : PState) : PState :=
  fold_left (deliver cfg) cs s.

(** The end-of-stream call [output_vectors_std(-1, pts, pictType,
    motionVectors)] of [main]. *)
Definition flush (cfg : Config) (pts : Z) (pictType : ascii)
    (motionVectors : list AVMotionVector) (s : PState) : PState :=
  output_vectors_std cfg (-1) pts pictType motionVectors s.

(** A call for a decoded frame: the index is not the flush sentinel and the
    coordinates are [int16_t] values. *)
Definition real_call (c : Call) : Prop :=
  c_index c <> -1 /\ Forall int16_mv (c_vectors c).

(** The pipeline states that occur between two calls of a run. *)
Inductive reachable (cfg : Config) : PState -> Prop :=
| reach_init : reachable cfg pipeline_init
| reach_deliver s c :
    reachable cfg s -> real_call c -> reachable cfg (deliver cfg s c).

(** The grid cell a vector is binned into. *)
Definition cell_of (f : FrameInfo) (mv : AVMotionVector) : Z * Z :=
  (clipped (dst_y mv) (GridStep f) (fst (Shape f)),
   clipped (dst_x mv) (GridStep f) (snd (Shape f))).

(** The displacement range of an [int16_t] vector. *)
Definition in_disp (z : Z) : Prop := -65535 <= z <= 65535.

Definition bounded (f : FrameInfo) : Prop :=
  forall i j, in_disp (dx f i j) /\ in_disp (dy f i j).

(** Cells never written by binning or by the neighbour fill hold zero. *)
Definition occ_zero (f : FrameInfo) : Prop :=
  forall i j, occupancy f i j = 0 -> dx f i j = 0 /\ dy f i j = 0.

(** Everything but the three arrays. *)
Definition same_meta (f g : FrameInfo) : Prop :=
  GridStep g = GridStep f /\ Shape g = Shape f /\ Pts g = Pts f /\
  FrameIndex g = FrameIndex f /\ PictType g = PictType f /\
  Origin g = Origin f /\ Empty g = Empty f /\ Printed g = Printed f.

(** The interior cells [1 <= i <= rows - 2], [1 <= j <= cols - 2]. *)
Definition interior (f : FrameInfo) (i j : Z) : Prop :=
  1 <= i <= fst (Shape f) - 2 /\ 1 <= j <= snd (Shape f) - 2.

Definition key (f : FrameInfo) : Z * Z := (FrameIndex f, Pts f).

Definition call_key (c : Call) : Z * Z := (c_index c, c_pts c).

(** A buffered grid that still waits for its emission. *)
Definition pending (f : FrameInfo) : Prop :=
  Empty f = true /\ Printed f = false.

(** A buffered grid that carried vectors and was emitted on arrival. *)
Definition done (f : FrameInfo) : Prop :=
  Empty f = false /\ Printed f = true.

Definition unprinted (fs : list FrameInfo) : list FrameInfo :=
  filter (fun f => negb (Printed f)) fs.

(** The three outcomes of one cell visit. *)
Inductive fill_case (i j : Z) (f : FrameInfo) : FrameInfo -> Prop :=
| fill_horizontal :
    occupancy f i j = 0 ->
    occupancy f i (j - 1) <> 0 -> occupancy f i (j + 1) <> 0 ->
    fill_case i j f
      (set_cell f i j (avg (dx f i (j - 1)) (dx f i (j + 1)))
                      (avg (dy f i (j - 1)) (dy f i (j + 1))) 2)
| fill_vertical :
    occupancy f i j = 0 ->
    occupancy f i (j - 1) = 0 \/ occupancy f i (j + 1) = 0 ->
    occupancy f (i - 1) j <> 0 -> occupancy f (i + 1) j <> 0 ->
    fill_case i j f
      (set_cell f i j (avg (dx f (i - 1) j) (dx f (i + 1) j))
                      (avg (dy f (i - 1) j) (dy f (i + 1) j)) 2)
| fill_skip :
    occupancy f i j <> 0 \/
    ((occupancy f i (j - 1) = 0 \/ occupancy f i (j + 1) = 0) /\
     (occupancy f (i - 1) j = 0 \/ occupancy f (i + 1) j = 0)) ->
    fill_case i j f f.

(** The interior cells in the order one sweep visits them, row by row. *)
Definition interior_cells (rows cols : Z) : list (Z * Z) :=
  flat_map (fun i => map (fun j => (i, j)) (range 1 (cols - 1)))
           (range 1 (rows - 1)).

Definition visit (f : FrameInfo) (c : Z * Z) : FrameInfo :=
  fill_cell (fst c) (snd c) f.

(** The printing half of [PrintIfNotPrinted], for a grid not yet printed. *)
Definition emit (p : Printer) (f : FrameInfo) : Printer :=
  let first := if FirstPts p =? -1 then Pts f else FirstPts p in
  {| FirstPts := first;
     emitted := emitted p ++ [ {| em_grid := f; em_first_pts := first |} ] |}.

(** The header timestamps printed for grids with the timestamps [ps], in
    this order, when the static [FirstPts] holds [first] beforehand. *)
Fixpoint headers (first : Z) (ps : list Z) : list Z :=
  match ps with
  | [] => []
  | p :: rest =>
      let first' := if first =? -1 then p else first in
      wrap64 (p - first') :: headers first' rest
  end.

(** The grids printed so far. *)
Definition emitted_grids (s : PState) : list FrameInfo :=
  map em_grid (emitted (printer s)).

(** What holds of every grid while it sits in the buffer. *)
Definition grid_ok (cfg : Config) (f : FrameInfo) : Prop :=
  GridStep f = gridStep cfg /\ Shape f = shape cfg /\
  bounded f /\ occ_zero f /\ Origin f = "video"%string.

(** The buffer between two calls: at most its first grid has been emitted,
    and every later one is an empty grid that waits. *)
Definition buffer_form (fs : list FrameInfo) : Prop :=
  match fs with
  | [] => True
  | front :: rest => (pending front \/ done front) /\ Forall pending rest
  end.

(** The state of the pipeline after the calls [cs], in terms of [cs]. *)
Record run_inv (cfg : Config) (cs : list Call) (s : PState) : Prop := {
  inv_form : buffer_form (prev s);
  inv_grids : Forall (grid_ok cfg) (prev s);
  inv_keys :
    map key (emitted_grids s) ++ map key (unprinted (prev s))
    = map call_key cs;
  inv_printer :
    printer s
    = fold_left emit (emitted_grids s) {| FirstPts := -1; emitted := [] |};
  inv_emitted :
    Forall (fun f => Origin f = "video"%string -> occ_zero f)
           (emitted_grids s);
  inv_done :
    Forall (fun f => Printed f = true ->
                     In (key f) (map key (emitted_grids s)))
           (prev s)
}.

(** ** The neighbour fill in the words of the specification

    Two sweeps over the interior cells; a cell with occupancy 0 takes the
    truncating mean of its left and right neighbours when both are occupied,
    otherwise that of its top and bottom neighbours when both are occupied,
    and is tagged 2. *)

Definition mean (a b : Z) : Z := Z.quot (a + b) 2.

Definition spec_fill_cell (f : FrameInfo) (c : Z * Z) : FrameInfo :=
  let '(i, j) := c in
  let occupied i' j' := negb (occupancy f i' j' =? 0) in
  if occupied i j then f
  else if occupied i (j - 1) && occupied i (j + 1) then
    set_cell f i j (mean (dx f i (j - 1)) (dx f i (j + 1)))
                   (mean (dy f i (j - 1)) (dy f i (j + 1))) 2
  else if occupied (i - 1) j && occupied (i + 1) j then
    set_cell f i j (mean (dx f (i - 1) j) (dx f (i + 1) j))
                   (mean (dy f (i - 1) j) (dy f (i + 1) j)) 2
  else f.

Definition spec_sweep (f : FrameInfo) : FrameInfo :=
  fold_left spec_fill_cell
    (interior_cells (fst (Shape f)) (snd (Shape f))) f.

Definition spec_fill (f : FrameInfo) : FrameInfo := spec_sweep (spec_sweep f).

(** ** Concrete streams used as examples *)

Module Examples.

(** A 64x64 stream on the default 16-pixel grid (shape 4x4), occupancy
    printed. *)
Definition cfg16 : Config :=
  {| ARG_OUTPUT_RAW_MOTION_VECTORS := false; ARG_FORCE_GRID_8 := false;
     ARG_OUTPUT_OCCUPANCY := true; ARG_QUIET := false;
     width := 64; height := 64 |}.

(** A 32x24 stream on the 8-pixel grid (shape 3x4). *)
Definition cfg8 : Config :=
  {| ARG_OUTPUT_RAW_MOTION_VECTORS := false; ARG_FORCE_GRID_8 := true;
     ARG_OUTPUT_OCCUPANCY := true; ARG_QUIET := false;
     width := 32; height := 24 |}.

(** A vector into cell (1, 1) of the 4x4 grid, displacement (4, -2). *)
Definition mv_a : AVMotionVector :=
  {| src_x := 13; src_y := 18; dst_x := 17; dst_y := 16 |}.

(** A vector with displacement (0, 0) into the same cell. *)
Definition mv_still : AVMotionVector :=
  {| src_x := 17; src_y := 16; dst_x := 17; dst_y := 16 |}.

(** A vector whose destination lies one pixel above the frame. *)
Definition mv_above : AVMotionVector :=
  {| src_x := 13; src_y := 1; dst_x := 16; dst_y := -1 |}.

Definition call (i p : Z) (mvs : list AVMotionVector) : Call :=
  {| c_index := i; c_pts := p; c_pict_type := "P"%char; c_vectors := mvs |}.

Definition frame (p : Z) (mvs : list AVMotionVector) : Frame :=
  {| f_pts := p; f_pict_type := "P"%char; f_vectors := mvs |}.

(** The pipeline after a frame with vectors and a frame without. *)
Definition window : PState :=
  deliver_all cfg16 [call 1 10 [mv_a]; call 2 11 []] pipeline_init.

Definition window_front : FrameInfo := nth 0 (prev window) FrameInfo_new.
Definition window_back : FrameInfo := nth 1 (prev window) FrameInfo_new.

(** Three vectors on the 3x4 grid: into cells (1,0), (0,2) and (2,2). *)
Definition donors : list AVMotionVector :=
  [ {| src_x := 0; src_y := 0; dst_x := 4; dst_y := 12 |};
    {| src_x := 0; src_y := 0; dst_x := 20; dst_y := 2 |};
    {| src_x := 0; src_y := 0; dst_x := 20; dst_y := 20 |} ].

(** A 32x4 stream on the 8-pixel grid: the frame is lower than one grid
    step and the shape is 0x4. *)
Definition cfg_low : Config :=
  {| ARG_OUTPUT_RAW_MOTION_VECTORS := false; ARG_FORCE_GRID_8 := true;
     ARG_OUTPUT_OCCUPANCY := true; ARG_QUIET := false;
     width := 32; height := 4 |}.

(** Two vectors of the one macroblock row of that stream, with destinations
    (4, 12) and (20, 12) and displacements (2, 1) and (3, 0). *)
Definition low_pair : list AVMotionVector :=
  [ {| src_x := 2; src_y := 11; dst_x := 4; dst_y := 12 |};
    {| src_x := 17; src_y := 12; dst_x := 20; dst_y := 12 |} ].

End Examples.

(** The number of calls without vectors at the end of a run. *)
Definition trailing_empty (cs : list Call) : nat :=
  fold_left (fun n c => if is_empty (c_vectors c) then S n else 0%nat)
            cs 0%nat.

(** Timestamps for which [Pts - FirstPts] does not overflow [int64_t]. *)
Definition pts_in_range (p : Z) : Prop := - 2 ^ 62 <= p < 2 ^ 62.

(** The calls of [output_vectors_std] that the callback makes over a
    stream, given the frame counter and [prev_pts] before its first frame. *)
Fixpoint forwarded (frames : list Frame) (index last_pts : Z) : list Call :=
  match frames with
  | [] => []
  | fr :: rest =>
      let index' := wrap32 (index + 1) in
      if (f_pts fr <=? last_pts) && negb (last_pts =? -1)
      then forwarded rest index' last_pts
      else {| c_index := index'; c_pts := f_pts fr;
              c_pict_type := f_pict_type fr; c_vectors := f_vectors fr |}
           :: forwarded rest index' (f_pts fr)
  end.

(** A decoded stream: [int16_t] coordinates and fewer frames than the
    [int] frame counter can count. *)
Definition stream_ok (frames : list Frame) : Prop :=
  Forall (fun fr => Forall int16_mv (f_vectors fr)) frames /\
  Z.of_nat (length frames) < 2 ^ 31.

(** ** The grids of a run, frame by frame *)

(** The grid [output_vectors_std] builds for a call. *)
Definition grid_of (cfg : Config) (c : Call) : FrameInfo :=
  build_cur cfg (c_index c) (c_pts c) (c_pict_type c) (c_vectors c).

Definition has_vectors (c : Call) : bool := negb (is_empty (c_vectors c)).

(** What a run prints, read off the calls alone: the grid of every call in
    order, where the grid of a call without vectors whose two neighbours both
    have vectors is replaced by its interpolation between their grids.
    [before] is the call that precedes [cs], if any. *)
Fixpoint arranged_grids (cfg : Config) (before : option Call) (cs : list Call)
  : list FrameInfo :=
  match cs with
  | [] => []
  | c :: rest =>
      (match before, rest with
       | Some b, n :: _ =>
           if negb (has_vectors c) && has_vectors b && has_vectors n
           then InterpolateFlow (grid_of cfg c)
                  (set_Printed (grid_of cfg b) true) (grid_of cfg n)
           else grid_of cfg c
       | _, _ => grid_of cfg c
       end) :: arranged_grids cfg (Some c) rest
  end.

(** The two ways a neighbour pair brackets a cell. *)
Definition bracketed (f : FrameInfo) (i j : Z) : Prop :=
  (occupancy f i (j - 1) <> 0 /\ occupancy f i (j + 1) <> 0) \/
  (occupancy f (i - 1) j <> 0 /\ occupancy f (i + 1) j <> 0).

(** The state of the pipeline after the calls [cs]. *)
Inductive trace_state (cfg : Config) (cs : list Call) (s : PState) : Prop :=
| trace_no_vectors_yet :
    Forall (fun c => has_vectors c = false) cs ->
    emitted_grids s = [] ->
    prev s = map (grid_of cfg) cs ->
    trace_state cfg cs s
| trace_after_vectors A v E :
    cs = A ++ v :: E ->
    has_vectors v = true ->
    Forall (fun c => has_vectors c = false) E ->
    emitted_grids s = arranged_grids cfg None (A ++ [v]) ->
    prev s = set_Printed (grid_of cfg v) true :: map (grid_of cfg) E ->
    trace_state cfg cs s.

(** A call is interpolated in a run when it has no vectors and the calls
    right before and right after it both have vectors. *)
Definition between_vector_frames (cs : list Call) (k : nat) : Prop :=
  (exists c, nth_error cs k = Some c /\ has_vectors c = false) /\
  (exists k' b, k = S k' /\ nth_error cs k' = Some b /\ has_vectors b = true) /\
  (exists n, nth_error cs (S k) = Some n /\ has_vectors n = true).

(** The call that precedes position [k] of [cs], [before] preceding [cs]. *)
Definition call_before (before : option Call) (cs : list Call) (k : nat)
  : option Call :=
  match k with O => before | S k' => nth_error cs k' end.

(** The raw block of a forwarded frame. *)
Definition raw_block (c : Call) : RawBlock :=
  output_vectors_raw (c_index c) (c_pts c) (c_pict_type c) (c_vectors c).

(** ** [parse_options] *)

(** The globals [parse_options] writes: [ARG_HELP], [ARG_OUTPUT_RAW_MOTION_VECTORS],
    [ARG_FORCE_GRID_8], [ARG_OUTPUT_OCCUPANCY], [ARG_QUIET] and
    [ARG_VIDEO_PATH] ([None] for the null pointer). *)
Record Args : Type := mkArgs {
  a_help : bool;
  a_raw : bool;
  a_grid8 : bool;
  a_occupancy : bool;
  a_quiet : bool;
  a_video_path : option string
}.

(** The globals before [main] runs: zero-initialised. *)
Definition args_init : Args :=
  {| a_help := false; a_raw := false; a_grid8 := false;
     a_occupancy := false; a_quiet := false; a_video_path := None |}.

(** The body of the loop over [argv], for one argument. *)
Definition parse_arg (a : Args) (arg : string) : Args :=
  if (arg =? "--help")%string || (arg =? "-h")%string then
    {| a_help := true; a_raw := a_raw a; a_grid8 := a_grid8 a;
       a_occupancy := a_occupancy a; a_quiet := a_quiet a;
       a_video_path := a_video_path a |}
  else if (arg =? "--raw")%string then
    {| a_help := a_help a; a_raw := true; a_grid8 := a_grid8 a;
       a_occupancy := a_occupancy a; a_quiet := a_quiet a;
       a_video_path := a_video_path a |}
  else if (arg =? "--grid8x8")%string then
    {| a_help := a_help a; a_raw := a_raw a; a_grid8 := true;
       a_occupancy := a_occupancy a; a_quiet := a_quiet a;
       a_video_path := a_video_path a |}
  else if (arg =? "--occupancy")%string then
    {| a_help := a_help a; a_raw := a_raw a; a_grid8 := a_grid8 a;
       a_occupancy := true; a_quiet := a_quiet a;
       a_video_path := a_video_path a |}
  else if (arg =? "-q")%string || (arg =? "--quiet")%string then
    {| a_help := a_help a; a_raw := a_raw a; a_grid8 := a_grid8 a;
       a_occupancy := a_occupancy a; a_quiet := true;
       a_video_path := a_video_path a |}
  else
    {| a_help := a_help a; a_raw := a_raw a; a_grid8 := a_grid8 a;
       a_occupancy := a_occupancy a; a_quiet := a_quiet a;
       a_video_path := Some arg |}.

(** [for (int i = 1; i < argc; i++)]: [argv[0]] is skipped. *)
Definition parse_loop (argv : list string) : Args :=
  fold_left parse_arg (tl argv) args_init.

(** Either the usage text goes to standard error and the process exits
    with code 1, or [main] goes on with the globals set. *)
Inductive Parsed : Type :=
| Usage
| Proceed (a : Args).

Definition parse_options (argv : list string) : Parsed :=
  let a := parse_loop argv in
  if a_help a || match a_video_path a with None => true | Some _ => false end
  then Usage else Proceed a.

(** The configuration of a run: the parsed flags and the frame size that
    [ffmpeg_init] reads from the codec context. *)
Definition config_of (a : Args) (w h : Z) : Config :=
  {| ARG_OUTPUT_RAW_MOTION_VECTORS := a_raw a;
     ARG_FORCE_GRID_8 := a_grid8 a;
     ARG_OUTPUT_OCCUPANCY := a_occupancy a;
     ARG_QUIET := a_quiet a;
     width := w; height := h |}.

(** The arguments [parse_options] recognises as options. *)
Definition is_option (arg : string) : bool :=
  existsb (String.eqb arg)
    ["--help"; "-h"; "--raw"; "--grid8x8"; "--occupancy"; "-q"; "--quiet"]%string.

(** ** The decoding loop of [for_each_frame] *)

(** [AVERROR(EAGAIN)], with the value of [EAGAIN] on Linux. *)
Definition AVERROR_EAGAIN : Z := -11.

(** What one call of [avcodec_receive_frame] hands back: its return code
    and, for a decoded frame, the best-effort timestamp, the picture type
    of the frame and the motion-vector side data, if any. *)
Record Received : Type := mkReceived {
  rc_ret : Z;
  rc_timestamp : Z;
  rc_pict_type : ascii;
  rc_side_data : option (list AVMotionVector)
}.

(** What the library answers for one iteration of the outer loop: the
    return code of [av_read_frame], the stream of the packet, the return code
    of [avcodec_send_packet] and the answers of the successive calls of
    [avcodec_receive_frame]. *)
Record Packet : Type := mkPacket {
  pk_read : Z;
  pk_stream_index : Z;
  pk_send : Z;
  pk_receive : list Received
}.

Section Decoder.

(** The selected stream, and the picture-type character of the global
    [ffmpeg_pFrame], which is what the loop reads for every frame. *)
Variable ffmpeg_videoStreamIndex : Z.
Variable pictType_of_ffmpeg_pFrame : ascii.

Variable St : Type.
Variable callback : St -> Frame -> St.

(** The frame the callback sees: [motionVectors] is the side data, or empty
    when the frame has none. *)
Definition frame_of (r : Received) : Frame :=
  {| f_pts := rc_timestamp r;
     f_pict_type := pictType_of_ffmpeg_pFrame;
     f_vectors := match rc_side_data r with Some mvs => mvs | None => [] end |}.

(** [while (ret >= 0)]: [Some (st, None)] when the loop is left by [break],
    [Some (st, Some ret)] when the function returns [ret], [None] when the
    answers run out. *)
Fixpoint receive_loop (rs : list Received) (st : St)
  : option (St * option Z) :=
  match rs with
  | [] => None
  | r :: rest =>
      if (rc_ret r =? AVERROR_EAGAIN) || (rc_ret r =? AVERROR_EOF)
      then Some (st, None)
      else if rc_ret r <? 0 then Some (st, Some (rc_ret r))
      else receive_loop rest (callback st (frame_of r))
  end.

(** [while (true)]: the state after the last callback and the value
    returned, or [None] when the answers run out. *)
Fixpoint for_each_frame_packets (ps : list Packet) (st : St)
  : option (St * Z) :=
  match ps with
  | [] => None
  | p :: rest =>
      if negb (pk_read p =? 0) then Some (st, pk_read p)
      else if pk_stream_index p =? ffmpeg_videoStreamIndex then
        if negb (pk_send p =? 0) then Some (st, pk_send p)
        else match receive_loop (pk_receive p) st with
             | None => None
             | Some (st', Some ret) => Some (st', ret)
             | Some (st', None) => for_each_frame_packets rest st'
             end
      else for_each_frame_packets rest st
  end.

(** The frames one packet yields: the answers up to the first negative
    return code. *)
Fixpoint received_frames (rs : list Received) : list Frame :=
  match rs with
  | [] => []
  | r :: rest =>
      if rc_ret r <? 0 then [] else frame_of r :: received_frames rest
  end.

(** How the inner loop ends on these answers, whatever the callback does. *)
Fixpoint receive_end (rs : list Received) : option (option Z) :=
  match rs with
  | [] => None
  | r :: rest =>
      if (rc_ret r =? AVERROR_EAGAIN) || (rc_ret r =? AVERROR_EOF)
      then Some None
      else if rc_ret r <? 0 then Some (Some (rc_ret r))
      else receive_end rest
  end.

(** The frames delivered over the whole loop, and the value it returns. *)
Fixpoint delivered_frames (ps : list Packet) : list Frame :=
  match ps with
  | [] => []
  | p :: rest =>
      if negb (pk_read p =? 0) then []
      else if pk_stream_index p =? ffmpeg_videoStreamIndex then
        if negb (pk_send p =? 0) then []
        else received_frames (pk_receive p)
             ++ match receive_end (pk_receive p) with
                | Some None => delivered_frames rest
                | _ => []
                end
      else delivered_frames rest
  end.

Fixpoint returned (ps : list Packet) : option Z :=
  match ps with
  | [] => None
  | p :: rest =>
      if negb (pk_read p =? 0) then Some (pk_read p)
      else if pk_stream_index p =? ffmpeg_videoStreamIndex then
        if negb (pk_send p =? 0) then Some (pk_send p)
        else match receive_end (pk_receive p) with
             | None => None
             | Some (Some ret) => Some ret
             | Some None => returned rest
             end
      else returned rest
  end.

End Decoder.

(** A script of library answers on which the loop comes to an end: some
    read fails, and before it the decoder's answers to every video packet
    it accepted contain a negative return code. *)
Definition script_ends (ffmpeg_videoStreamIndex : Z) (ps : list Packet)
  : Prop :=
  exists before p after,
    ps = before ++ p :: after /\ pk_read p <> 0 /\
    Forall (fun q => pk_stream_index q = ffmpeg_videoStreamIndex ->
                     pk_send q = 0 ->
                     Exists (fun r => rc_ret r < 0) (pk_receive q)) before.

(** The same script with other picture types in the decoded frames. *)
Definition retag (f : ascii -> ascii) (p : Packet) : Packet :=
  {| pk_read := pk_read p; pk_stream_index := pk_stream_index p;
     pk_send := pk_send p;
     pk_receive :=
       map (fun r => {| rc_ret := rc_ret r; rc_timestamp := rc_timestamp r;
                        rc_pict_type := f (rc_pict_type r);
                        rc_side_data := rc_side_data r |})
           (pk_receive p) |}.


(** ** [ffmpeg_init] *)

(** What the library says of one stream of the container:
    [avcodec_find_decoder] finds no decoder ([None]), or one whose type is
    [AVMEDIA_TYPE_VIDEO] or not; the return code of [avcodec_open2]; the
    [int] width and height of the codec context. *)
Record Stream : Type := mkStream {
  st_decoder : option bool;
  st_open : Z;
  st_width : Z;
  st_height : Z
}.

(** The globals the stream loop assigns. *)
Record VideoGlobals : Type := mkVideoGlobals {
  g_videoStreamIndex : Z;
  g_frameWidth : Z;
  g_frameHeight : Z
}.

Inductive LoopEnd : Type :=
| NullCodec                         (* [pCodec->type] on a null [pCodec] *)
| LoopThrows (what : string)
| LoopDone (g : VideoGlobals).

(** [for(int i = 0; i < nb_streams; i++)], from stream [i] on. *)
Fixpoint stream_loop (streams : list Stream) (i : Z) (g : VideoGlobals)
  : LoopEnd :=
  match streams with
  | [] => LoopDone g
  | s :: rest =>
      match st_decoder s with
      | None => NullCodec
      | Some video =>
          if video && (g_videoStreamIndex g <? 0) then
            if st_open s <? 0
            then LoopThrows "Codec not found or cannot open codec."
            else LoopDone {| g_videoStreamIndex := i;
                             g_frameWidth := to_size_t (st_width s);
                             g_frameHeight := to_size_t (st_height s) |}
          else stream_loop rest (wrap32 (i + 1)) g
      end
  end.

Inductive InitResult : Type :=
| InitNullCodec
| InitThrows (printed : option Z) (what : string)
| InitReady (g : VideoGlobals).

(** [ffmpeg_init], given the return codes of [avformat_open_input] and
    [avformat_find_stream_info] and the streams of the container.  The
    frame size globals are zero before the loop. *)
Definition ffmpeg_init (open_input find_stream_info : Z)
    (streams : list Stream) : InitResult :=
  if negb (open_input =? 0) then
    InitThrows (Some open_input)
               "Couldn't open file. Possibly it doesn't exist."
  else if find_stream_info <? 0 then
    InitThrows (Some find_stream_info) "Stream information not found."
  else
    match stream_loop streams 0
            {| g_videoStreamIndex := -1; g_frameWidth := 0;
               g_frameHeight := 0 |} with
    | NullCodec => InitNullCodec
    | LoopThrows what => InitThrows None what
    | LoopDone g =>
        if g_videoStreamIndex g =? -1
        then InitThrows None "Video stream not found."
        else InitReady g
    end.

(** Stream [n] is the first stream with a video decoder, and every stream
    before it has a decoder of another type. *)
Definition first_video_stream (streams : list Stream) (n : nat) (s : Stream)
  : Prop :=
  nth_error streams n = Some s /\ st_decoder s = Some true /\
  forall j s', (j < n)%nat -> nth_error streams j = Some s' ->
               st_decoder s' = Some false.
(* ================================================================== *)
(** * Properties *)

(** ** Machine integers *)

Lemma wrap32_small z : in_int32 z -> wrap32 z = z.
Proof.
  unfold in_int32, wrap32, wrap. intros H.
  change (2 ^ (32 - 1)) with 2147483648. change (2 ^ 32) with 4294967296.
  rewrite Z.mod_small; lia.
Qed.

Lemma wrap64_small z : - 2 ^ 63 <= z < 2 ^ 63 -> wrap64 z = z.
Proof.
  unfold wrap64, wrap. intros H.
  change (2 ^ (64 - 1)) with (2 ^ 63). change (2 ^ 64) with (2 * 2 ^ 63).
  rewrite Z.mod_small; lia.
Qed.

Lemma wrap32_range z : in_int32 (wrap32 z).
Proof.
  unfold in_int32, wrap32, wrap.
  change (2 ^ (32 - 1)) with 2147483648. change (2 ^ 32) with 4294967296.
  pose proof (Z.mod_pos_bound (z + 2147483648) 4294967296). lia.
Qed.

Lemma wrap32_succ z : wrap32 (wrap32 z + 1) = wrap32 (z + 1).
Proof.
  unfold wrap32, wrap.
  change (2 ^ (32 - 1)) with 2147483648. change (2 ^ 32) with 4294967296.
  f_equal.
  replace ((z + 2147483648) mod 4294967296 - 2147483648 + 1 + 2147483648)
    with ((z + 2147483648) mod 4294967296 + 1) by lia.
  replace (z + 1 + 2147483648) with (z + 2147483648 + 1) by lia.
  rewrite Z.add_mod_idemp_l by lia. reflexivity.
Qed.

Lemma to_size_t_small z : 0 <= z < 2 ^ 64 -> to_size_t z = z.
Proof. intros H. unfold to_size_t. apply Z.mod_small; exact H. Qed.

Lemma to_size_t_neg z : - 2 ^ 64 <= z < 0 -> to_size_t z = z + 2 ^ 64.
Proof.
  intros H. unfold to_size_t.
  symmetry. apply (Z.mod_unique _ _ (-1)); lia.
Qed.

Lemma avg_exact a b : in_disp a -> in_disp b -> avg a b = Z.quot (a + b) 2.
Proof.
  unfold in_disp, avg. intros Ha Hb.
  rewrite wrap32_small; [reflexivity | unfold in_int32; lia].
Qed.

Lemma avg_in_disp a b : in_disp a -> in_disp b -> in_disp (avg a b).
Proof.
  intros Ha Hb. rewrite avg_exact by assumption.
  unfold in_disp in *.
  split.
  - apply Z.quot_le_lower_bound; lia.
  - apply Z.quot_le_upper_bound; lia.
Qed.

Lemma disp_exact s d : in_int16 s -> in_int16 d ->
  wrap32 (d - s) = d - s /\ in_disp (d - s).
Proof.
  unfold in_int16, in_disp. intros Hs Hd. split; [|lia].
  apply wrap32_small. unfold in_int32. lia.
Qed.

(** ** Loops and arrays *)

Lemma upd2_same a i j v : upd2 a i j v i j = v.
Proof. unfold upd2. now rewrite !Z.eqb_refl. Qed.

Lemma upd2_other a i j v i' j' :
  (i', j') <> (i, j) -> upd2 a i j v i' j' = a i' j'.
Proof.
  unfold upd2. intros H.
  destruct (Z.eqb_spec i' i), (Z.eqb_spec j' j); simpl; try reflexivity.
  subst. now contradiction H.
Qed.

Lemma in_range lo hi i : In i (range lo hi) <-> lo <= i < hi.
Proof.
  unfold range. rewrite in_map_iff. split.
  - intros (k & <- & Hk). apply in_seq in Hk. lia.
  - intros H. exists (Z.to_nat (i - lo)). split; [lia|]. apply in_seq. lia.
Qed.

Lemma range_nil lo hi : hi <= lo -> range lo hi = [].
Proof.
  intros H. unfold range. replace (Z.to_nat (hi - lo)) with 0%nat by lia.
  reflexivity.
Qed.

Lemma range_length lo hi : length (range lo hi) = Z.to_nat (hi - lo).
Proof. unfold range. now rewrite length_map, length_seq. Qed.

(** An invariant that every iteration keeps holds after the loop. *)
Lemma for_loop_inv {A : Type} (P : A -> Prop) lo hi (body : Z -> A -> A) a :
  P a ->
  (forall i x, lo <= i < hi -> P x -> P (body i x)) ->
  P (for_loop lo hi body a).
Proof.
  unfold for_loop. intros Ha Hstep.
  assert (Hin : forall i, In i (range lo hi) -> lo <= i < hi)
    by (intros i; apply in_range).
  revert a Ha. induction (range lo hi) as [|i l IH]; intros a Ha; simpl.
  - exact Ha.
  - apply IH.
    + intros k Hk. apply Hin. now right.
    + apply Hstep; [apply Hin; now left | exact Ha].
Qed.

(** What a loop does to an observation [obs] that one index [k0] sets to
    [v] and every other index leaves alone. *)
Lemma for_loop_obs {A B : Type} (obs : A -> B) lo hi (body : Z -> A -> A)
    a k0 v :
  (forall k x, k <> k0 -> obs (body k x) = obs x) ->
  (forall x, obs (body k0 x) = v) ->
  obs (for_loop lo hi body a)
  = if (lo <=? k0) && (k0 <? hi) then v else obs a.
Proof.
  intros Hother Hset. unfold for_loop.
  assert (Hgen : forall l x,
    (In k0 l -> obs (fold_left (fun acc i => body i acc) l x) = v) /\
    (~ In k0 l -> obs (fold_left (fun acc i => body i acc) l x) = obs x)).
  { induction l as [|k l IH]; intros x; simpl.
    - split; [tauto | reflexivity].
    - destruct (IH (body k x)) as [IH1 IH2].
      destruct (in_dec Z.eq_dec k0 l) as [Hin|Hnin].
      + split; [intros _; now apply IH1 | tauto].
      + split.
        * intros [->|Hin]; [|tauto]. rewrite IH2 by assumption. apply Hset.
        * intros Hn. rewrite IH2 by assumption. apply Hother. tauto. }
  destruct (Hgen (range lo hi) a) as [H1 H2].
  destruct ((lo <=? k0) && (k0 <? hi)) eqn:E.
  - apply H1. apply in_range. lia.
  - apply H2. rewrite in_range. lia.
Qed.

(** ** The [FrameInfo] methods *)

Lemma same_meta_refl f : same_meta f f.
Proof. unfold same_meta. tauto. Qed.

Lemma same_meta_trans f g h : same_meta f g -> same_meta g h -> same_meta f h.
Proof. unfold same_meta. intuition congruence. Qed.

(** *** The neighbour fill *)

Lemma fill_cell_cases i j f : fill_case i j f (fill_cell i j f).
Proof.
  unfold fill_cell.
  destruct (Z.eqb_spec (occupancy f i j) 0) as [H0|H0];
    [|apply fill_skip; now left].
  destruct (Z.eqb_spec (occupancy f i (j - 1)) 0) as [Hl|Hl];
  destruct (Z.eqb_spec (occupancy f i (j + 1)) 0) as [Hr|Hr]; simpl;
  try (destruct (Z.eqb_spec (occupancy f (i - 1) j) 0) as [Ht|Ht];
       destruct (Z.eqb_spec (occupancy f (i + 1) j) 0) as [Hb|Hb]; simpl);
  solve [ apply fill_horizontal; assumption
        | apply fill_vertical; tauto
        | apply fill_skip; tauto ].
Qed.

Lemma fill_cell_meta i j f : same_meta f (fill_cell i j f).
Proof.
  destruct (fill_cell_cases i j f); unfold same_meta; simpl; tauto.
Qed.

(** A cell visit writes at most the visited cell, and only when it is
    unoccupied. *)
Lemma fill_cell_frame i j f i' j' :
  (i', j') <> (i, j) \/ occupancy f i' j' <> 0 ->
  dx (fill_cell i j f) i' j' = dx f i' j' /\
  dy (fill_cell i j f) i' j' = dy f i' j' /\
  occupancy (fill_cell i j f) i' j' = occupancy f i' j'.
Proof.
  intros H.
  destruct (fill_cell_cases i j f) as [H0 _ _ | H0 _ _ _ | _]; simpl;
    try tauto;
    (assert (Hne : (i', j') <> (i, j))
       by (destruct H as [H|H]; [exact H | intros E; inversion E; subst; tauto]);
     rewrite !upd2_other by exact Hne; tauto).
Qed.

Lemma fill_cell_bounded i j f : bounded f -> bounded (fill_cell i j f).
Proof.
  intros Hb.
  destruct (fill_cell_cases i j f); try exact Hb;
    intros i' j'; simpl; unfold upd2;
    destruct ((i' =? i) && (j' =? j));
    try apply Hb; split; apply avg_in_disp; apply Hb.
Qed.

Lemma fill_cell_occ_zero i j f : occ_zero f -> occ_zero (fill_cell i j f).
Proof.
  intros Hz.
  destruct (fill_cell_cases i j f); try exact Hz;
    intros i' j'; simpl; unfold upd2;
    destruct ((i' =? i) && (j' =? j)); try apply Hz; discriminate.
Qed.

(** A property kept by every cell visit is kept by a sweep, and by the
    whole pass. *)
Lemma fill_sweep_inv (P : FrameInfo -> Prop) f :
  P f ->
  (forall i j x,
      1 <= i < to_size_t (fst (Shape f) - 1) ->
      1 <= j < to_size_t (snd (Shape f) - 1) ->
      P x -> P (fill_cell i j x)) ->
  P (fill_sweep f).
Proof.
  intros Hf Hstep. unfold fill_sweep.
  apply for_loop_inv; [exact Hf|].
  intros i x Hi Hx. apply for_loop_inv; [exact Hx|].
  intros j y Hj Hy. now apply Hstep.
Qed.

Lemma fill_sweep_meta f : same_meta f (fill_sweep f).
Proof.
  apply (fill_sweep_inv (same_meta f)); [apply same_meta_refl|].
  intros i j x _ _ Hx. eapply same_meta_trans; [exact Hx|apply fill_cell_meta].
Qed.

Lemma Fill_two_sweeps f :
  FillInSomeMissingVectorsInGrid8 f = fill_sweep (fill_sweep f).
Proof. reflexivity. Qed.

Lemma Fill_inv (P : FrameInfo -> Prop) f :
  P f ->
  (forall i j x,
      1 <= i < to_size_t (fst (Shape f) - 1) ->
      1 <= j < to_size_t (snd (Shape f) - 1) ->
      P x -> P (fill_cell i j x)) ->
  P (FillInSomeMissingVectorsInGrid8 f).
Proof.
  intros Hf Hstep. rewrite Fill_two_sweeps.
  assert (H1 : P (fill_sweep f)) by now apply fill_sweep_inv.
  apply fill_sweep_inv; [exact H1|].
  destruct (fill_sweep_meta f) as (_ & Hs & _). rewrite Hs. exact Hstep.
Qed.

Lemma Fill_meta f : same_meta f (FillInSomeMissingVectorsInGrid8 f).
Proof.
  apply (Fill_inv (same_meta f)); [apply same_meta_refl|].
  intros i j x _ _ Hx. eapply same_meta_trans; [exact Hx|apply fill_cell_meta].
Qed.

Lemma Fill_bounded f : bounded f -> bounded (FillInSomeMissingVectorsInGrid8 f).
Proof.
  intros H. apply Fill_inv; [exact H|]. intros. now apply fill_cell_bounded.
Qed.

Lemma Fill_occ_zero f :
  occ_zero f -> occ_zero (FillInSomeMissingVectorsInGrid8 f).
Proof.
  intros H. apply Fill_inv; [exact H|]. intros. now apply fill_cell_occ_zero.
Qed.

(** The bounds of the two inner loops, without the [size_t] arithmetic. *)
Lemma fill_bound n : 1 <= n <= MAX_GRID_SIZE -> to_size_t (n - 1) = n - 1.
Proof.
  unfold MAX_GRID_SIZE. intros H. apply to_size_t_small.
  change (2 ^ 64) with 18446744073709551616. lia.
Qed.

(** Cells that are occupied, and cells outside the interior, are the same
    in every array after the pass. *)
Lemma Fill_frame f i j :
  1 <= fst (Shape f) <= MAX_GRID_SIZE ->
  1 <= snd (Shape f) <= MAX_GRID_SIZE ->
  ~ interior f i j \/ occupancy f i j <> 0 ->
  dx (FillInSomeMissingVectorsInGrid8 f) i j = dx f i j /\
  dy (FillInSomeMissingVectorsInGrid8 f) i j = dy f i j /\
  occupancy (FillInSomeMissingVectorsInGrid8 f) i j = occupancy f i j.
Proof.
  intros Hr Hc Hcell.
  apply (Fill_inv (fun x => dx x i j = dx f i j /\ dy x i j = dy f i j /\
                            occupancy x i j = occupancy f i j)); [tauto|].
  rewrite (fill_bound _ Hr), (fill_bound _ Hc).
  intros i' j' x Hi Hj (Hx & Hy & Ho).
  destruct (fill_cell_frame i' j' x i j) as (Ex & Ey & Eo).
  - destruct Hcell as [Hn|Hocc].
    + left. intros E. inversion E; subst. apply Hn. unfold interior. lia.
    + right. congruence.
  - rewrite Ex, Ey, Eo. tauto.
Qed.

Lemma fold_left_flat_map {A B C : Type} (g : A -> C -> A) (h : B -> list C)
    (l : list B) (a : A) :
  fold_left g (flat_map h l) a
  = fold_left (fun acc b => fold_left g (h b) acc) l a.
Proof.
  revert a. induction l as [|b l IH]; intros a; simpl; [reflexivity|].
  now rewrite fold_left_app, IH.
Qed.

Lemma fold_left_map {A B C : Type} (g : A -> C -> A) (h : B -> C)
    (l : list B) (a : A) :
  fold_left g (map h l) a = fold_left (fun acc b => g acc (h b)) l a.
Proof.
  revert a. induction l as [|b l IH]; intros a; simpl; [reflexivity|].
  apply IH.
Qed.

Lemma fold_left_ext_eq {A B : Type} (g g' : A -> B -> A) (l : list B) (a : A) :
  (forall x b, g x b = g' x b) -> fold_left g l a = fold_left g' l a.
Proof.
  intros H. revert a. induction l as [|b l IH]; intros a; simpl;
    [reflexivity|]. now rewrite H, IH.
Qed.

Lemma range_cons lo hi : lo < hi -> range lo hi = lo :: range (lo + 1) hi.
Proof.
  intros H. unfold range.
  replace (Z.to_nat (hi - lo)) with (S (Z.to_nat (hi - (lo + 1)))) by lia.
  cbn [seq map]. rewrite <- seq_shift, map_map. f_equal; [lia|].
  apply map_ext. intros k. lia.
Qed.

Lemma for_loop_cons {A : Type} lo hi (body : Z -> A -> A) a :
  lo < hi -> for_loop lo hi body a = for_loop (lo + 1) hi body (body lo a).
Proof. intros H. unfold for_loop. now rewrite (range_cons lo hi H). Qed.

(** One sweep visits the interior cells, each once, row by row. *)
Lemma fill_sweep_interior f :
  1 <= fst (Shape f) <= MAX_GRID_SIZE ->
  1 <= snd (Shape f) <= MAX_GRID_SIZE ->
  fill_sweep f
  = fold_left visit (interior_cells (fst (Shape f)) (snd (Shape f))) f.
Proof.
  intros Hr Hc. unfold fill_sweep, interior_cells, for_loop.
  rewrite (fill_bound _ Hr), (fill_bound _ Hc).
  rewrite fold_left_flat_map.
  apply fold_left_ext_eq. intros x i.
  rewrite fold_left_map. reflexivity.
Qed.

Lemma in_interior_cells rows cols i j :
  In (i, j) (interior_cells rows cols)
  <-> 1 <= i <= rows - 2 /\ 1 <= j <= cols - 2.
Proof.
  unfold interior_cells. rewrite in_flat_map. split.
  - intros (i' & Hi & Hj). apply in_map_iff in Hj.
    destruct Hj as (j' & E & Hj). inversion E; subst.
    apply in_range in Hi. apply in_range in Hj. lia.
  - intros (Hi & Hj). exists i. split; [apply in_range; lia|].
    apply in_map_iff. exists j. split; [reflexivity|apply in_range; lia].
Qed.

Lemma range_NoDup lo hi : NoDup (range lo hi).
Proof.
  unfold range. apply Injective_map_NoDup; [|apply seq_NoDup].
  intros a b H. lia.
Qed.

Lemma interior_cells_NoDup rows cols : NoDup (interior_cells rows cols).
Proof.
  unfold interior_cells.
  pose proof (range_NoDup 1 (rows - 1)) as Hnd.
  induction (range 1 (rows - 1)) as [|i l IH]; simpl; [constructor|].
  inversion Hnd as [|? ? Hni Hl]; subst.
  apply NoDup_app.
  - apply Injective_map_NoDup; [|apply range_NoDup].
    intros a b E. now inversion E.
  - now apply IH.
  - intros [i' j'] H1 H2.
    apply in_map_iff in H1. destruct H1 as (j0 & E & _). inversion E; subst.
    apply in_flat_map in H2. destruct H2 as (i0 & Hi0 & Hj0).
    apply in_map_iff in Hj0. destruct Hj0 as (j1 & E1 & _).
    inversion E1; subst. contradiction.
Qed.

(** *** Interpolation *)

Lemma InterpolateFlow_fields this p n :
  let m := InterpolateFlow this p n in
  occupancy m = occupancy this /\ Empty m = false /\
  Origin m = "interpolated"%string /\
  GridStep m = GridStep this /\ Shape m = Shape this /\ Pts m = Pts this /\
  FrameIndex m = FrameIndex this /\ PictType m = PictType this /\
  Printed m = Printed this.
Proof.
  unfold InterpolateFlow. simpl.
  apply (for_loop_inv (fun x =>
    occupancy x = occupancy this /\ false = false /\
    "interpolated"%string = "interpolated"%string /\
    GridStep x = GridStep this /\ Shape x = Shape this /\ Pts x = Pts this /\
    FrameIndex x = FrameIndex this /\ PictType x = PictType this /\
    Printed x = Printed this)); [tauto|].
  intros i x _ Hx. apply for_loop_inv; [exact Hx|].
  intros j y _ Hy. simpl. exact Hy.
Qed.

Lemma InterpolateFlow_cell this p n i j :
  0 <= i < fst (Shape this) -> 0 <= j < snd (Shape this) ->
  dx (InterpolateFlow this p n) i j = avg (dx p i j) (dx n i j) /\
  dy (InterpolateFlow this p n) i j = avg (dy p i j) (dy n i j).
Proof.
  intros Hi Hj. unfold InterpolateFlow. simpl.
  set (inner := fun i0 : Z => for_loop 0 (snd (Shape this))
         (fun j0 x => set_flow x i0 j0 (avg (dx p i0 j0) (dx n i0 j0))
                                       (avg (dy p i0 j0) (dy n i0 j0)))).
  assert (H : (fun x => (dx x i j, dy x i j))
                (for_loop 0 (fst (Shape this)) inner this)
              = (avg (dx p i j) (dx n i j), avg (dy p i j) (dy n i j))).
  { rewrite (for_loop_obs (fun x => (dx x i j, dy x i j)) _ _ inner this i
               (avg (dx p i j) (dx n i j), avg (dy p i j) (dy n i j))).
    - replace ((0 <=? i) && (i <? fst (Shape this))) with true by lia.
      reflexivity.
    - intros k x Hk. unfold inner.
      apply (for_loop_inv (fun y => (dx y i j, dy y i j) = (dx x i j, dy x i j)));
        [reflexivity|].
      intros j0 y _ Hy. simpl. rewrite !upd2_other by congruence. exact Hy.
    - intros x. unfold inner.
      rewrite (for_loop_obs (fun y => (dx y i j, dy y i j)) _ _ _ x j
                 (avg (dx p i j) (dx n i j), avg (dy p i j) (dy n i j))).
      + replace ((0 <=? j) && (j <? snd (Shape this))) with true by lia.
        reflexivity.
      + intros k y Hk. simpl. rewrite !upd2_other by congruence. reflexivity.
      + intros y. simpl. now rewrite !upd2_same. }
  simpl in H. now inversion H.
Qed.

Lemma InterpolateFlow_bounded this p n :
  bounded this -> bounded p -> bounded n -> bounded (InterpolateFlow this p n).
Proof.
  intros Ht Hp Hn. unfold InterpolateFlow.
  assert (H : bounded (for_loop 0 (fst (Shape this)) (fun i =>
      for_loop 0 (snd (Shape this)) (fun j x =>
        set_flow x i j (avg (dx p i j) (dx n i j))
                       (avg (dy p i j) (dy n i j)))) this)).
  { apply for_loop_inv; [exact Ht|]. intros i x _ Hx.
    apply for_loop_inv; [exact Hx|]. intros j y _ Hy.
    intros i' j'. simpl. unfold upd2.
    destruct ((i' =? i) && (j' =? j)); [|apply Hy].
    split; apply avg_in_disp; first [apply Hp | apply Hn]. }
  exact H.
Qed.

(** *** Binning *)

Lemma bin_vector_fields cur mv :
  let f := bin_vector cur mv in
  GridStep f = GridStep cur /\ Shape f = Shape cur /\ Pts f = Pts cur /\
  FrameIndex f = FrameIndex cur /\ PictType f = PictType cur /\
  Origin f = Origin cur /\ Printed f = Printed cur /\ Empty f = false.
Proof. simpl. tauto. Qed.

Lemma bin_vectors_fields mvs : forall cur,
  let f := bin_vectors cur mvs in
  GridStep f = GridStep cur /\ Shape f = Shape cur /\ Pts f = Pts cur /\
  FrameIndex f = FrameIndex cur /\ PictType f = PictType cur /\
  Origin f = Origin cur /\ Printed f = Printed cur /\
  Empty f = Empty cur && is_empty mvs.
Proof.
  induction mvs as [|mv mvs IH]; intros cur; simpl.
  - rewrite andb_true_r. tauto.
  - specialize (IH (bin_vector cur mv)). simpl in IH.
    unfold bin_vectors. rewrite andb_false_r.
    destruct IH as (H1 & H2 & H3 & H4 & H5 & H6 & H7 & H8).
    repeat split; assumption.
Qed.

Lemma cell_of_bin_vectors cur mvs mv :
  cell_of (bin_vectors cur mvs) mv = cell_of cur mv.
Proof.
  unfold cell_of.
  destruct (bin_vectors_fields mvs cur) as (-> & -> & _). reflexivity.
Qed.

(** What one vector leaves in its own cell and in every other cell. *)
Lemma bin_vector_cell cur mv i j :
  let f := bin_vector cur mv in
  ((i, j) = cell_of cur mv ->
     dx f i j = wrap32 (dst_x mv - src_x mv) /\
     dy f i j = wrap32 (dst_y mv - src_y mv) /\
     occupancy f i j = 1) /\
  ((i, j) <> cell_of cur mv ->
     dx f i j = dx cur i j /\ dy f i j = dy cur i j /\
     occupancy f i j = occupancy cur i j).
Proof.
  unfold cell_of. simpl. split; intros H.
  - inversion H; subst. now rewrite !upd2_same.
  - now rewrite !upd2_other by exact H.
Qed.

Lemma bin_vectors_snoc cur mvs mv :
  bin_vectors cur (mvs ++ [mv]) = bin_vector (bin_vectors cur mvs) mv.
Proof. unfold bin_vectors. now rewrite fold_left_app. Qed.

(** Last writer wins: the cell of a vector holds that vector's displacement
    unless a later vector of the list is binned into the same cell. *)
Lemma bin_vectors_last_writer l2 : forall cur l1 mv i j,
  cell_of cur mv = (i, j) ->
  (forall mv', In mv' l2 -> cell_of cur mv' <> (i, j)) ->
  let f := bin_vectors cur (l1 ++ mv :: l2) in
  dx f i j = wrap32 (dst_x mv - src_x mv) /\
  dy f i j = wrap32 (dst_y mv - src_y mv) /\
  occupancy f i j = 1.
Proof.
  induction l2 as [|m l2 IH] using rev_ind; intros cur l1 mv i j E Hlater.
  - cbv zeta. rewrite bin_vectors_snoc.
    apply (bin_vector_cell (bin_vectors cur l1) mv i j).
    now rewrite cell_of_bin_vectors.
  - cbv zeta.
    replace (l1 ++ mv :: l2 ++ [m]) with ((l1 ++ mv :: l2) ++ [m])
      by (rewrite <- app_assoc; reflexivity).
    rewrite bin_vectors_snoc.
    destruct (bin_vector_cell (bin_vectors cur (l1 ++ mv :: l2)) m i j)
      as [_ Hother].
    rewrite cell_of_bin_vectors in Hother.
    destruct Hother as (-> & -> & ->).
    + intros E'. apply (Hlater m); [apply in_or_app; right; now left|].
      congruence.
    + apply IH; [exact E|]. intros mv' Hin. apply Hlater.
      apply in_or_app. now left.
Qed.

(** Every vector of the list leaves its cell occupied. *)
Lemma bin_vectors_occupied mvs : forall cur mv i j,
  In mv mvs -> cell_of cur mv = (i, j) ->
  occupancy (bin_vectors cur mvs) i j = 1.
Proof.
  induction mvs as [|m mvs IH] using rev_ind; intros cur mv i j Hin E;
    [contradiction|].
  rewrite bin_vectors_snoc.
  destruct (bin_vector_cell (bin_vectors cur mvs) m i j) as [Hsame Hother].
  rewrite cell_of_bin_vectors in Hsame, Hother.
  destruct (Z.eq_dec i (fst (cell_of cur m))) as [Ei|Ei];
    [destruct (Z.eq_dec j (snd (cell_of cur m))) as [Ej|Ej]|].
  - apply Hsame. destruct (cell_of cur m); simpl in *; congruence.
  - destruct Hother as (_ & _ & ->).
    + destruct (cell_of cur m); simpl in *; congruence.
    + apply in_app_or in Hin. destruct Hin as [Hin|[->|[]]].
      * now apply (IH cur mv).
      * exfalso. rewrite E in Ej. now apply Ej.
  - destruct Hother as (_ & _ & ->).
    + destruct (cell_of cur m); simpl in *; congruence.
    + apply in_app_or in Hin. destruct Hin as [Hin|[->|[]]].
      * now apply (IH cur mv).
      * exfalso. rewrite E in Ei. now apply Ei.
Qed.

Lemma bin_vectors_bounded mvs : forall cur,
  Forall int16_mv mvs -> bounded cur -> bounded (bin_vectors cur mvs).
Proof.
  induction mvs as [|mv mvs IH]; intros cur Hmv Hb; [exact Hb|].
  inversion Hmv as [|? ? (Hsx & Hsy & Hdx & Hdy) Hrest]; subst.
  apply IH; [exact Hrest|].
  intros i j. simpl. unfold upd2.
  destruct ((i =? _) && (j =? _)); [|apply Hb].
  destruct (disp_exact _ _ Hsx Hdx) as [-> ?].
  destruct (disp_exact _ _ Hsy Hdy) as [-> ?]. tauto.
Qed.

Lemma bin_vectors_occ_zero mvs : forall cur,
  occ_zero cur -> occ_zero (bin_vectors cur mvs).
Proof.
  induction mvs as [|mv mvs IH]; intros cur Hz; [exact Hz|].
  apply IH. intros i j. simpl. unfold upd2.
  destruct ((i =? _) && (j =? _)); [discriminate|apply Hz].
Qed.

(** Binning alone never produces the tag 2. *)
Lemma bin_vectors_occ01 mvs : forall cur,
  (forall i j, occupancy cur i j = 0 \/ occupancy cur i j = 1) ->
  forall i j, occupancy (bin_vectors cur mvs) i j = 0 \/
              occupancy (bin_vectors cur mvs) i j = 1.
Proof.
  induction mvs as [|mv mvs IH]; intros cur H; [exact H|].
  apply IH. intros i j. simpl. unfold upd2.
  destruct ((i =? _) && (j =? _)); [now right|apply H].
Qed.

Lemma build_cur_fields cfg fi pts pt mvs :
  let cur := build_cur cfg fi pts pt mvs in
  GridStep cur = gridStep cfg /\ Shape cur = shape cfg /\ Pts cur = pts /\
  FrameIndex cur = fi /\ PictType cur = pt /\ Origin cur = "video"%string /\
  Printed cur = false /\ Empty cur = is_empty mvs.
Proof.
  unfold build_cur.
  destruct (bin_vectors_fields mvs (fresh_cur cfg fi pts pt))
    as (H1 & H2 & H3 & H4 & H5 & H6 & H7 & H8).
  simpl in *.
  destruct (GridStep (bin_vectors (fresh_cur cfg fi pts pt) mvs) =? 8).
  - destruct (Fill_meta (bin_vectors (fresh_cur cfg fi pts pt) mvs))
      as (G1 & G2 & G3 & G4 & G5 & G6 & G7 & G8).
    repeat split; congruence.
  - repeat split; assumption.
Qed.

Lemma build_cur_bounded cfg fi pts pt mvs :
  Forall int16_mv mvs -> bounded (build_cur cfg fi pts pt mvs).
Proof.
  intros Hmv. unfold build_cur.
  assert (Hb : bounded (bin_vectors (fresh_cur cfg fi pts pt) mvs)).
  { apply bin_vectors_bounded; [exact Hmv|].
    intros i j. simpl. unfold zeros, in_disp. lia. }
  destruct (_ =? 8); [now apply Fill_bounded|exact Hb].
Qed.

Lemma build_cur_occ_zero cfg fi pts pt mvs :
  occ_zero (build_cur cfg fi pts pt mvs).
Proof.
  unfold build_cur.
  assert (Hz : occ_zero (bin_vectors (fresh_cur cfg fi pts pt) mvs)).
  { apply bin_vectors_occ_zero. intros i j _. simpl. unfold zeros. tauto. }
  destruct (_ =? 8); [now apply Fill_occ_zero|exact Hz].
Qed.

Lemma build_cur_ok cfg fi pts pt mvs :
  Forall int16_mv mvs -> grid_ok cfg (build_cur cfg fi pts pt mvs).
Proof.
  intros Hmv.
  destruct (build_cur_fields cfg fi pts pt mvs) as (H1 & H2 & _ & _ & _ & H6 & _).
  refine (conj H1 (conj H2 (conj _ (conj _ H6)))).
  - now apply build_cur_bounded.
  - apply build_cur_occ_zero.
Qed.

(** ** Printing *)

Lemma Print_printed f p : Printed f = true -> PrintIfNotPrinted f p = (f, p).
Proof. unfold PrintIfNotPrinted. now intros ->. Qed.

Lemma Print_unprinted f p :
  Printed f = false -> PrintIfNotPrinted f p = (set_Printed f true, emit p f).
Proof. unfold PrintIfNotPrinted. now intros ->. Qed.

Lemma Print_marks f p : Printed (fst (PrintIfNotPrinted f p)) = true.
Proof.
  destruct (Printed f) eqn:E.
  - now rewrite Print_printed.
  - now rewrite Print_unprinted.
Qed.

(** Printing the buffer prints its unprinted grids, in buffer order. *)
Lemma print_each_emits fs : forall p,
  snd (print_each fs p) = fold_left emit (unprinted fs) p.
Proof.
  induction fs as [|f fs IH]; intros p; simpl; [reflexivity|].
  destruct (Printed f) eqn:E.
  - rewrite (Print_printed _ _ E). specialize (IH p).
    destruct (print_each fs p). simpl in *. exact IH.
  - rewrite (Print_unprinted _ _ E). specialize (IH (emit p f)).
    destruct (print_each fs (emit p f)). simpl in *. exact IH.
Qed.


Lemma emitted_fold_emit gs : forall p,
  map em_grid (emitted (fold_left emit gs p)) = map em_grid (emitted p) ++ gs.
Proof.
  induction gs as [|g gs IH]; intros p; simpl.
  - now rewrite app_nil_r.
  - rewrite IH. simpl. rewrite map_app. simpl. now rewrite <- app_assoc.
Qed.

Lemma emitted_prefix_fold_emit gs : forall p,
  exists es, emitted (fold_left emit gs p) = emitted p ++ es /\
             map em_grid es = gs.
Proof.
  induction gs as [|g gs IH]; intros p; simpl.
  - exists []. now rewrite app_nil_r.
  - destruct (IH (emit p g)) as (es & E & Hg). simpl in E.
    eexists (_ :: es). rewrite E, <- app_assoc. simpl. split; [reflexivity|].
    now rewrite Hg.
Qed.

(** ** The three paths of [output_vectors_std] for a decoded frame *)

Section Paths.

Variable cfg : Config.
Variables (fi pts : Z) (pt : ascii).
Hypothesis fi_real : fi <> -1.

Lemma path_no_vectors s :
  output_vectors_std cfg fi pts pt [] s
  = {| prev := prev s ++ [build_cur cfg fi pts pt []];
       printer := printer s |}.
Proof.
  unfold output_vectors_std.
  destruct (Z.eqb_spec fi (-1)) as [E|_]; [contradiction|]. reflexivity.
Qed.

Lemma path_interpolate mvs s front back :
  mvs <> [] -> prev s = [front; back] ->
  Empty front = false -> Printed back = false ->
  let cur := build_cur cfg fi pts pt mvs in
  output_vectors_std cfg fi pts pt mvs s
  = {| prev := [set_Printed cur true];
       printer :=
         emit (emit (printer s) (InterpolateFlow back front cur)) cur |}.
Proof.
  intros Hmv Hprev Hfront Hback cur. unfold output_vectors_std.
  destruct (Z.eqb_spec fi (-1)) as [E|_]; [contradiction|].
  destruct mvs as [|mv mvs]; [contradiction|]. simpl negb. cbv iota.
  rewrite Hprev, Hfront. simpl negb. cbv iota.
  fold cur.
  rewrite (Print_unprinted (InterpolateFlow back front cur)).
  - simpl snd. rewrite (Print_unprinted cur); [reflexivity|].
    apply build_cur_fields.
  - destruct (InterpolateFlow_fields back front cur)
      as (_ & _ & _ & _ & _ & _ & _ & _ & ->). exact Hback.
Qed.

Lemma path_print_all mvs s :
  mvs <> [] ->
  (forall front back, prev s = [front; back] -> Empty front = true) ->
  let cur := build_cur cfg fi pts pt mvs in
  output_vectors_std cfg fi pts pt mvs s
  = {| prev := [set_Printed cur true];
       printer := emit (fold_left emit (unprinted (prev s)) (printer s)) cur |}.
Proof.
  intros Hmv Hprev cur. unfold output_vectors_std.
  destruct (Z.eqb_spec fi (-1)) as [E|_]; [contradiction|].
  destruct mvs as [|mv mvs]; [contradiction|]. simpl negb. cbv iota.
  fold cur.
  assert (Hp1 : match prev s with
    | [front; back] =>
        if negb (Empty front)
        then snd (PrintIfNotPrinted (InterpolateFlow back front cur) (printer s))
        else snd (print_each (prev s) (printer s))
    | _ => snd (print_each (prev s) (printer s))
    end = fold_left emit (unprinted (prev s)) (printer s)).
  { rewrite <- print_each_emits.
    destruct (prev s) as [|front [|back [|third rest]]] eqn:E; try reflexivity.
    rewrite (Hprev front back eq_refl). reflexivity. }
  rewrite Hp1. rewrite (Print_unprinted cur); [reflexivity|].
  apply build_cur_fields.
Qed.

End Paths.

(** The end-of-stream call prints what the buffer still holds and appends
    the sentinel grid, which is never printed. *)
Lemma path_flush cfg pts pt mvs s :
  printer (flush cfg pts pt mvs s)
  = fold_left emit (unprinted (prev s)) (printer s).
Proof.
  unfold flush, output_vectors_std. simpl.
  rewrite <- print_each_emits.
  destruct (print_each (prev s) (printer s)). reflexivity.
Qed.

(** ** The invariant of a run *)

Lemma unprinted_app l1 l2 : unprinted (l1 ++ l2) = unprinted l1 ++ unprinted l2.
Proof. apply filter_app. Qed.

Lemma unprinted_pending l : Forall pending l -> unprinted l = l.
Proof.
  induction 1 as [|f l [_ Hf] _ IH]; simpl; [reflexivity|].
  now rewrite Hf, IH.
Qed.

Lemma unprinted_incl l f : In f (unprinted l) -> In f l.
Proof. unfold unprinted. intros H. now apply filter_In in H. Qed.

Lemma grids_emit p f :
  map em_grid (emitted (emit p f)) = map em_grid (emitted p) ++ [f].
Proof. simpl. now rewrite map_app. Qed.

Lemma init_printer_eq :
  printer pipeline_init = {| FirstPts := -1; emitted := [] |}.
Proof. reflexivity. Qed.

Lemma fold_emit_snoc gs g p :
  fold_left emit (gs ++ [g]) p = emit (fold_left emit gs p) g.
Proof. now rewrite fold_left_app. Qed.

Lemma run_inv_init cfg : run_inv cfg [] pipeline_init.
Proof. constructor; simpl; try constructor; reflexivity. Qed.

Lemma grid_ok_printed cfg f :
  grid_ok cfg f -> grid_ok cfg (set_Printed f true).
Proof. intros H. exact H. Qed.

Section Step.

Variables (cfg : Config) (cs : list Call) (s : PState).
Variables (fi pts : Z) (pt : ascii) (mvs : list AVMotionVector).
Hypothesis Hinv : run_inv cfg cs s.
Hypothesis Hfi : fi <> -1.
Hypothesis Hmv : Forall int16_mv mvs.

Let cur := build_cur cfg fi pts pt mvs.

Lemma cur_key : key cur = (fi, pts).
Proof.
  destruct (build_cur_fields cfg fi pts pt mvs) as (_ & _ & Hp & Hi & _).
  unfold key, cur. now rewrite Hp, Hi.
Qed.

Lemma keys_snoc ks :
  ks = map call_key cs ++ [(fi, pts)] ->
  ks = map call_key (cs ++ [mkCall fi pts pt mvs]).
Proof. intros ->. now rewrite map_app. Qed.

(** No vectors: the grid is appended to the buffer and waits. *)
Lemma run_inv_no_vectors :
  mvs = [] ->
  run_inv cfg (cs ++ [mkCall fi pts pt mvs])
    {| prev := prev s ++ [cur]; printer := printer s |}.
Proof.
  intros Emvs. destruct Hinv as [Hform Hgrids Hkeys Hprinter Hemitted Hdone].
  destruct (build_cur_fields cfg fi pts pt mvs)
    as (_ & _ & _ & _ & _ & _ & Hunp & Hempty).
  fold cur in Hunp, Hempty. rewrite Emvs in Hempty. simpl in Hempty.
  assert (Hpend : pending cur) by (split; assumption).
  constructor; simpl.
  - destruct (prev s) as [|front rest]; simpl.
    + split; [now left|constructor].
    + destruct Hform as [Hfront Hrest]. split; [exact Hfront|].
      apply Forall_app. split; [exact Hrest|]. now repeat constructor.
  - apply Forall_app. split; [exact Hgrids|].
    constructor; [now apply build_cur_ok|constructor].
  - apply keys_snoc. rewrite <- Hkeys. unfold emitted_grids. simpl.
    rewrite unprinted_app, map_app, app_assoc. simpl.
    rewrite Hunp. simpl. now rewrite cur_key.
  - exact Hprinter.
  - exact Hemitted.
  - apply Forall_app. split; [exact Hdone|].
    constructor; [congruence|constructor].
Qed.

Lemma cur_done : mvs <> [] -> done (set_Printed cur true).
Proof.
  intros Hne. split; simpl; [|reflexivity].
  destruct (build_cur_fields cfg fi pts pt mvs)
    as (_ & _ & _ & _ & _ & _ & _ & Hempty).
  fold cur in Hempty. rewrite Hempty. now destruct mvs.
Qed.

(** Vectors, and the buffer is not an interpolation window: what waits in
    the buffer is printed in order, then [cur]. *)
Lemma run_inv_print_all :
  mvs <> [] ->
  run_inv cfg (cs ++ [mkCall fi pts pt mvs])
    {| prev := [set_Printed cur true];
       printer := emit (fold_left emit (unprinted (prev s)) (printer s)) cur |}.
Proof.
  intros Hne. destruct Hinv as [Hform Hgrids Hkeys Hprinter Hemitted Hdone].
  pose proof (build_cur_ok cfg fi pts pt mvs Hmv) as Hok. fold cur in Hok.
  constructor; unfold emitted_grids in *; simpl.
  - split; [right; now apply cur_done|constructor].
  - constructor; [exact Hok|constructor].
  - apply keys_snoc. rewrite <- Hkeys.
    rewrite app_nil_r, map_app, emitted_fold_emit, map_app. simpl.
    now rewrite cur_key, map_app.
  - rewrite map_app, emitted_fold_emit. simpl.
    rewrite !fold_left_app. simpl. now rewrite <- Hprinter.
  - rewrite map_app, emitted_fold_emit. simpl.
    apply Forall_app. split.
    + apply Forall_app. split; [exact Hemitted|].
      apply Forall_forall. intros g Hg _. apply unprinted_incl in Hg.
      rewrite Forall_forall in Hgrids. apply (Hgrids g Hg).
    + constructor; [intros _; apply Hok|constructor].
  - constructor; [|constructor]. intros _.
    rewrite map_app, emitted_fold_emit, !map_app. simpl.
    apply in_or_app. right. now left.
Qed.

(** Vectors, and the buffer is [front; back] with a non-empty [front]:
    [back] is interpolated and printed, then [cur]. *)
Lemma run_inv_interpolate front back :
  mvs <> [] -> prev s = [front; back] -> Empty front = false ->
  Printed front = true /\ Printed back = false /\
  run_inv cfg (cs ++ [mkCall fi pts pt mvs])
    {| prev := [set_Printed cur true];
       printer :=
         emit (emit (printer s) (InterpolateFlow back front cur)) cur |}.
Proof.
  intros Hne Hprev Hfront.
  destruct Hinv as [Hform Hgrids Hkeys Hprinter Hemitted Hdone].
  pose proof (build_cur_ok cfg fi pts pt mvs Hmv) as Hok. fold cur in Hok.
  rewrite Hprev in Hform, Hkeys. destruct Hform as [Hf Hrest].
  assert (Hpf : Printed front = true).
  { destruct Hf as [[Hc _]|[_ Hp]]; [congruence|exact Hp]. }
  assert (Hpb : Printed back = false).
  { inversion Hrest as [|? ? [_ Hp] _]. exact Hp. }
  split; [exact Hpf|]. split; [exact Hpb|].
  destruct (InterpolateFlow_fields back front cur)
    as (_ & _ & Horig & _ & _ & Hp' & Hi' & _).
  simpl in Hkeys. rewrite Hpf, Hpb in Hkeys. simpl in Hkeys.
  constructor; unfold emitted_grids in *; simpl.
  - split; [right; now apply cur_done|constructor].
  - constructor; [exact Hok|constructor].
  - apply keys_snoc. rewrite <- Hkeys.
    rewrite app_nil_r, !map_app. simpl. rewrite cur_key.
    unfold key at 2. rewrite Hp', Hi'. fold (key back).
    now rewrite <- app_assoc.
  - rewrite !map_app. simpl. rewrite !fold_left_app. simpl.
    now rewrite <- Hprinter.
  - rewrite !map_app. simpl. rewrite <- app_assoc.
    apply Forall_app. split; [exact Hemitted|].
    constructor; [intros Hv; rewrite Horig in Hv; discriminate|].
    constructor; [intros _; apply Hok|constructor].
  - constructor; [|constructor]. intros _.
    rewrite !map_app. simpl. apply in_or_app. right. now left.
Qed.

(** Every call for a decoded frame keeps the invariant. *)
Lemma run_inv_call :
  run_inv cfg (cs ++ [mkCall fi pts pt mvs])
    (output_vectors_std cfg fi pts pt mvs s).
Proof.
  assert (Hcase : mvs = [] \/ mvs <> []).
  { clear. destruct mvs; [now left|right; discriminate]. }
  destruct Hcase as [Emvs|Hne].
  - pose proof (run_inv_no_vectors Emvs) as H. revert H.
    unfold cur. rewrite Emvs. rewrite path_no_vectors by exact Hfi. tauto.
  - 
    destruct (prev s) as [|front [|back [|third rest]]] eqn:Eprev.
    1, 2, 4:
      rewrite (path_print_all cfg fi pts pt Hfi mvs s Hne)
        by (rewrite Eprev; discriminate);
      now apply run_inv_print_all.
    destruct (Empty front) eqn:Efront.
    + rewrite (path_print_all cfg fi pts pt Hfi mvs s Hne).
      * now apply run_inv_print_all.
      * rewrite Eprev. intros f b E. inversion E; subst. exact Efront.
    + destruct (run_inv_interpolate front back Hne Eprev Efront)
        as (_ & Hpb & Hrun).
      rewrite (path_interpolate cfg fi pts pt Hfi mvs s front back
                 Hne Eprev Efront Hpb).
      exact Hrun.
Qed.

End Step.

Lemma run_inv_step cfg cs s c :
  run_inv cfg cs s -> real_call c -> run_inv cfg (cs ++ [c]) (deliver cfg s c).
Proof.
  intros Hinv [Hfi Hmv]. destruct c as [fi pts pt mvs].
  now apply run_inv_call.
Qed.

Lemma deliver_all_snoc cfg cs c s :
  deliver_all cfg (cs ++ [c]) s = deliver cfg (deliver_all cfg cs s) c.
Proof. unfold deliver_all. now rewrite fold_left_app. Qed.

Lemma run_inv_deliver_all cfg cs :
  Forall real_call cs -> run_inv cfg cs (deliver_all cfg cs pipeline_init).
Proof.
  induction cs as [|c cs IH] using rev_ind; intros Hreal.
  - apply run_inv_init.
  - apply Forall_app in Hreal. destruct Hreal as [Hcs Hc].
    inversion Hc; subst. rewrite deliver_all_snoc.
    apply run_inv_step; [now apply IH|assumption].
Qed.

Lemma reachable_deliver_all cfg cs :
  Forall real_call cs -> reachable cfg (deliver_all cfg cs pipeline_init).
Proof.
  induction cs as [|c cs IH] using rev_ind; intros Hreal.
  - constructor.
  - apply Forall_app in Hreal. destruct Hreal as [Hcs Hc].
    inversion Hc; subst. rewrite deliver_all_snoc.
    constructor; [now apply IH|assumption].
Qed.

Lemma reachable_run_inv cfg s :
  reachable cfg s ->
  exists cs, Forall real_call cs /\ s = deliver_all cfg cs pipeline_init /\
             run_inv cfg cs s.
Proof.
  induction 1 as [|s c _ (cs & Hreal & -> & Hinv) Hc].
  - exists []. split; [constructor|]. split; [reflexivity|apply run_inv_init].
  - exists (cs ++ [c]). split; [apply Forall_app; split; auto|].
    split; [now rewrite deliver_all_snoc|]. now apply run_inv_step.
Qed.

(** ** The pass of the source against the pass of the specification *)

Lemma fill_cell_spec i j f :
  bounded f -> fill_cell i j f = spec_fill_cell f (i, j).
Proof.
  intros Hb. unfold fill_cell, spec_fill_cell, mean.
  destruct (occupancy f i j =? 0); simpl; [|reflexivity].
  rewrite !avg_exact by apply Hb. reflexivity.
Qed.

Lemma fold_visit_spec l : forall f,
  bounded f ->
  fold_left visit l f = fold_left spec_fill_cell l f /\
  bounded (fold_left visit l f) /\ same_meta f (fold_left visit l f).
Proof.
  induction l as [|[i j] l IH]; intros f Hb.
  - split; [reflexivity|]. split; [exact Hb|apply same_meta_refl].
  - assert (Ev : visit f (i, j) = spec_fill_cell f (i, j))
      by (apply fill_cell_spec; exact Hb).
    destruct (IH (visit f (i, j))) as (E & Hb' & Hm).
    + now apply fill_cell_bounded.
    + change (fold_left visit ((i, j) :: l) f)
        with (fold_left visit l (visit f (i, j))).
      change (fold_left spec_fill_cell ((i, j) :: l) f)
        with (fold_left spec_fill_cell l (spec_fill_cell f (i, j))).
      rewrite <- Ev.
      split; [exact E|]. split; [exact Hb'|].
      eapply same_meta_trans; [apply (fill_cell_meta i j f)|exact Hm].
Qed.

Theorem Fill_refines_spec f :
  bounded f ->
  1 <= fst (Shape f) <= MAX_GRID_SIZE ->
  1 <= snd (Shape f) <= MAX_GRID_SIZE ->
  FillInSomeMissingVectorsInGrid8 f = spec_fill f.
Proof.
  intros Hb Hr Hc. rewrite Fill_two_sweeps. unfold spec_fill, spec_sweep.
  rewrite (fill_sweep_interior f Hr Hc).
  destruct (fold_visit_spec (interior_cells (fst (Shape f)) (snd (Shape f))) f Hb)
    as (E1 & Hb1 & (_ & Hs & _)).
  rewrite fill_sweep_interior by (rewrite Hs; assumption).
  rewrite Hs.
  destruct (fold_visit_spec (interior_cells (fst (Shape f)) (snd (Shape f)))
              _ Hb1) as (E2 & _).
  rewrite E2, E1, <- E1, Hs. reflexivity.
Qed.

Lemma shape_le_max cfg :
  fst (shape cfg) <= MAX_GRID_SIZE /\ snd (shape cfg) <= MAX_GRID_SIZE.
Proof. unfold shape. simpl. lia. Qed.

Lemma gridStep_8 cfg : (gridStep cfg =? 8) = ARG_FORCE_GRID_8 cfg.
Proof. unfold gridStep. now destruct (ARG_FORCE_GRID_8 cfg). Qed.

Lemma set_Printed_same f : set_Printed f (Printed f) = f.
Proof. now destruct f. Qed.

(** ** The clamp of the binning loop *)

(** For a destination inside the first quadrant the clamp is the one the
    specification writes. *)
Lemma clipped_nonneg d step n :
  0 <= d <= 32767 -> 0 < step -> 1 <= n <= MAX_GRID_SIZE ->
  clipped d step n = Z.max 0 (Z.min (d / step) (n - 1)).
Proof.
  unfold MAX_GRID_SIZE. intros Hd Hs Hn. unfold clipped.
  rewrite (to_size_t_small 0), (to_size_t_small d), (to_size_t_small (n - 1));
    change (2 ^ 64) with 18446744073709551616; try lia.
Qed.

(** A negative destination becomes a huge [size_t] and is clamped to the
    last row or column. *)
Lemma clipped_negative d step n :
  -32768 <= d < 0 -> step = 8 \/ step = 16 -> 1 <= n <= MAX_GRID_SIZE ->
  clipped d step n = n - 1.
Proof.
  unfold MAX_GRID_SIZE. intros Hd Hs Hn. unfold clipped.
  rewrite (to_size_t_small 0), (to_size_t_neg d), (to_size_t_small (n - 1));
    change (2 ^ 64) with 18446744073709551616; try lia.
  assert (1000 <= (d + 18446744073709551616) / step).
  { destruct Hs; subst; apply Z.div_le_lower_bound; lia. }
  lia.
Qed.

(** ** The indices stay inside the arrays

    With at least one row and one column, the cell a vector is binned into
    lies inside the grid whatever its coordinates are, and the cells a sweep
    of the neighbour fill reads and writes lie inside the grid too; the grid
    has at most 512 rows and columns, so all of them are array elements. *)

Lemma clipped_in_grid d step n :
  0 < step -> 1 <= n <= MAX_GRID_SIZE -> 0 <= clipped d step n <= n - 1.
Proof.
  unfold MAX_GRID_SIZE. intros Hs Hn. unfold clipped.
  assert (Hq : 0 <= to_size_t d / step).
  { apply Z.div_pos; [|exact Hs]. unfold to_size_t.
    apply Z.mod_pos_bound. lia. }
  rewrite (to_size_t_small 0), (to_size_t_small (n - 1))
    by (change (2 ^ 64) with 18446744073709551616; lia).
  lia.
Qed.

Lemma cell_of_in_arrays cfg fi pts pt mv :
  1 <= fst (shape cfg) -> 1 <= snd (shape cfg) ->
  let c := cell_of (fresh_cur cfg fi pts pt) mv in
  0 <= fst c < fst (shape cfg) /\ 0 <= snd c < snd (shape cfg) /\
  in_arrays (fst c) (snd c).
Proof.
  intros Hr Hc c. destruct (shape_le_max cfg) as [Hr' Hc'].
  assert (Hs : 0 < gridStep cfg)
    by (unfold gridStep; destruct (ARG_FORCE_GRID_8 cfg); lia).
  pose proof (clipped_in_grid (dst_y mv) (gridStep cfg) (fst (shape cfg)) Hs
                (conj Hr Hr')) as Hi.
  pose proof (clipped_in_grid (dst_x mv) (gridStep cfg) (snd (shape cfg)) Hs
                (conj Hc Hc')) as Hj.
  unfold c, cell_of, in_arrays. cbn [fst snd fresh_cur GridStep Shape].
  lia.
Qed.

Lemma fill_sweep_in_arrays f i j :
  1 <= fst (Shape f) <= MAX_GRID_SIZE ->
  1 <= snd (Shape f) <= MAX_GRID_SIZE ->
  1 <= i < to_size_t (fst (Shape f) - 1) ->
  1 <= j < to_size_t (snd (Shape f) - 1) ->
  in_arrays i j /\ in_arrays i (j - 1) /\ in_arrays i (j + 1) /\
  in_arrays (i - 1) j /\ in_arrays (i + 1) j.
Proof.
  intros Hr Hc. rewrite (fill_bound _ Hr), (fill_bound _ Hc).
  unfold in_arrays. lia.
Qed.

(** ** The length of the buffer *)

Lemma prev_length_deliver cfg s c :
  c_index c <> -1 ->
  length (prev (deliver cfg s c))
  = if is_empty (c_vectors c) then S (length (prev s)) else 1%nat.
Proof.
  intros Hfi. destruct c as [fi pts pt mvs]. unfold deliver. simpl in *.
  unfold output_vectors_std.
  destruct (Z.eqb_spec fi (-1)) as [|_]; [contradiction|].
  destruct mvs as [|mv mvs]; simpl.
  - rewrite length_app. simpl. lia.
  - destruct (PrintIfNotPrinted _ _). reflexivity.
Qed.

Lemma trailing_empty_snoc cs c :
  trailing_empty (cs ++ [c])
  = if is_empty (c_vectors c) then S (trailing_empty cs) else 0%nat.
Proof. unfold trailing_empty. now rewrite fold_left_app. Qed.

(** ** The header timestamps *)

Lemma header_pts_fold_emit gs : forall p,
  map header_pts (emitted (fold_left emit gs p))
  = map header_pts (emitted p) ++ headers (FirstPts p) (map Pts gs).
Proof.
  induction gs as [|g gs IH]; intros p; simpl.
  - now rewrite app_nil_r.
  - rewrite IH. simpl. rewrite map_app. simpl.
    now rewrite <- app_assoc.
Qed.

Lemma baseline_fold_emit gs : forall p,
  FirstPts p <> -1 ->
  FirstPts (fold_left emit gs p) = FirstPts p /\
  exists es, emitted (fold_left emit gs p) = emitted p ++ es /\
             Forall (fun e => em_first_pts e = FirstPts p) es.
Proof.
  induction gs as [|g gs IH]; intros p Hp; simpl.
  - split; [reflexivity|]. exists []. now rewrite app_nil_r.
  - assert (E : FirstPts (emit p g) = FirstPts p).
    { simpl. destruct (Z.eqb_spec (FirstPts p) (-1)); [contradiction|reflexivity]. }
    destruct (IH (emit p g)) as (H1 & es & H2 & H3); [now rewrite E|].
    rewrite E in *. split; [exact H1|].
    eexists (_ :: es). rewrite H2. simpl. rewrite <- app_assoc. simpl.
    split; [reflexivity|]. constructor; [|exact H3]. simpl.
    destruct (Z.eqb_spec (FirstPts p) (-1)); [contradiction|reflexivity].
Qed.

Lemma headers_set first ps :
  first <> -1 -> pts_in_range first -> Forall pts_in_range ps ->
  headers first ps = map (fun p => p - first) ps.
Proof.
  unfold pts_in_range. intros Hf Hr Hps.
  induction Hps as [|p ps Hp _ IH]; simpl; [reflexivity|].
  destruct (Z.eqb_spec first (-1)); [contradiction|].
  rewrite IH, wrap64_small; [reflexivity|].
  change (2 ^ 63) with (2 * 2 ^ 62). lia.
Qed.

Lemma shift_sorted a l :
  StronglySorted Z.lt l -> StronglySorted Z.le (map (fun p => p - a) l).
Proof.
  induction 1 as [|p l _ IH Hall]; simpl; constructor; [exact IH|].
  rewrite Forall_map. eapply Forall_impl; [|exact Hall].
  simpl. intros. lia.
Qed.

Lemma wrap64_0 : wrap64 0 = 0.
Proof. reflexivity. Qed.

(** The headers of a strictly increasing run of timestamps. *)
Lemma headers_increasing ps :
  Sorted Z.lt ps -> Forall pts_in_range ps ->
  StronglySorted Z.le (headers (-1) ps) /\
  (ps <> [] -> hd_error (headers (-1) ps) = Some 0) /\
  (forall p0 rest, ps = p0 :: rest -> p0 <> -1 ->
     headers (-1) ps = map (fun p => p - p0) ps).
Proof.
  intros Hs Hr.
  apply Sorted_StronglySorted in Hs; [|exact Z.lt_trans].
  destruct ps as [|p0 ps];
    [simpl; split; [constructor|split; [congruence|discriminate]]|].
  simpl. rewrite Z.sub_diag, wrap64_0.
  inversion Hs as [|? ? Hs' Hgt]; subst.
  inversion Hr as [|? ? Hr0 Hr']; subst.
  assert (Hset : p0 <> -1 -> headers p0 ps = map (fun p => p - p0) ps)
    by (intros; now apply headers_set).
  split; [|split; [reflexivity|]].
  - destruct (Z.eq_dec p0 (-1)) as [->|Hne].
    + destruct ps as [|q ps]; [repeat constructor|].
      simpl. rewrite Z.sub_diag, wrap64_0.
      inversion Hs' as [|? ? Hs'' Hgt']; subst.
      inversion Hr' as [|? ? Hrq Hr'']; subst.
      inversion Hgt as [|? ? Hq _]; subst.
      rewrite headers_set by (try assumption; lia).
      assert (Hall : Forall (fun x => 0 <= x) (map (fun p => p - q) ps)).
      { rewrite Forall_map. eapply Forall_impl; [|exact Hgt']. simpl.
        intros. lia. }
      constructor; [constructor; [now apply shift_sorted|exact Hall]|].
      constructor; [lia|exact Hall].
    + rewrite (Hset Hne). constructor; [now apply shift_sorted|].
      rewrite Forall_map. eapply Forall_impl; [|exact Hgt]. simpl.
      intros. lia.
  - intros p rest E Hne. inversion E; subst. rewrite (Hset Hne).
    now rewrite Z.sub_diag.
Qed.

(** After the end-of-stream call every grid of the run has been printed,
    in the order of the calls. *)
Lemma flush_prints_run cfg cs pts pt mvs :
  Forall real_call cs ->
  let s := flush cfg pts pt mvs (deliver_all cfg cs pipeline_init) in
  exists gs,
    printer s = fold_left emit gs {| FirstPts := -1; emitted := [] |} /\
    emitted_grids s = gs /\ map key gs = map call_key cs /\
    Forall (fun f => Origin f = "video"%string -> occ_zero f) gs.
Proof.
  intros Hreal s.
  destruct (run_inv_deliver_all cfg cs Hreal)
    as [_ Hgrids Hkeys Hprinter Hemitted Hdone].
  set (s0 := deliver_all cfg cs pipeline_init) in *.
  exists (emitted_grids s0 ++ unprinted (prev s0)).
  assert (Hp : printer s = fold_left emit (emitted_grids s0 ++ unprinted (prev s0))
                             {| FirstPts := -1; emitted := [] |}).
  { unfold s. rewrite path_flush, fold_left_app, <- Hprinter. reflexivity. }
  split; [exact Hp|]. split; [|split].
  - unfold emitted_grids at 1. rewrite Hp, emitted_fold_emit. reflexivity.
  - now rewrite map_app.
  - apply Forall_app. split; [exact Hemitted|].
    apply Forall_forall. intros g Hg _. apply unprinted_incl in Hg.
    rewrite Forall_forall in Hgrids. apply (Hgrids g Hg).
Qed.

Lemma stdout_std_pts cfg s :
  map b_pts (stdout_std cfg s) = map header_pts (emitted (printer s)).
Proof. unfold stdout_std. rewrite map_map. reflexivity. Qed.

Lemma keys_pts gs cs :
  map key gs = map call_key cs -> map Pts gs = map c_pts cs.
Proof.
  intros H. apply (f_equal (map snd)) in H. rewrite !map_map in H. exact H.
Qed.

Lemma keys_index gs cs :
  map key gs = map call_key cs -> map FrameIndex gs = map c_index cs.
Proof.
  intros H. apply (f_equal (map fst)) in H. rewrite !map_map in H. exact H.
Qed.

(** ** The vector-carrying path, from any state *)

Lemma print_each_extends fs : forall p,
  exists es, emitted (snd (print_each fs p)) = emitted p ++ es.
Proof.
  intros p. rewrite print_each_emits.
  destruct (emitted_prefix_fold_emit (unprinted fs) p) as (es & E & _).
  now exists es.
Qed.

Lemma Print_extends f p :
  exists es, emitted (snd (PrintIfNotPrinted f p)) = emitted p ++ es.
Proof.
  unfold PrintIfNotPrinted. destruct (Printed f); simpl.
  - exists []. now rewrite app_nil_r.
  - eexists. reflexivity.
Qed.

Lemma path_vectors cfg fi pts pt mvs s :
  fi <> -1 -> mvs <> [] ->
  let cur := build_cur cfg fi pts pt mvs in
  exists p1 es,
    emitted p1 = emitted (printer s) ++ es /\
    output_vectors_std cfg fi pts pt mvs s
    = {| prev := [set_Printed cur true]; printer := emit p1 cur |}.
Proof.
  intros Hfi Hne cur. unfold output_vectors_std. fold cur.
  destruct (Z.eqb_spec fi (-1)) as [|_]; [contradiction|].
  destruct mvs as [|mv mvs']; [contradiction|]. simpl negb. cbv iota.
  match goal with
  | |- context [PrintIfNotPrinted cur ?p] => set (p1 := p)
  end.
  assert (Hext : exists es, emitted p1 = emitted (printer s) ++ es).
  { unfold p1.
    destruct (prev s) as [|front [|back [|third rest]]];
      try apply print_each_extends.
    destruct (negb (Empty front));
      [apply Print_extends|apply print_each_extends]. }
  destruct Hext as (es & Hes). exists p1, es. split; [exact Hes|].
  rewrite (Print_unprinted cur); [reflexivity|apply build_cur_fields].
Qed.

Lemma Fill_keeps_occupied f i j :
  occupancy f i j <> 0 ->
  occupancy (FillInSomeMissingVectorsInGrid8 f) i j = occupancy f i j.
Proof.
  intros Hocc.
  apply (Fill_inv (fun x => occupancy x i j = occupancy f i j));
    [reflexivity|].
  intros i' j' x _ _ Hx.
  destruct (fill_cell_frame i' j' x i j) as (_ & _ & E); [right; congruence|].
  now rewrite E.
Qed.

(** ** The frame callback *)

Lemma wrap32_add_l a b : wrap32 (wrap32 a + b) = wrap32 (a + b).
Proof.
  unfold wrap32, wrap.
  change (2 ^ (32 - 1)) with 2147483648. change (2 ^ 32) with 4294967296.
  f_equal.
  replace ((a + 2147483648) mod 4294967296 - 2147483648 + b + 2147483648)
    with ((a + 2147483648) mod 4294967296 + b) by lia.
  replace (a + b + 2147483648) with (a + 2147483648 + b) by lia.
  rewrite Z.add_mod_idemp_l by lia. reflexivity.
Qed.

Lemma frameCallback_index cfg m fr :
  frameIndex (frameCallback cfg m fr) = wrap32 (frameIndex m + 1).
Proof.
  unfold frameCallback.
  destruct ((f_pts fr <=? prev_pts m) && negb (prev_pts m =? -1));
    [reflexivity|].
  destruct (ARG_OUTPUT_RAW_MOTION_VECTORS cfg); reflexivity.
Qed.



(** In arranged mode the pipeline sees exactly the forwarded frames. *)
Lemma pipeline_run cfg fs :
  ARG_OUTPUT_RAW_MOTION_VECTORS cfg = false ->
  forall m,
    pipeline (for_each_frame cfg fs m)
    = deliver_all cfg (forwarded fs (frameIndex m) (prev_pts m)) (pipeline m).
Proof.
  intros Hraw. induction fs as [|fr fs IH]; intros m; [reflexivity|].
  unfold for_each_frame in *. simpl fold_left. rewrite IH.
  rewrite frameCallback_index. simpl forwarded.
  unfold frameCallback. rewrite Hraw.
  destruct ((f_pts fr <=? prev_pts m) && negb (prev_pts m =? -1));
    reflexivity.
Qed.

Lemma forwarded_real fs : forall index last_pts,
  Forall (fun fr => Forall int16_mv (f_vectors fr)) fs ->
  0 <= index -> index + Z.of_nat (length fs) < 2 ^ 31 ->
  Forall real_call (forwarded fs index last_pts).
Proof.
  change (2 ^ 31) with 2147483648.
  induction fs as [|fr fs IH]; intros index last_pts Hmv Hi Hlen;
    [constructor|].
  inversion Hmv as [|? ? Hfr Hrest]; subst.
  simpl length in Hlen. simpl forwarded.
  assert (E : wrap32 (index + 1) = index + 1)
    by (apply wrap32_small; unfold in_int32; lia).
  rewrite E.
  destruct ((f_pts fr <=? last_pts) && negb (last_pts =? -1)).
  - apply IH; [exact Hrest|lia|lia].
  - constructor.
    + split; simpl; [lia|exact Hfr].
    + apply IH; [exact Hrest|lia|lia].
Qed.


(** A clean end of stream in arranged mode is a run of the pipeline over
    the forwarded frames, closed by the end-of-stream call. *)
Lemma main_is_a_run cfg frames pts0 pict0 :
  ARG_OUTPUT_RAW_MOTION_VECTORS cfg = false -> stream_ok frames ->
  exists cs pts pt mvs,
    cs = forwarded frames 0 (-1) /\ Forall real_call cs /\
    pipeline (final (main cfg pts0 pict0 frames AVERROR_EOF))
    = flush cfg pts pt mvs (deliver_all cfg cs pipeline_init).
Proof.
  intros Hraw [Hmv Hlen].
  set (m := for_each_frame cfg frames (main_init pts0 pict0)).
  exists (forwarded frames 0 (-1)), (pts m), (pictType m), (motionVectors m).
  split; [reflexivity|]. split.
  - apply forwarded_real; simpl; [exact Hmv|lia|lia].
  - unfold main. fold m. rewrite Hraw. simpl.
    unfold m. rewrite pipeline_run by exact Hraw. reflexivity.
Qed.

(** On a clean end of stream in arranged mode the output has one block per
    forwarded frame, in order. *)
Lemma main_one_block_per_forwarded_frame cfg frames pts0 pict0 :
  ARG_OUTPUT_RAW_MOTION_VECTORS cfg = false -> stream_ok frames ->
  map b_frame_index
      (stdout_std cfg (pipeline (final (main cfg pts0 pict0 frames AVERROR_EOF))))
  = map c_index (forwarded frames 0 (-1)).
Proof.
  intros Hraw Hok.
  destruct (main_is_a_run cfg frames pts0 pict0 Hraw Hok)
    as (cs & p & t & mvs & -> & Hreal & ->).
  destruct (flush_prints_run cfg _ p t mvs Hreal) as (gs & _ & Hgrids & Hkeys & _).
  rewrite <- (keys_index _ _ Hkeys), <- Hgrids.
  unfold stdout_std, emitted_grids. rewrite !map_map. reflexivity.
Qed.

(** ** The end-to-end scenarios of the specification *)

(** Three frames with timestamps 10, 11, 12, the middle one without
    vectors: three blocks, the middle one interpolated. *)
Example scenario_interpolated_middle :
  let out := stdout_std Examples.cfg16 (pipeline (final
    (main Examples.cfg16 0 "?"
       [Examples.frame 10 [Examples.mv_a]; Examples.frame 11 [];
        Examples.frame 12 [Examples.mv_a]] AVERROR_EOF))) in
  map b_origin out = ["video"; "interpolated"; "video"]%string /\
  map b_pts out = [0; 1; 2] /\
  map b_shape out = [(12, 4); (12, 4); (12, 4)] /\
  map b_dx out
  = repeat [[0; 0; 0; 0]; [0; 4; 0; 0]; [0; 0; 0; 0]; [0; 0; 0; 0]] 3.
Proof. vm_compute. repeat split; reflexivity. Qed.

(** Two frames with timestamp 7: one block and one warning. *)
Example scenario_duplicate_pts :
  let e := main Examples.cfg16 0 "?"
             [Examples.frame 7 [Examples.mv_a];
              Examples.frame 7 [Examples.mv_a]] AVERROR_EOF in
  map b_frame_index (stdout_std Examples.cfg16 (pipeline (final e))) = [1] /\
  stderr (final e) = [Skipping 2 7].
Proof. vm_compute. split; reflexivity. Qed.

(** Vectors in the four corners of a 3x3 fine grid: nothing is filled. *)
Example scenario_corner_vectors :
  let cfg := {| ARG_OUTPUT_RAW_MOTION_VECTORS := false;
                ARG_FORCE_GRID_8 := true; ARG_OUTPUT_OCCUPANCY := true;
                ARG_QUIET := false; width := 24; height := 24 |} in
  let corners :=
    [ {| src_x := 0; src_y := 0; dst_x := 1; dst_y := 2 |};
      {| src_x := 0; src_y := 0; dst_x := 17; dst_y := 2 |};
      {| src_x := 0; src_y := 0; dst_x := 1; dst_y := 18 |};
      {| src_x := 0; src_y := 0; dst_x := 17; dst_y := 18 |} ] in
  map b_occupancy (stdout_std cfg (pipeline (final
    (main cfg 0 "?" [Examples.frame 0 corners] AVERROR_EOF))))
  = [Some [[1; 0; 1]; [0; 0; 0]; [1; 0; 1]]].
Proof. vm_compute. reflexivity. Qed.

(** A stream that ends with a frame without vectors: the end-of-stream call
    prints it, all zeros, origin "video". *)
Example scenario_trailing_empty_frame :
  let out := stdout_std Examples.cfg16 (pipeline (final
    (main Examples.cfg16 0 "?"
       [Examples.frame 10 [Examples.mv_a]; Examples.frame 11 []]
       AVERROR_EOF))) in
  map b_frame_index out = [1; 2] /\
  map b_origin out = ["video"; "video"]%string /\
  map b_dx (tl out) = [repeat [0; 0; 0; 0] 4].
Proof. vm_compute. repeat split; reflexivity. Qed.

(** Raw mode: four vectors, two of them with zero displacement. *)
Example scenario_raw_suppresses_zeros :
  let b := output_vectors_raw 1 0 "P"
             [Examples.mv_a; Examples.mv_still; Examples.mv_above;
              Examples.mv_still] in
  r_count b = 4 /\ r_rows b = [(17, 16, 4, -2); (16, -1, 3, -2)].
Proof. vm_compute. split; reflexivity. Qed.

(* ================================================================== *)
(** * The claims of the specification *)

(** ** Temporal interpolation *)

(** C1. On a stream at least one grid step high and wide, a decoded frame
    with vectors arrives while the buffer is
    [front; back] and [front] is non-empty.  Then [back] becomes
    [InterpolateFlow back front cur]: at every cell of the grid shape its
    [dx] and [dy] are the truncating mean of the cells of [front] and of the
    current frame, its occupancy array is that of [back], [Empty] is false
    and [Origin] is "interpolated"; it is printed, and the current frame is
    printed right after it. *)
Theorem C1_interpolation_is_mean cfg s fi pts pt mvs front back :
  1 <= fst (shape cfg) -> 1 <= snd (shape cfg) ->
  reachable cfg s ->
  real_call (mkCall fi pts pt mvs) ->
  mvs <> [] ->
  prev s = [front; back] ->
  Empty front = false ->
  let cur := build_cur cfg fi pts pt mvs in
  let middle := InterpolateFlow back front cur in
  (forall i j, 0 <= i < fst (shape cfg) -> 0 <= j < snd (shape cfg) ->
     dx middle i j = Z.quot (dx front i j + dx cur i j) 2 /\
     dy middle i j = Z.quot (dy front i j + dy cur i j) 2) /\
  occupancy middle = occupancy back /\
  Empty middle = false /\
  Origin middle = "interpolated"%string /\
  key middle = key back /\
  emitted_grids (output_vectors_std cfg fi pts pt mvs s)
  = emitted_grids s ++ [middle; cur].
Proof.
  intros Hrows Hcols Hreach [Hfi Hmv] Hne Hprev Hfront cur middle.
  simpl in Hfi, Hmv.
  destruct (reachable_run_inv cfg s Hreach) as (cs & _ & _ & Hinv).
  destruct (run_inv_interpolate cfg cs s fi pts pt mvs Hinv Hmv front back
              Hne Hprev Hfront) as (_ & Hpb & _).
  pose proof (inv_grids _ _ _ Hinv) as Hgrids. rewrite Hprev in Hgrids.
  inversion Hgrids as [|? ? (_ & _ & Hbf & _) Hrest]; subst.
  inversion Hrest as [|? ? (_ & Hshape & _) _]; subst.
  pose proof (build_cur_bounded cfg fi pts pt mvs Hmv) as Hbc. fold cur in Hbc.
  destruct (InterpolateFlow_fields back front cur)
    as (Hocc & Hempty & Horig & _ & _ & Hp & Hi & _).
  fold middle in Hocc, Hempty, Horig, Hp, Hi.
  split; [|split; [exact Hocc|split; [exact Hempty|split; [exact Horig|split]]]].
  - intros i j Hi' Hj'. rewrite <- Hshape in Hi', Hj'.
    destruct (InterpolateFlow_cell back front cur i j Hi' Hj') as [Ex Ey].
    fold middle in Ex, Ey. rewrite Ex, Ey.
    rewrite !avg_exact by first [apply Hbf | apply Hbc]. tauto.
  - unfold key. now rewrite Hp, Hi.
  - rewrite (path_interpolate cfg fi pts pt Hfi mvs s front back
               Hne Hprev Hfront Hpb).
    unfold emitted_grids. simpl. rewrite !map_app. simpl.
    now rewrite <- app_assoc.
Qed.

Lemma C1_interpolation_witness :
  let cur := build_cur Examples.cfg16 3 12 "P" [Examples.mv_a] in
  let middle :=
    InterpolateFlow Examples.window_back Examples.window_front cur in
  dx middle 1 1 = 4 /\ dy middle 1 1 = -2 /\
  occupancy middle 1 1 = 0 /\ Origin middle = "interpolated"%string.
Proof.
  destruct (C1_interpolation_is_mean Examples.cfg16 Examples.window
              3 12 "P" [Examples.mv_a]
              Examples.window_front Examples.window_back)
    as (Hcell & Hocc & _ & Horig & _).
  - vm_compute. discriminate.
  - vm_compute. discriminate.
  - apply (reachable_deliver_all Examples.cfg16
             [Examples.call 1 10 [Examples.mv_a]; Examples.call 2 11 []]).
    repeat constructor; simpl; unfold in_int16; try lia; discriminate.
  - repeat constructor; simpl; unfold in_int16; try lia; discriminate.
  - discriminate.
  - reflexivity.
  - reflexivity.
  - destruct (Hcell 1 1) as [Ex Ey]; [vm_compute; split; congruence ..|].
    split; [rewrite Ex; reflexivity|].
    split; [rewrite Ey; reflexivity|].
    split; [rewrite Hocc; reflexivity|exact Horig].
Defined.

(** ** The neighbour fill *)

(** The neighbour fill on a stream at least one grid step high and wide.
    For the grid [cur] built from a decoded frame: on the 16-pixel grid
    [cur] is the binned grid and carries no tag 2; on the 8-pixel grid it is
    the binned grid after the pass of the specification (two sweeps over the
    interior cells, horizontal mean before vertical mean); this [cur] is the
    grid that the call then buffers.  The pass leaves occupied cells and edge
    cells as binning left them; a cell visit with both horizontal
    neighbours occupied takes their mean whatever is above and below; and a
    cell filled by the first sweep is a donor in the second. *)
Theorem neighbor_fill_pass cfg fi pts pt mvs :
  Forall int16_mv mvs ->
  1 <= fst (shape cfg) -> 1 <= snd (shape cfg) ->
  let binned := bin_vectors (fresh_cur cfg fi pts pt) mvs in
  let cur := build_cur cfg fi pts pt mvs in
  (ARG_FORCE_GRID_8 cfg = false ->
     cur = binned /\
     forall i j, occupancy cur i j = 0 \/ occupancy cur i j = 1) /\
  (ARG_FORCE_GRID_8 cfg = true ->
     cur = FillInSomeMissingVectorsInGrid8 binned /\
     FillInSomeMissingVectorsInGrid8 binned
     = fill_sweep (fill_sweep binned) /\
     cur = spec_fill binned) /\
  (forall s, fi <> -1 ->
     exists b, last (prev (output_vectors_std cfg fi pts pt mvs s))
                    FrameInfo_new = set_Printed cur b) /\
  (forall i j, ~ interior binned i j \/ occupancy binned i j <> 0 ->
     dx cur i j = dx binned i j /\ dy cur i j = dy binned i j /\
     occupancy cur i j = occupancy binned i j) /\
  (forall f i j, bounded f ->
     let f' := fill_cell i j f in
     (occupancy f i j = 0 ->
      occupancy f i (j - 1) <> 0 -> occupancy f i (j + 1) <> 0 ->
        dx f' i j = Z.quot (dx f i (j - 1) + dx f i (j + 1)) 2 /\
        dy f' i j = Z.quot (dy f i (j - 1) + dy f i (j + 1)) 2 /\
        occupancy f' i j = 2) /\
     (occupancy f i j = 0 ->
      occupancy f i (j - 1) = 0 \/ occupancy f i (j + 1) = 0 ->
      occupancy f (i - 1) j <> 0 -> occupancy f (i + 1) j <> 0 ->
        dx f' i j = Z.quot (dx f (i - 1) j + dx f (i + 1) j) 2 /\
        dy f' i j = Z.quot (dy f (i - 1) j + dy f (i + 1) j) 2 /\
        occupancy f' i j = 2) /\
     (occupancy f i j <> 0 \/
      ((occupancy f i (j - 1) = 0 \/ occupancy f i (j + 1) = 0) /\
       (occupancy f (i - 1) j = 0 \/ occupancy f (i + 1) j = 0)) ->
        f' = f)) /\
  (let g := bin_vectors (fresh_cur Examples.cfg8 1 0 "P") Examples.donors in
   occupancy g 1 1 = 0 /\ occupancy g 1 2 = 0 /\
   occupancy (fill_sweep g) 1 1 = 0 /\ occupancy (fill_sweep g) 1 2 = 2 /\
   occupancy (fill_sweep (fill_sweep g)) 1 1 = 2 /\
   dx (fill_sweep (fill_sweep g)) 1 1
   = Z.quot (dx g 1 0 + dx (fill_sweep g) 1 2) 2).
Proof.
  intros Hmv Hr Hc binned cur.
  destruct (shape_le_max cfg) as [Hr' Hc'].
  destruct (bin_vectors_fields mvs (fresh_cur cfg fi pts pt))
    as (Hstep & Hshape & _). simpl in Hstep, Hshape. fold binned in Hstep, Hshape.
  assert (Hbb : bounded binned).
  { apply bin_vectors_bounded; [exact Hmv|]. intros i j. simpl.
    unfold zeros, in_disp. lia. }
  assert (Hcur : cur = if ARG_FORCE_GRID_8 cfg
                       then FillInSomeMissingVectorsInGrid8 binned else binned).
  { unfold cur, build_cur. fold binned. now rewrite Hstep, gridStep_8. }
  assert (Hbc : bounded cur) by now apply build_cur_bounded.
  split; [|split; [|split; [|split; [|split]]]].
  - intros E. rewrite E in Hcur. split; [exact Hcur|].
    rewrite Hcur. apply bin_vectors_occ01. intros i j. now left.
  - intros E. rewrite E in Hcur. split; [exact Hcur|].
    split; [apply Fill_two_sweeps|].
    rewrite Hcur. apply Fill_refines_spec; [exact Hbb|rewrite Hshape; lia ..].
  - intros s Hfi.
    assert (Hunp : Printed cur = false) by apply build_cur_fields.
    unfold output_vectors_std. fold cur.
    destruct (Z.eqb_spec fi (-1)) as [|_]; [contradiction|].
    destruct (is_empty mvs); simpl.
    + exists false. rewrite last_last, <- Hunp. symmetry.
      apply set_Printed_same.
    + exists true. rewrite (Print_unprinted cur _ Hunp). reflexivity.
  - intros i j Hcell. rewrite Hcur.
    destruct (ARG_FORCE_GRID_8 cfg); [|tauto].
    apply Fill_frame; [rewrite Hshape; lia ..|exact Hcell].
  - intros f i j Hb f'. split; [|split].
    + intros H0 Hl Hrt. unfold f', fill_cell.
      rewrite H0. simpl.
      destruct (Z.eqb_spec (occupancy f i (j - 1)) 0); [contradiction|].
      destruct (Z.eqb_spec (occupancy f i (j + 1)) 0); [contradiction|].
      simpl. rewrite !upd2_same, !avg_exact by apply Hb. tauto.
    + intros H0 Hh Ht Hbt. unfold f', fill_cell.
      rewrite H0. simpl.
      destruct (Z.eqb_spec (occupancy f (i - 1) j) 0); [contradiction|].
      destruct (Z.eqb_spec (occupancy f (i + 1) j) 0); [contradiction|].
      assert (Hno : negb (occupancy f i (j - 1) =? 0)
                    && negb (occupancy f i (j + 1) =? 0) = false).
      { destruct Hh as [-> | ->]; simpl; [reflexivity|apply andb_false_r]. }
      rewrite Hno. simpl. rewrite !upd2_same, !avg_exact by apply Hb. tauto.
    + intros Hskip. unfold f'.
      destruct (fill_cell_cases i j f); [tauto | tauto | reflexivity].
  - vm_compute. repeat split; reflexivity.
Qed.

Lemma neighbor_fill_pass_example :
  let cur := build_cur Examples.cfg8 1 0 "P" Examples.donors in
  cur = spec_fill (bin_vectors (fresh_cur Examples.cfg8 1 0 "P") Examples.donors)
  /\ occupancy cur 1 1 = 2 /\ occupancy cur 1 3 = 0.
Proof.
  destruct (neighbor_fill_pass Examples.cfg8 1 0 "P" Examples.donors)
    as (_ & Hfill & _).
  - repeat constructor; simpl; unfold in_int16; lia.
  - vm_compute. discriminate.
  - vm_compute. discriminate.
  - destruct (Hfill eq_refl) as (_ & _ & Hspec).
    split; [exact Hspec|]. split; reflexivity.
Defined.

(** C2, at an input where the source departs from it.  On a 32x4 stream
    with the 8-pixel grid the shape is 0x4: the grid has no interior cell
    and the pass of the specification does nothing.  The source computes
    the row bound [Shape.first - 1] in [size_t], where it is [2^64 - 1].
    Its sweep therefore begins with row 1, which the grid does not have, and
    fills cell (1, 1), between the cells of the two vectors of the frame,
    with their mean and the tag 2; and it goes on to row 512, which the
    arrays do not have. *)
Theorem C2_sweep_on_grid_without_rows :
  let cfg := Examples.cfg_low in
  let fresh := fresh_cur cfg 1 0 "P" in
  let binned := bin_vectors fresh Examples.low_pair in
  let rows := to_size_t (fst (Shape binned) - 1) in
  let cols := to_size_t (snd (Shape binned) - 1) in
  let row i := for_loop 1 cols (fun j => fill_cell i j) in
  shape cfg = (0, 4) /\
  map (cell_of fresh) Examples.low_pair = [(1, 0); (1, 2)] /\
  (forall i j, ~ interior binned i j) /\
  spec_fill binned = binned /\
  rows = 2 ^ 64 - 1 /\ cols = 3 /\
  fill_sweep binned = for_loop 2 rows row (row 1 binned) /\
  (occupancy binned 1 1 = 0 /\ occupancy (row 1 binned) 1 1 = 2 /\
   dx (row 1 binned) 1 1 = 2 /\ dy (row 1 binned) 1 1 = 0) /\
  (In MAX_GRID_SIZE (range 2 rows) /\ In 1 (range 1 cols) /\
   ~ in_arrays MAX_GRID_SIZE 1).
Proof.
  intros cfg fresh binned rows cols row.
  assert (Hshape : Shape binned = (0, 4)) by reflexivity.
  assert (Hrows : rows = 2 ^ 64 - 1)
    by (unfold rows; rewrite Hshape; reflexivity).
  assert (Hcols : cols = 3) by (unfold cols; rewrite Hshape; reflexivity).
  assert (Hsweep : spec_sweep binned = binned)
    by (unfold spec_sweep; rewrite Hshape; reflexivity).
  split; [reflexivity|]. split; [reflexivity|]. split.
  { intros i j [Hi _]. rewrite Hshape in Hi. simpl in Hi. lia. }
  split; [unfold spec_fill; now rewrite !Hsweep|].
  split; [exact Hrows|]. split; [exact Hcols|]. split.
  { unfold fill_sweep. fold rows. fold cols.
    rewrite for_loop_cons by (rewrite Hrows; lia). reflexivity. }
  split.
  { unfold row. rewrite Hcols. vm_compute. repeat split; reflexivity. }
  split; [apply in_range; rewrite Hrows; unfold MAX_GRID_SIZE; lia|].
  split; [apply in_range; rewrite Hcols; lia|].
  unfold in_arrays, MAX_GRID_SIZE. lia.
Qed.

(** ** Grid binning *)

(** C3, at the input where the source departs from it.  On the 4x4 grid of
    a 64x64 stream, the vector with destination (16, -1) and displacement
    (3, -2) is stored in row 3, the last one, and row 0 stays empty: the
    negative [dst_y] is converted to [size_t] before the division, so the
    lower clamp never applies. *)
Theorem C3_negative_destination_last_row :
  let cur0 := fresh_cur Examples.cfg16 1 0 "P" in
  let cur := bin_vectors cur0 [Examples.mv_above] in
  shape Examples.cfg16 = (4, 4) /\
  cell_of cur0 Examples.mv_above = (3, 1) /\
  (occupancy cur 3 1 = 1 /\ dx cur 3 1 = 3 /\ dy cur 3 1 = -2) /\
  (occupancy cur 0 1 = 0 /\ dx cur 0 1 = 0 /\ dy cur 0 1 = 0).
Proof. vm_compute. repeat split; reflexivity. Qed.

(** ** The buffer *)

(** C4 as stated fails: three decoded frames without vectors leave three
    grids in the buffer. *)
Lemma C4_counterexample :
  ~ (length (prev (deliver_all Examples.cfg16
                     [Examples.call 1 1 []; Examples.call 2 2 [];
                      Examples.call 3 3 []] pipeline_init)) <= 2)%nat.
Proof. vm_compute. lia. Qed.

(** C4, amended.  After a run of decoded frames the buffer holds at most one
    grid more than the number of frames without vectors that ended the run:
    a frame with vectors leaves exactly one grid, a frame without vectors
    adds one grid to what was there. *)
Theorem C4_buffer_length cfg cs :
  Forall real_call cs ->
  (length (prev (deliver_all cfg cs pipeline_init))
   <= 1 + trailing_empty cs)%nat /\
  (forall cs' c, cs = cs' ++ [c] ->
     length (prev (deliver_all cfg cs pipeline_init))
     = if is_empty (c_vectors c)
       then S (length (prev (deliver_all cfg cs' pipeline_init)))
       else 1%nat).
Proof.
  intros Hreal. split.
  - induction cs as [|c cs IH] using rev_ind; [simpl; lia|].
    apply Forall_app in Hreal. destruct Hreal as [Hcs Hc].
    inversion Hc as [|? ? [Hfi _] _]; subst.
    rewrite deliver_all_snoc, prev_length_deliver, trailing_empty_snoc
      by exact Hfi.
    specialize (IH Hcs). destruct (is_empty (c_vectors c)); lia.
  - intros cs' c ->. apply Forall_app in Hreal. destruct Hreal as [_ Hc].
    inversion Hc as [|? ? [Hfi _] _]; subst.
    rewrite deliver_all_snoc. now apply prev_length_deliver.
Qed.

Lemma C4_buffer_length_witness :
  (length (prev (deliver_all Examples.cfg16
                   [Examples.call 1 10 [Examples.mv_a]; Examples.call 2 11 []]
                   pipeline_init)) <= 2)%nat.
Proof.
  destruct (C4_buffer_length Examples.cfg16
              [Examples.call 1 10 [Examples.mv_a]; Examples.call 2 11 []])
    as [Hlen _].
  - repeat constructor; simpl; unfold in_int16; try lia; discriminate.
  - exact Hlen.
Defined.

(** ** Rebased timestamps *)

(** C5, at an input where the source departs from it.  The static
    [FirstPts] uses -1 for "not set yet".  On a 64x64 stream whose frames
    have the timestamps -1 and 5, the first grid printed leaves [FirstPts]
    at -1, so the second grid sets the baseline a second time, to 5: its
    header shows 0 and not 5 - (-1) = 6. *)
Theorem C5_baseline_set_twice :
  let s := flush Examples.cfg16 5 "P" [Examples.mv_a]
             (deliver_all Examples.cfg16
                [Examples.call 1 (-1) [Examples.mv_a];
                 Examples.call 2 5 [Examples.mv_a]] pipeline_init) in
  map Pts (emitted_grids s) = [-1; 5] /\
  map em_first_pts (emitted (printer s)) = [-1; 5] /\
  map b_pts (stdout_std Examples.cfg16 s) = [0; 0] /\
  map b_pts (stdout_std Examples.cfg16 s) <> [-1 - -1; 5 - -1].
Proof. vm_compute. repeat split; congruence. Qed.

(** The header timestamps apart from that case, on a stream at least one
    grid step high and wide.  For decoded frames with strictly increasing
    timestamps
    whose differences fit [int64_t], the grids are printed in the order of
    the frames and the header timestamps are non-decreasing and start at 0.
    When the timestamp of the first frame is not -1, the baseline is that
    timestamp for every printed block, and every header shows the frame's
    timestamp minus it. *)
Theorem rebased_pts_of_run cfg cs pts pt mvs :
  1 <= fst (shape cfg) -> 1 <= snd (shape cfg) ->
  Forall real_call cs ->
  Sorted Z.lt (map c_pts cs) ->
  Forall pts_in_range (map c_pts cs) ->
  let s := flush cfg pts pt mvs (deliver_all cfg cs pipeline_init) in
  let hs := map b_pts (stdout_std cfg s) in
  map Pts (emitted_grids s) = map c_pts cs /\
  Sorted Z.le hs /\
  (cs <> [] -> hd_error hs = Some 0) /\
  (forall c0 rest, cs = c0 :: rest -> c_pts c0 <> -1 ->
     hs = map (fun c => c_pts c - c_pts c0) cs /\
     FirstPts (printer s) = c_pts c0 /\
     Forall (fun e => em_first_pts e = c_pts c0) (emitted (printer s))).
Proof.
  intros Hrows Hcols Hreal Hsorted Hrange s hs.
  destruct (flush_prints_run cfg cs pts pt mvs Hreal)
    as (gs & Hprinter & Hgrids & Hkeys & _).
  fold s in Hprinter, Hgrids.
  pose proof (keys_pts _ _ Hkeys) as Hpts.
  assert (Hhs : hs = headers (-1) (map c_pts cs)).
  { unfold hs. rewrite stdout_std_pts, Hprinter, header_pts_fold_emit.
    simpl. now rewrite Hpts. }
  destruct (headers_increasing (map c_pts cs) Hsorted Hrange)
    as (Hle & Hhead & Hshift).
  split; [now rewrite Hgrids|]. split; [|split].
  - rewrite Hhs. now apply StronglySorted_Sorted.
  - intros Hne. rewrite Hhs. apply Hhead. now destruct cs.
  - intros c0 rest -> Hc0. split; [|].
    + rewrite Hhs, (Hshift (c_pts c0) (map c_pts rest) eq_refl Hc0).
      now rewrite map_map.
    + destruct gs as [|g0 gs']; [discriminate|].
      simpl in Hpts. injection Hpts as Hg0 _.
      simpl in Hprinter.
      destruct (baseline_fold_emit gs' (emit {| FirstPts := -1; emitted := [] |} g0))
        as (Hfirst & es & Hes & Hall).
      * simpl. now rewrite Hg0.
      * simpl in Hfirst, Hall. rewrite Hg0 in Hfirst, Hall.
        rewrite Hprinter, Hfirst, Hes. simpl. rewrite Hg0.
        split; [reflexivity|]. constructor; [reflexivity|exact Hall].
Qed.

Lemma rebased_pts_of_run_example :
  map b_pts (stdout_std Examples.cfg16
    (flush Examples.cfg16 0 "P" []
       (deliver_all Examples.cfg16
          [Examples.call 1 (-7) [Examples.mv_a]; Examples.call 2 (-3) [];
           Examples.call 3 4 [Examples.mv_a]] pipeline_init)))
  = [0; 4; 11].
Proof.
  destruct (rebased_pts_of_run Examples.cfg16
              [Examples.call 1 (-7) [Examples.mv_a]; Examples.call 2 (-3) [];
               Examples.call 3 4 [Examples.mv_a]] 0 "P" [])
    as (_ & _ & _ & Hshift).
  - vm_compute. discriminate.
  - vm_compute. discriminate.
  - repeat constructor; simpl; unfold in_int16; try lia; discriminate.
  - simpl. repeat constructor; lia.
  - simpl. repeat constructor; unfold pts_in_range; simpl; lia.
  - destruct (Hshift _ _ eq_refl) as (Hhs & _); [simpl; lia|].
    rewrite Hhs. reflexivity.
Defined.

(** ** Single emission *)

(** C6. On a stream at least one grid step high and wide, over a whole run
    closed by the end-of-stream call, the printed
    blocks are, in order, one per decoded frame handed to the pipeline, with
    that frame's index and timestamp; and printing a grid that is already
    printed changes neither the grid nor the output. *)
Theorem C6_single_emission cfg cs pts pt mvs :
  1 <= fst (shape cfg) -> 1 <= snd (shape cfg) ->
  Forall real_call cs ->
  let s := flush cfg pts pt mvs (deliver_all cfg cs pipeline_init) in
  map key (emitted_grids s) = map call_key cs /\
  map b_frame_index (stdout_std cfg s) = map c_index cs /\
  length (stdout_std cfg s) = length cs /\
  (forall f p, Printed f = true -> PrintIfNotPrinted f p = (f, p)) /\
  (forall f p,
     PrintIfNotPrinted (fst (PrintIfNotPrinted f p))
                       (snd (PrintIfNotPrinted f p))
     = PrintIfNotPrinted f p).
Proof.
  intros Hrows Hcols Hreal s.
  destruct (flush_prints_run cfg cs pts pt mvs Hreal)
    as (gs & _ & Hgrids & Hkeys & _).
  fold s in Hgrids. rewrite <- Hgrids in Hkeys.
  assert (Hidx : map b_frame_index (stdout_std cfg s) = map c_index cs).
  { rewrite <- (keys_index _ _ Hkeys). unfold stdout_std, emitted_grids.
    rewrite !map_map. reflexivity. }
  split; [exact Hkeys|]. split; [exact Hidx|]. split; [|split].
  - apply (f_equal (@length Z)) in Hidx. now rewrite !length_map in Hidx.
  - apply Print_printed.
  - intros f p. pose proof (Print_marks f p) as Hm.
    destruct (PrintIfNotPrinted f p) as [f' p']. simpl in *.
    now apply Print_printed.
Qed.

Lemma C6_single_emission_witness :
  map b_frame_index (stdout_std Examples.cfg16
    (flush Examples.cfg16 13 "P" []
       (deliver_all Examples.cfg16
          [Examples.call 1 10 [Examples.mv_a]; Examples.call 2 11 [];
           Examples.call 3 12 [Examples.mv_a]; Examples.call 4 13 []]
          pipeline_init)))
  = [1; 2; 3; 4].
Proof.
  destruct (C6_single_emission Examples.cfg16
              [Examples.call 1 10 [Examples.mv_a]; Examples.call 2 11 [];
               Examples.call 3 12 [Examples.mv_a]; Examples.call 4 13 []]
              13 "P" [])
    as (_ & Hidx & _).
  - vm_compute. discriminate.
  - vm_compute. discriminate.
  - repeat constructor; simpl; unfold in_int16; try lia; discriminate.
  - exact Hidx.
Defined.

(** ** Displacement of unoccupied cells *)

(** C8 as stated fails: the interpolated grid printed between two frames
    that both carry the vector (4, -2) in cell (1, 1) holds that
    displacement in a cell whose occupancy is 0. *)
Lemma C8_counterexample :
  let s := deliver Examples.cfg16 Examples.window
             (Examples.call 3 12 [Examples.mv_a]) in
  let m := nth 1 (emitted_grids s) FrameInfo_new in
  Origin m = "interpolated"%string /\
  occupancy m 1 1 = 0 /\ dx m 1 1 = 4 /\ dy m 1 1 = -2 /\
  ~ (occupancy m 1 1 = 0 -> dx m 1 1 = 0 /\ dy m 1 1 = 0).
Proof.
  vm_compute. repeat split; try reflexivity.
  intros H. destruct (H eq_refl). discriminate.
Qed.

(** C8, amended.  On a stream at least one grid step high and wide, in
    every grid printed during a run or by the end-of-stream call whose
    origin is "video", a cell with occupancy 0 has displacement zero. *)
Theorem C8_unoccupied_cells_zero cfg cs pts pt mvs :
  1 <= fst (shape cfg) -> 1 <= snd (shape cfg) ->
  Forall real_call cs ->
  let s0 := deliver_all cfg cs pipeline_init in
  let s := flush cfg pts pt mvs s0 in
  forall f, In f (emitted_grids s0) \/ In f (emitted_grids s) ->
    Origin f = "video"%string ->
    forall i j, occupancy f i j = 0 -> dx f i j = 0 /\ dy f i j = 0.
Proof.
  intros Hrows Hcols Hreal s0 s f Hin Hvideo.
  destruct (flush_prints_run cfg cs pts pt mvs Hreal)
    as (gs & _ & Hgrids & _ & Hzero).
  fold s0 in Hgrids. fold s in Hgrids. rewrite <- Hgrids in Hzero.
  pose proof (inv_emitted _ _ _ (run_inv_deliver_all cfg cs Hreal)) as Hzero0.
  fold s0 in Hzero0.
  rewrite Forall_forall in Hzero, Hzero0.
  destruct Hin as [Hin|Hin];
    [exact (Hzero0 f Hin Hvideo)|exact (Hzero f Hin Hvideo)].
Qed.

Lemma C8_unoccupied_cells_zero_witness :
  let s := flush Examples.cfg16 12 "P" [Examples.mv_a]
             (deliver_all Examples.cfg16
                [Examples.call 1 10 [Examples.mv_a]; Examples.call 2 11 [];
                 Examples.call 3 12 [Examples.mv_a]] pipeline_init) in
  let f := nth 2 (emitted_grids s) FrameInfo_new in
  dx f 0 0 = 0 /\ dy f 0 0 = 0.
Proof.
  apply (C8_unoccupied_cells_zero Examples.cfg16
           [Examples.call 1 10 [Examples.mv_a]; Examples.call 2 11 [];
            Examples.call 3 12 [Examples.mv_a]] 12 "P" [Examples.mv_a]).
  - vm_compute. discriminate.
  - vm_compute. discriminate.
  - repeat constructor; simpl; unfold in_int16; try lia; discriminate.
  - right. vm_compute. right. right. left. reflexivity.
  - vm_compute. reflexivity.
  - vm_compute. reflexivity.
Defined.

(** ** Frames whose vectors have zero displacement *)

(** C10. On a stream at least one grid step high and wide, every vector of
    a frame, whatever its displacement, leaves its cell
    with occupancy 1 and the grid non-empty.  A frame with a non-empty
    vector list therefore takes the vector-carrying path: its grid is
    printed by the same call, the buffer afterwards holds that grid alone,
    and when a frame without vectors and then a frame with vectors follow,
    it is the first operand of the interpolation that fills the frame in
    between. *)
Theorem C10_zero_displacement_vectors cfg s fi pts pt mvs :
  1 <= fst (shape cfg) -> 1 <= snd (shape cfg) ->
  fi <> -1 -> mvs <> [] ->
  let fresh := fresh_cur cfg fi pts pt in
  let cur := build_cur cfg fi pts pt mvs in
  let s1 := output_vectors_std cfg fi pts pt mvs s in
  (forall mv i j, In mv mvs -> cell_of fresh mv = (i, j) ->
     occupancy (bin_vectors fresh mvs) i j = 1 /\ occupancy cur i j = 1) /\
  Empty cur = false /\
  prev s1 = [set_Printed cur true] /\
  (exists es, emitted_grids s1 = emitted_grids s ++ es ++ [cur]) /\
  (forall fi2 pts2 pt2 fi3 pts3 pt3 mvs3,
     fi2 <> -1 -> fi3 <> -1 -> mvs3 <> [] ->
     let cur2 := build_cur cfg fi2 pts2 pt2 [] in
     let cur3 := build_cur cfg fi3 pts3 pt3 mvs3 in
     let s2 := output_vectors_std cfg fi2 pts2 pt2 [] s1 in
     let s3 := output_vectors_std cfg fi3 pts3 pt3 mvs3 s2 in
     prev s2 = [set_Printed cur true; cur2] /\
     emitted_grids s2 = emitted_grids s1 /\
     emitted_grids s3
     = emitted_grids s1
       ++ [InterpolateFlow cur2 (set_Printed cur true) cur3; cur3]).
Proof.
  intros Hrows Hcols Hfi Hne fresh cur s1.
  destruct (build_cur_fields cfg fi pts pt mvs)
    as (_ & _ & _ & _ & _ & _ & _ & Hempty). fold cur in Hempty.
  assert (Hnonempty : Empty cur = false)
    by (rewrite Hempty; now destruct mvs).
  destruct (path_vectors cfg fi pts pt mvs s Hfi Hne) as (p1 & es & Hes & Hs1).
  fold cur in Hs1. fold s1 in Hs1.
  split; [|split; [exact Hnonempty|split; [now rewrite Hs1|split]]].
  - intros mv i j Hin Hcell.
    pose proof (bin_vectors_occupied mvs fresh mv i j Hin Hcell) as Hocc.
    split; [exact Hocc|].
    unfold cur, build_cur. fold fresh.
    destruct (_ =? 8); [|exact Hocc].
    rewrite Fill_keeps_occupied; [exact Hocc|]. rewrite Hocc. discriminate.
  - exists (map em_grid es). rewrite Hs1. unfold emitted_grids. simpl.
    rewrite map_app, Hes, map_app, <- app_assoc. reflexivity.
  - intros fi2 pts2 pt2 fi3 pts3 pt3 mvs3 Hfi2 Hfi3 Hne3 cur2 cur3 s2 s3.
    assert (Hs2 : s2 = {| prev := [set_Printed cur true; cur2];
                          printer := printer s1 |}).
    { unfold s2. rewrite path_no_vectors by exact Hfi2. now rewrite Hs1. }
    split; [now rewrite Hs2|]. split; [now rewrite Hs2|].
    unfold s3.
    rewrite (path_interpolate cfg fi3 pts3 pt3 Hfi3 mvs3 s2
               (set_Printed cur true) cur2 Hne3).
    + unfold emitted_grids. simpl. rewrite Hs2. simpl.
      rewrite !map_app. simpl. now rewrite <- app_assoc.
    + now rewrite Hs2.
    + exact Hnonempty.
    + apply build_cur_fields.
Qed.

Lemma C10_zero_displacement_vectors_witness :
  let s1 := output_vectors_std Examples.cfg16 1 10 "P" [Examples.mv_still]
              pipeline_init in
  let cur := build_cur Examples.cfg16 1 10 "P" [Examples.mv_still] in
  (occupancy cur 1 1 = 1 /\ dx cur 1 1 = 0 /\ dy cur 1 1 = 0) /\
  Empty cur = false /\
  length (prev s1) = 1%nat /\
  map FrameIndex (emitted_grids s1) = [1].
Proof.
  destruct (C10_zero_displacement_vectors Examples.cfg16 pipeline_init
              1 10 "P" [Examples.mv_still])
    as (Hocc & Hempty & Hprev & _ & _).
  - vm_compute. discriminate.
  - vm_compute. discriminate.
  - lia.
  - discriminate.
  - split; [|split; [exact Hempty|split]].
    + destruct (Hocc Examples.mv_still 1 1) as [_ H];
        [now left|reflexivity|].
      split; [exact H|split; reflexivity].
    + rewrite Hprev. reflexivity.
    + reflexivity.
Defined.

(** ** The duplicate filter of the dispatcher *)

(** C7, at an input where the source departs from it.  [prev_pts] uses -1
    for "no frame yet".  After a forwarded frame with timestamp -1 it reads
    -1 again, so a second frame with timestamp -1 passes the test
    [pts <= prev_pts && prev_pts != -1]: it is forwarded and printed as
    well, and no warning is written. *)
Theorem C7_repeated_pts_minus_one :
  let m1 := frameCallback Examples.cfg16 (main_init 0 "?")
              (Examples.frame (-1) [Examples.mv_a]) in
  let m2 := frameCallback Examples.cfg16 m1
              (Examples.frame (-1) [Examples.mv_a]) in
  prev_pts m1 = -1 /\
  map key (emitted_grids (pipeline m1)) = [(1, -1)] /\
  map key (emitted_grids (pipeline m2)) = [(1, -1); (2, -1)] /\
  stderr m2 = [].
Proof. vm_compute. repeat split; reflexivity. Qed.

(** The filter apart from that case.  The callback increments the frame
    counter.  When [prev_pts] is not -1 and the timestamp is at most
    [prev_pts], the frame reaches neither emitter, [prev_pts] stays, and the
    warning is written unless quiet.  Otherwise, that is when [prev_pts] is
    -1 or the timestamp is greater than [prev_pts], the frame goes to the
    selected emitter and [prev_pts] becomes its timestamp.  So of two
    successive frames with the same timestamp other than -1, the first of
    them forwarded, only the first reaches an emitter. *)
Theorem duplicate_filter_step cfg m fr :
  let index := wrap32 (frameIndex m + 1) in
  let m' := frameCallback cfg m fr in
  frameIndex m' = index /\
  (prev_pts m <> -1 -> f_pts fr <= prev_pts m ->
     pipeline m' = pipeline m /\ stdout_raw m' = stdout_raw m /\
     prev_pts m' = prev_pts m /\
     stderr m' = if ARG_QUIET cfg then stderr m
                 else stderr m ++ [Skipping index (wrap32 (f_pts fr))]) /\
  (prev_pts m = -1 \/ prev_pts m < f_pts fr ->
     prev_pts m' = f_pts fr /\ stderr m' = stderr m /\
     if ARG_OUTPUT_RAW_MOTION_VECTORS cfg
     then stdout_raw m'
          = stdout_raw m ++ [output_vectors_raw index (f_pts fr)
                               (f_pict_type fr) (f_vectors fr)] /\
          pipeline m' = pipeline m
     else pipeline m'
          = output_vectors_std cfg index (f_pts fr) (f_pict_type fr)
              (f_vectors fr) (pipeline m) /\
          stdout_raw m' = stdout_raw m) /\
  (forall fr2,
     prev_pts m = -1 \/ prev_pts m < f_pts fr ->
     f_pts fr <> -1 -> f_pts fr2 = f_pts fr ->
     let m2 := frameCallback cfg m' fr2 in
     pipeline m2 = pipeline m' /\ stdout_raw m2 = stdout_raw m' /\
     prev_pts m2 = f_pts fr).
Proof.
  intros index m'.
  assert (Hdrop : forall m0 fr0,
    prev_pts m0 <> -1 -> f_pts fr0 <= prev_pts m0 ->
    pipeline (frameCallback cfg m0 fr0) = pipeline m0 /\
    stdout_raw (frameCallback cfg m0 fr0) = stdout_raw m0 /\
    prev_pts (frameCallback cfg m0 fr0) = prev_pts m0 /\
    stderr (frameCallback cfg m0 fr0)
    = if ARG_QUIET cfg then stderr m0
      else stderr m0 ++ [Skipping (wrap32 (frameIndex m0 + 1))
                                  (wrap32 (f_pts fr0))]).
  { intros m0 fr0 Hset Hle. unfold frameCallback.
    replace (f_pts fr0 <=? prev_pts m0) with true by lia.
    replace (prev_pts m0 =? -1) with false by lia. simpl.
    destruct (ARG_QUIET cfg); simpl; tauto. }
  assert (Hfwd : prev_pts m = -1 \/ prev_pts m < f_pts fr ->
    prev_pts m' = f_pts fr /\ stderr m' = stderr m /\
    if ARG_OUTPUT_RAW_MOTION_VECTORS cfg
    then stdout_raw m'
         = stdout_raw m ++ [output_vectors_raw index (f_pts fr)
                              (f_pict_type fr) (f_vectors fr)] /\
         pipeline m' = pipeline m
    else pipeline m'
         = output_vectors_std cfg index (f_pts fr) (f_pict_type fr)
             (f_vectors fr) (pipeline m) /\
         stdout_raw m' = stdout_raw m).
  { intros Hlt. unfold m', frameCallback.
    replace ((f_pts fr <=? prev_pts m) && negb (prev_pts m =? -1))
      with false
      by (destruct (Z.leb_spec (f_pts fr) (prev_pts m));
          destruct (Z.eqb_spec (prev_pts m) (-1)); simpl; lia).
    destruct (ARG_OUTPUT_RAW_MOTION_VECTORS cfg); simpl; tauto. }
  split; [apply frameCallback_index|].
  split; [apply Hdrop|]. split; [exact Hfwd|].
  intros fr2 Hlt Hne Heq m2. destruct (Hfwd Hlt) as (Hprev & _).
  destruct (Hdrop m' fr2) as (H1 & H2 & H3 & _); [congruence|lia|].
  unfold m2. rewrite H1, H2, H3. tauto.
Qed.

Lemma duplicate_filter_step_example :
  let m1 := frameCallback Examples.cfg16 (main_init 0 "?")
              (Examples.frame 7 [Examples.mv_a]) in
  let m2 := frameCallback Examples.cfg16 m1
              (Examples.frame 7 [Examples.mv_a]) in
  pipeline m2 = pipeline m1 /\ stdout_raw m2 = stdout_raw m1 /\
  prev_pts m2 = 7.
Proof.
  destruct (duplicate_filter_step Examples.cfg16 (main_init 0 "?")
              (Examples.frame 7 [Examples.mv_a])) as (_ & _ & _ & Hdup).
  apply (Hdup (Examples.frame 7 [Examples.mv_a])); simpl; lia.
Defined.

(** ** The end of the stream *)



(* ================================================================== *)
(** * Further properties of the program *)

(** ** Properties kept by every grid of a run *)

Lemma emitted_grids_flush cfg pts pt mvs s :
  emitted_grids (flush cfg pts pt mvs s)
  = emitted_grids s ++ unprinted (prev s).
Proof.
  unfold emitted_grids. rewrite path_flush. apply emitted_fold_emit.
Qed.

(** Either the buffer is an interpolation window or it is not. *)
Lemma window_or_not s :
  (exists front back, prev s = [front; back] /\ Empty front = false) \/
  (forall front back, prev s = [front; back] -> Empty front = true).
Proof.
  destruct (prev s) as [|front [|back [|third rest]]];
    try (right; discriminate).
  destruct (Empty front) eqn:E.
  - right. intros f b H. inversion H; subst. exact E.
  - left. now exists front, back.
Qed.

(** A property of the grids that binning and filling establish and that
    interpolation and the printed flag keep holds of every buffered and of
    every printed grid. *)
Lemma grids_invariant cfg (P : FrameInfo -> Prop) :
  (forall fi pts pt mvs,
      Forall int16_mv mvs -> P (build_cur cfg fi pts pt mvs)) ->
  (forall f, P f -> P (set_Printed f true)) ->
  (forall this p n, P this -> P p -> P n -> P (InterpolateFlow this p n)) ->
  forall s, reachable cfg s ->
    Forall P (prev s) /\ Forall P (emitted_grids s).
Proof.
  intros Hcur Hprinted Hinterp s Hreach.
  induction Hreach as [|s c Hreach [IHprev IHout] [Hfi Hmv]].
  - split; constructor.
  - destruct c as [fi pts pt mvs]. unfold deliver. simpl in *.
    pose proof (Hcur fi pts pt mvs Hmv) as Hc.
    assert (Hcase : mvs = [] \/ mvs <> [])
      by (destruct mvs; [now left|right; discriminate]).
    destruct Hcase as [->|Hne].
    + rewrite path_no_vectors by exact Hfi. simpl. split; [|exact IHout].
      apply Forall_app. split; [exact IHprev|]. now constructor.
    + assert (Hall : Forall P (emitted_grids s ++ unprinted (prev s) ++
                                 [build_cur cfg fi pts pt mvs])).
      { apply Forall_app. split; [exact IHout|]. apply Forall_app. split.
        - apply Forall_forall. intros g Hg. apply unprinted_incl in Hg.
          rewrite Forall_forall in IHprev. now apply IHprev.
        - now constructor. }
      assert (Hpath : forall s',
        s' = {| prev := [set_Printed (build_cur cfg fi pts pt mvs) true];
                printer := emit (fold_left emit (unprinted (prev s))
                                   (printer s))
                                (build_cur cfg fi pts pt mvs) |} ->
        Forall P (prev s') /\ Forall P (emitted_grids s')).
      { intros s' ->. simpl. split; [constructor; [now apply Hprinted|constructor]|].
        unfold emitted_grids in *. simpl.
        rewrite map_app, emitted_fold_emit. simpl.
        now rewrite <- app_assoc. }
      destruct (window_or_not s) as [(front & back & Eprev & Efront)|Hnot].
      * destruct (reachable_run_inv cfg s Hreach) as (cs & _ & _ & Hinv).
        destruct (run_inv_interpolate cfg cs s fi pts pt mvs Hinv Hmv
                    front back Hne Eprev Efront) as (_ & Hpb & _).
        rewrite (path_interpolate cfg fi pts pt Hfi mvs s front back
                   Hne Eprev Efront Hpb).
        simpl. split; [constructor; [now apply Hprinted|constructor]|].
        unfold emitted_grids in *. simpl. rewrite !map_app. simpl.
        rewrite <- app_assoc. apply Forall_app. split; [exact IHout|].
        rewrite Eprev in IHprev.
        inversion IHprev as [|? ? Pf Hr]; subst.
        inversion Hr as [|? ? Pb _]; subst.
        constructor; [now apply Hinterp|]. now constructor.
      * apply Hpath. now apply (path_print_all cfg fi pts pt Hfi mvs s Hne).
Qed.

(** The same for what the end-of-stream call adds to the output. *)
Lemma grids_invariant_flush cfg (P : FrameInfo -> Prop) pts pt mvs :
  (forall fi pts pt mvs,
      Forall int16_mv mvs -> P (build_cur cfg fi pts pt mvs)) ->
  (forall f, P f -> P (set_Printed f true)) ->
  (forall this p n, P this -> P p -> P n -> P (InterpolateFlow this p n)) ->
  forall s, reachable cfg s ->
    Forall P (emitted_grids s) /\
    Forall P (emitted_grids (flush cfg pts pt mvs s)).
Proof.
  intros H1 H2 H3 s Hreach.
  destruct (grids_invariant cfg P H1 H2 H3 s Hreach) as [Hprev Hout].
  split; [exact Hout|]. rewrite emitted_grids_flush.
  apply Forall_app. split; [exact Hout|].
  apply Forall_forall. intros g Hg. apply unprinted_incl in Hg.
  rewrite Forall_forall in Hprev. now apply Hprev.
Qed.

(** ** Cell values and occupancy tags *)

(** X1. On a stream at least one grid step high and wide, every
    displacement cell of every grid the pipeline buffers or
    prints lies in [-65535, 65535], the range of the difference of two
    [int16_t] coordinates: the [int] sums of the neighbour fill and of the
    interpolation never overflow. *)
Theorem X1_cells_in_displacement_range cfg s pts pt mvs :
  1 <= fst (shape cfg) -> 1 <= snd (shape cfg) ->
  reachable cfg s ->
  forall f,
    In f (prev s) \/ In f (emitted_grids s) \/
    In f (emitted_grids (flush cfg pts pt mvs s)) ->
    forall i j,
      -65535 <= dx f i j <= 65535 /\ -65535 <= dy f i j <= 65535.
Proof.
  intros Hrows Hcols Hreach f Hin.
  assert (H1 : forall fi p t m, Forall int16_mv m -> bounded (build_cur cfg fi p t m))
    by (intros; now apply build_cur_bounded).
  assert (H2 : forall g, bounded g -> bounded (set_Printed g true))
    by (intros g Hg; exact Hg).
  pose proof InterpolateFlow_bounded as H3.
  destruct (grids_invariant cfg bounded H1 H2 H3 s Hreach) as [Hprev Hout].
  destruct (grids_invariant_flush cfg bounded pts pt mvs H1 H2 H3 s Hreach)
    as [_ Hflush].
  rewrite Forall_forall in Hprev, Hout, Hflush.
  destruct Hin as [Hin|[Hin|Hin]]; [apply (Hprev f Hin)|apply (Hout f Hin)|
                                    apply (Hflush f Hin)].
Qed.

Lemma X1_cells_in_displacement_range_witness :
  let f := nth 1 (emitted_grids
             (deliver Examples.cfg16 Examples.window
                (Examples.call 3 12 [Examples.mv_a]))) FrameInfo_new in
  -65535 <= dx f 1 1 <= 65535 /\ -65535 <= dy f 1 1 <= 65535.
Proof.
  apply (X1_cells_in_displacement_range Examples.cfg16
           (deliver Examples.cfg16 Examples.window
              (Examples.call 3 12 [Examples.mv_a])) 0 "P" []).
  - vm_compute. discriminate.
  - vm_compute. discriminate.
  - apply reach_deliver;
      [apply (reachable_deliver_all Examples.cfg16
                [Examples.call 1 10 [Examples.mv_a]; Examples.call 2 11 []])|];
      repeat constructor; simpl; unfold in_int16; try lia; discriminate.
  - right. left. vm_compute. right. left. reflexivity.
Defined.

Lemma Fill_tags f :
  (forall i j, occupancy f i j = 0 \/ occupancy f i j = 1) ->
  forall i j,
    occupancy (FillInSomeMissingVectorsInGrid8 f) i j = 0 \/
    occupancy (FillInSomeMissingVectorsInGrid8 f) i j = 1 \/
    occupancy (FillInSomeMissingVectorsInGrid8 f) i j = 2.
Proof.
  intros H01.
  apply (Fill_inv (fun x => forall i j,
           occupancy x i j = 0 \/ occupancy x i j = 1 \/ occupancy x i j = 2)).
  - intros i j. destruct (H01 i j); tauto.
  - intros i' j' x _ _ Hx i j.
    destruct (fill_cell_cases i' j' x); try apply Hx;
      simpl; unfold upd2; destruct ((i =? i') && (j =? j')); try apply Hx;
      tauto.
Qed.

(** X2. On a stream at least one grid step high and wide, the occupancy of
    every cell of every printed grid is 0, 1 or 2, and the tag 2 occurs only
    on the 8-pixel grid. *)
Theorem X2_occupancy_tags cfg s pts pt mvs :
  1 <= fst (shape cfg) -> 1 <= snd (shape cfg) ->
  reachable cfg s ->
  forall f,
    In f (emitted_grids s) \/ In f (emitted_grids (flush cfg pts pt mvs s)) ->
    forall i j,
      occupancy f i j = 0 \/ occupancy f i j = 1 \/
      (occupancy f i j = 2 /\ ARG_FORCE_GRID_8 cfg = true).
Proof.
  intros Hrows Hcols Hreach f Hin.
  set (P := fun g : FrameInfo => forall i j,
         occupancy g i j = 0 \/ occupancy g i j = 1 \/
         (occupancy g i j = 2 /\ ARG_FORCE_GRID_8 cfg = true)).
  assert (H1 : forall fi p t m, Forall int16_mv m -> P (build_cur cfg fi p t m)).
  { intros fi p t m _ i j. unfold build_cur.
    assert (H01 : forall i j,
      occupancy (bin_vectors (fresh_cur cfg fi p t) m) i j = 0 \/
      occupancy (bin_vectors (fresh_cur cfg fi p t) m) i j = 1).
    { apply bin_vectors_occ01. intros. now left. }
    destruct (bin_vectors_fields m (fresh_cur cfg fi p t)) as (-> & _).
    simpl. rewrite gridStep_8.
    destruct (ARG_FORCE_GRID_8 cfg).
    - destruct (Fill_tags _ H01 i j) as [H|[H|H]]; tauto.
    - destruct (H01 i j); tauto. }
  assert (H2 : forall g, P g -> P (set_Printed g true)) by (intros g Hg; exact Hg).
  assert (H3 : forall this p n, P this -> P p -> P n -> P (InterpolateFlow this p n)).
  { intros this p n Ht _ _ i j.
    destruct (InterpolateFlow_fields this p n) as (-> & _). apply Ht. }
  destruct (grids_invariant_flush cfg P pts pt mvs H1 H2 H3 s Hreach)
    as [Hout Hflush].
  rewrite Forall_forall in Hout, Hflush.
  destruct Hin as [Hin|Hin]; [apply (Hout f Hin)|apply (Hflush f Hin)].
Qed.

Lemma X2_occupancy_tags_witness :
  let f := nth 0 (emitted_grids
             (deliver Examples.cfg8 pipeline_init
                (Examples.call 1 0 Examples.donors))) FrameInfo_new in
  occupancy f 1 1 = 0 \/ occupancy f 1 1 = 1 \/
  (occupancy f 1 1 = 2 /\ ARG_FORCE_GRID_8 Examples.cfg8 = true).
Proof.
  apply (X2_occupancy_tags Examples.cfg8
           (deliver Examples.cfg8 pipeline_init
              (Examples.call 1 0 Examples.donors)) 0 "P" []).
  - vm_compute. discriminate.
  - vm_compute. discriminate.
  - apply reach_deliver; [apply reach_init|].
    repeat constructor; simpl; unfold in_int16; try lia; discriminate.
  - left. vm_compute. left. reflexivity.
Defined.

(** ** The shape of the printed blocks *)

Lemma shape_nonneg cfg : 0 <= fst (shape cfg) /\ 0 <= snd (shape cfg).
Proof.
  unfold shape, ffmpeg_frameHeight, ffmpeg_frameWidth, to_size_t,
    MAX_GRID_SIZE. simpl.
  assert (0 < gridStep cfg) by (unfold gridStep; destruct (ARG_FORCE_GRID_8 cfg); lia).
  pose proof (Z.mod_pos_bound (height cfg) (2 ^ 64) ltac:(lia)).
  pose proof (Z.mod_pos_bound (width cfg) (2 ^ 64) ltac:(lia)).
  split; apply Z.min_glb; try lia; apply Z.div_pos; lia.
Qed.

Lemma matrix_dims f a :
  length (matrix f a) = Z.to_nat (fst (Shape f)) /\
  Forall (fun row => length row = Z.to_nat (snd (Shape f))) (matrix f a).
Proof.
  unfold matrix. split.
  - rewrite length_map, range_length. f_equal. lia.
  - apply Forall_forall. intros row Hrow. apply in_map_iff in Hrow.
    destruct Hrow as (i & <- & _). rewrite length_map, range_length.
    f_equal. lia.
Qed.

(** X3. On a stream at least one grid step high and wide, every block
    printed in a run has the same shape: its header shows
    ((2 or 3) * rows) x cols for the rows and columns computed from the frame
    size and the grid step, its [dx] and [dy] matrices have exactly rows
    rows of cols cells, and the occupancy matrix, of the same size, is
    present exactly when occupancy output is requested. *)
Theorem X3_blocks_have_the_stream_shape cfg s pts pt mvs :
  1 <= fst (shape cfg) -> 1 <= snd (shape cfg) ->
  reachable cfg s ->
  forall b,
    In b (stdout_std cfg s) \/ In b (stdout_std cfg (flush cfg pts pt mvs s)) ->
    let rows := fst (shape cfg) in
    let cols := snd (shape cfg) in
    let dims (m : list (list Z)) :=
      length m = Z.to_nat rows /\
      Forall (fun row => length row = Z.to_nat cols) m in
    b_shape b = ((if ARG_OUTPUT_OCCUPANCY cfg then 3 else 2) * rows, cols) /\
    dims (b_dx b) /\ dims (b_dy b) /\
    (if ARG_OUTPUT_OCCUPANCY cfg
     then exists m, b_occupancy b = Some m /\ dims m
     else b_occupancy b = None).
Proof.
  intros Hrows Hcols Hreach b Hin rows cols dims.
  set (P := fun g : FrameInfo => Shape g = shape cfg).
  assert (H1 : forall fi p t m, Forall int16_mv m -> P (build_cur cfg fi p t m))
    by (intros; apply build_cur_fields).
  assert (H2 : forall g, P g -> P (set_Printed g true)) by (intros g Hg; exact Hg).
  assert (H3 : forall this p n, P this -> P p -> P n -> P (InterpolateFlow this p n)).
  { intros this p n Ht _ _. unfold P.
    destruct (InterpolateFlow_fields this p n) as (_ & _ & _ & _ & -> & _).
    exact Ht. }
  destruct (grids_invariant_flush cfg P pts pt mvs H1 H2 H3 s Hreach)
    as [Hout Hflush].
  rewrite Forall_forall in Hout, Hflush.
  assert (Hshape : exists e, b = printf_block cfg e /\ Shape (em_grid e) = shape cfg).
  { unfold stdout_std, emitted_grids in *.
    destruct Hin as [Hin|Hin]; apply in_map_iff in Hin;
      destruct Hin as (e & <- & He); exists e; (split; [reflexivity|]).
    - apply Hout. now apply in_map.
    - apply Hflush. now apply in_map. }
  destruct Hshape as (e & -> & Hs).
  destruct (shape_nonneg cfg) as [Hr0 _].
  destruct (shape_le_max cfg) as [Hr1 _]. unfold MAX_GRID_SIZE in Hr1.
  unfold dims, rows, cols, printf_block.
  cbn [b_shape b_dx b_dy b_occupancy]. rewrite <- Hs.
  split; [|split; [apply matrix_dims|split; [apply matrix_dims|]]].
  - f_equal. rewrite Hs. apply to_size_t_small.
    change (2 ^ 64) with 18446744073709551616.
    destruct (ARG_OUTPUT_OCCUPANCY cfg); lia.
  - destruct (ARG_OUTPUT_OCCUPANCY cfg); [|reflexivity].
    eexists. split; [reflexivity|apply matrix_dims].
Qed.

Lemma X3_blocks_have_the_stream_shape_witness :
  let b := nth 1 (stdout_std Examples.cfg16
             (deliver Examples.cfg16 Examples.window
                (Examples.call 3 12 [Examples.mv_a])))
             (printf_block Examples.cfg16 (mkEmission FrameInfo_new 0)) in
  b_shape b = (12, 4) /\ length (b_dx b) = 4%nat.
Proof.
  intros b.
  assert (Hreach : reachable Examples.cfg16
            (deliver Examples.cfg16 Examples.window
               (Examples.call 3 12 [Examples.mv_a]))).
  { apply reach_deliver;
      [apply (reachable_deliver_all Examples.cfg16
                [Examples.call 1 10 [Examples.mv_a]; Examples.call 2 11 []])|];
      repeat constructor; simpl; unfold in_int16; try lia; discriminate. }
  assert (Hrows : 1 <= fst (shape Examples.cfg16))
    by (vm_compute; discriminate).
  assert (Hcols : 1 <= snd (shape Examples.cfg16))
    by (vm_compute; discriminate).
  destruct (X3_blocks_have_the_stream_shape Examples.cfg16 _ 0 "P" []
              Hrows Hcols Hreach b) as (Hshape & (Hlen & _) & _).
  - left. vm_compute. right. left. reflexivity.
  - split; [exact Hshape|exact Hlen].
Defined.

(** ** Grid binning *)

Lemma cell_of_fresh cfg fi pts pt mv :
  cell_of (fresh_cur cfg fi pts pt) mv
  = (clipped (dst_y mv) (gridStep cfg) (fst (shape cfg)),
     clipped (dst_x mv) (gridStep cfg) (snd (shape cfg))).
Proof. reflexivity. Qed.

(** X4. For an [int16_t] coordinate, a grid step of 8 or 16 and a grid of at
    least one row (column), the clamped index lies inside the grid: every
    write of the binning loop stays inside the 512x512 arrays. *)
Theorem X4_binned_cell_inside_grid cfg fi pts pt mv i j :
  int16_mv mv ->
  1 <= fst (shape cfg) -> 1 <= snd (shape cfg) ->
  cell_of (fresh_cur cfg fi pts pt) mv = (i, j) ->
  0 <= i < fst (shape cfg) /\ 0 <= j < snd (shape cfg) /\
  i < MAX_GRID_SIZE /\ j < MAX_GRID_SIZE.
Proof.
  intros (_ & _ & Hx & Hy) Hr Hc Hcell.
  destruct (shape_le_max cfg) as [Hr' Hc'].
  rewrite cell_of_fresh in Hcell.
  assert (Ei : i = clipped (dst_y mv) (gridStep cfg) (fst (shape cfg)))
    by congruence.
  assert (Ej : j = clipped (dst_x mv) (gridStep cfg) (snd (shape cfg)))
    by congruence.
  clear Hcell.
  assert (Hstep : gridStep cfg = 8 \/ gridStep cfg = 16)
    by (unfold gridStep; destruct (ARG_FORCE_GRID_8 cfg); tauto).
  assert (Hin : forall d n, in_int16 d -> 1 <= n <= MAX_GRID_SIZE ->
                            0 <= clipped d (gridStep cfg) n < n).
  { intros d n Hd Hn. unfold in_int16 in Hd.
    destruct (Z_lt_le_dec d 0) as [Hneg|Hpos].
    - rewrite clipped_negative by (try assumption; lia). lia.
    - rewrite clipped_nonneg by (try assumption; try lia; destruct Hstep; lia).
      assert (0 <= d / gridStep cfg)
        by (apply Z.div_pos; [lia|destruct Hstep; lia]).
      lia. }
  pose proof (Hin (dst_y mv) (fst (shape cfg)) Hy ltac:(lia)).
  pose proof (Hin (dst_x mv) (snd (shape cfg)) Hx ltac:(lia)).
  unfold MAX_GRID_SIZE in *. lia.
Qed.

Lemma X4_binned_cell_inside_grid_witness :
  0 <= 3 < fst (shape Examples.cfg16) /\ 0 <= 1 < snd (shape Examples.cfg16) /\
  3 < MAX_GRID_SIZE /\ 1 < MAX_GRID_SIZE.
Proof.
  apply (X4_binned_cell_inside_grid Examples.cfg16 1 0 "P" Examples.mv_above).
  - repeat split; simpl; unfold in_int16; lia.
  - vm_compute. discriminate.
  - vm_compute. discriminate.
  - vm_compute. reflexivity.
Defined.

(** X5. The row (column) index of a vector: the quotient of the destination
    coordinate by the grid step, capped at the last row, when the coordinate
    is not negative; the last row when the coordinate is negative. *)
Theorem X5_binned_cell_index cfg fi pts pt mv :
  int16_mv mv ->
  1 <= fst (shape cfg) -> 1 <= snd (shape cfg) ->
  let index d n := if d <? 0 then n - 1 else Z.min (d / gridStep cfg) (n - 1) in
  cell_of (fresh_cur cfg fi pts pt) mv
  = (index (dst_y mv) (fst (shape cfg)), index (dst_x mv) (snd (shape cfg))).
Proof.
  intros (_ & _ & Hx & Hy) Hr Hc index.
  destruct (shape_le_max cfg) as [Hr' Hc'].
  assert (Hstep : gridStep cfg = 8 \/ gridStep cfg = 16)
    by (unfold gridStep; destruct (ARG_FORCE_GRID_8 cfg); tauto).
  assert (Hidx : forall d n, in_int16 d -> 1 <= n <= MAX_GRID_SIZE ->
                             clipped d (gridStep cfg) n = index d n).
  { intros d n Hd Hn. unfold in_int16 in Hd. unfold index.
    destruct (Z.ltb_spec d 0) as [Hneg|Hpos].
    - apply clipped_negative; try assumption; lia.
    - rewrite clipped_nonneg by (try assumption; try lia; destruct Hstep; lia).
      assert (0 <= d / gridStep cfg)
        by (apply Z.div_pos; [lia|destruct Hstep; lia]).
      lia. }
  rewrite cell_of_fresh.
  rewrite (Hidx _ _ Hy), (Hidx _ _ Hx) by lia. reflexivity.
Qed.

Lemma X5_binned_cell_index_witness :
  cell_of (fresh_cur Examples.cfg16 1 0 "P") Examples.mv_above = (3, 1).
Proof.
  rewrite (X5_binned_cell_index Examples.cfg16 1 0 "P" Examples.mv_above).
  - reflexivity.
  - repeat split; simpl; unfold in_int16; lia.
  - vm_compute. discriminate.
  - vm_compute. discriminate.
Defined.

Lemma bin_vectors_untouched mvs : forall cur i j,
  (forall mv, In mv mvs -> cell_of cur mv <> (i, j)) ->
  dx (bin_vectors cur mvs) i j = dx cur i j /\
  dy (bin_vectors cur mvs) i j = dy cur i j /\
  occupancy (bin_vectors cur mvs) i j = occupancy cur i j.
Proof.
  induction mvs as [|m mvs IH] using rev_ind; intros cur i j Hmiss;
    [simpl; tauto|].
  rewrite bin_vectors_snoc.
  destruct (bin_vector_cell (bin_vectors cur mvs) m i j) as [_ Hother].
  rewrite cell_of_bin_vectors in Hother.
  destruct Hother as (-> & -> & ->).
  - intros E. apply (Hmiss m); [apply in_or_app; right; now left|congruence].
  - apply IH. intros mv Hin. apply Hmiss. apply in_or_app. now left.
Qed.

(** X6. What binning leaves in the grid of a frame, on a stream at least
    one grid step high and wide.  A cell that no vector
    of the list is binned into holds displacement 0 and occupancy 0.  The
    cell of a vector holds occupancy 1 and the displacement [dst - src] of
    that vector unless a later vector of the list is binned into the same
    cell: the last writer wins, nothing is accumulated. *)
Theorem X6_binning_last_writer_wins cfg fi pts pt mvs :
  1 <= fst (shape cfg) -> 1 <= snd (shape cfg) ->
  Forall int16_mv mvs ->
  let fresh := fresh_cur cfg fi pts pt in
  let g := bin_vectors fresh mvs in
  (forall i j, (forall mv, In mv mvs -> cell_of fresh mv <> (i, j)) ->
     dx g i j = 0 /\ dy g i j = 0 /\ occupancy g i j = 0) /\
  (forall before mv after i j,
     mvs = before ++ mv :: after ->
     cell_of fresh mv = (i, j) ->
     (forall mv', In mv' after -> cell_of fresh mv' <> (i, j)) ->
     dx g i j = dst_x mv - src_x mv /\ dy g i j = dst_y mv - src_y mv /\
     occupancy g i j = 1).
Proof.
  intros Hrows Hcols Hmv fresh g. split.
  - intros i j Hmiss. unfold g.
    destruct (bin_vectors_untouched mvs fresh i j Hmiss) as (-> & -> & ->).
    simpl. unfold zeros. tauto.
  - intros before mv after i j E Hcell Hlater.
    pose proof (bin_vectors_last_writer after fresh before mv i j Hcell Hlater)
      as H. cbv zeta in H. rewrite <- E in H. fold g in H.
    assert (Hmv' : int16_mv mv).
    { rewrite Forall_forall in Hmv. apply Hmv. rewrite E.
      apply in_or_app. right. now left. }
    destruct Hmv' as (Hsx & Hsy & Hdx & Hdy).
    destruct (disp_exact _ _ Hsx Hdx) as [Ex _].
    destruct (disp_exact _ _ Hsy Hdy) as [Ey _].
    rewrite Ex, Ey in H. exact H.
Qed.

Lemma X6_binning_last_writer_wins_witness :
  let g := bin_vectors (fresh_cur Examples.cfg16 1 0 "P")
             [Examples.mv_a; Examples.mv_still] in
  dx g 1 1 = 0 /\ dy g 1 1 = 0 /\ occupancy g 1 1 = 1.
Proof.
  destruct (X6_binning_last_writer_wins Examples.cfg16 1 0 "P"
              [Examples.mv_a; Examples.mv_still]) as [_ Hlast].
  - vm_compute. discriminate.
  - vm_compute. discriminate.
  - repeat constructor; simpl; unfold in_int16; lia.
  - apply (Hlast [Examples.mv_a] Examples.mv_still [] 1 1);
      [reflexivity|reflexivity|intros mv' []].
Defined.

(** ** The neighbour fill *)

Lemma interior_of_bounds f i j :
  1 <= fst (Shape f) <= MAX_GRID_SIZE ->
  1 <= snd (Shape f) <= MAX_GRID_SIZE ->
  1 <= i < to_size_t (fst (Shape f) - 1) ->
  1 <= j < to_size_t (snd (Shape f) - 1) ->
  interior f i j.
Proof.
  intros Hr Hc. rewrite (fill_bound _ Hr), (fill_bound _ Hc).
  unfold interior. lia.
Qed.

(** X7. The pass is conservative.  After it, a cell either is as it was
    before the pass (occupancy and displacement), or it was empty, lies in
    the interior, carries the tag 2 and has, in the result, two occupied
    neighbours to its left and right or above and below.  In particular the
    cells tagged 1 are the binned ones and no occupied cell is rewritten. *)
Theorem X7_fill_is_conservative f :
  1 <= fst (Shape f) <= MAX_GRID_SIZE ->
  1 <= snd (Shape f) <= MAX_GRID_SIZE ->
  let g := FillInSomeMissingVectorsInGrid8 f in
  forall i j,
    (occupancy g i j = occupancy f i j /\
     dx g i j = dx f i j /\ dy g i j = dy f i j) \/
    (occupancy f i j = 0 /\ occupancy g i j = 2 /\
     interior f i j /\ bracketed g i j).
Proof.
  intros Hr Hc g.
  set (Q := fun x : FrameInfo =>
    (forall i j, occupancy f i j <> 0 -> occupancy x i j <> 0) /\
    forall i j,
      (occupancy x i j = occupancy f i j /\
       dx x i j = dx f i j /\ dy x i j = dy f i j) \/
      (occupancy f i j = 0 /\ occupancy x i j = 2 /\
       interior f i j /\ bracketed x i j)).
  assert (HQ : Q g).
  { apply Fill_inv.
    - split; [tauto|]. intros i j. left. tauto.
    - intros i0 j0 x Hi0 Hj0 [Hmono Hx].
      pose proof (interior_of_bounds f i0 j0 Hr Hc Hi0 Hj0) as Hint.
      assert (Hkeep : forall i j, occupancy x i j <> 0 ->
                occupancy (fill_cell i0 j0 x) i j = occupancy x i j).
      { intros i j Hocc.
        destruct (fill_cell_frame i0 j0 x i j) as (_ & _ & E); [now right|].
        exact E. }
      assert (Hbr : forall i j, bracketed x i j ->
                                bracketed (fill_cell i0 j0 x) i j).
      { intros i j [[H1 H2]|[H1 H2]]; [left|right];
          rewrite !Hkeep by assumption; tauto. }
      assert (Hnew : occupancy x i0 j0 = 0 ->
                bracketed x i0 j0 -> occupancy (fill_cell i0 j0 x) i0 j0 = 2 ->
                occupancy f i0 j0 = 0 /\ occupancy (fill_cell i0 j0 x) i0 j0 = 2 /\
                interior f i0 j0 /\ bracketed (fill_cell i0 j0 x) i0 j0).
      { intros H0 Hb H2.
        assert (occupancy f i0 j0 = 0).
        { destruct (Z.eq_dec (occupancy f i0 j0) 0) as [E|E]; [exact E|].
          exfalso. now apply (Hmono i0 j0 E). }
        repeat split; try assumption; try apply Hint. now apply Hbr. }
      split.
      + intros i j Hocc. rewrite Hkeep by (now apply Hmono). now apply Hmono.
      + intros i j.
        destruct (Z.eq_dec i i0) as [->|Hi];
          [destruct (Z.eq_dec j j0) as [->|Hj]|].
        * destruct (fill_cell_cases i0 j0 x) as [H0 Hl Hrt|H0 Hh Ht Hb|Hskip].
          -- right. apply Hnew; [exact H0|left; tauto|simpl; apply upd2_same].
          -- right. apply Hnew; [exact H0|right; tauto|simpl; apply upd2_same].
          -- destruct (Hx i0 j0) as [H|(H1 & H2 & H3 & H4)]; [left; exact H|].
             right. tauto.
        * destruct (fill_cell_frame i0 j0 x i0 j) as (Ex & Ey & Eo);
            [left; congruence|].
          rewrite Ex, Ey, Eo.
          destruct (Hx i0 j) as [H|(H1 & H2 & H3 & H4)]; [left; exact H|].
          right. repeat split; try assumption; try apply H3. now apply Hbr.
        * destruct (fill_cell_frame i0 j0 x i j) as (Ex & Ey & Eo);
            [left; congruence|].
          rewrite Ex, Ey, Eo.
          destruct (Hx i j) as [H|(H1 & H2 & H3 & H4)]; [left; exact H|].
          right. repeat split; try assumption; try apply H3. now apply Hbr. }
  intros i j. apply HQ.
Qed.

Lemma X7_fill_is_conservative_witness :
  let f := bin_vectors (fresh_cur Examples.cfg8 1 0 "P") Examples.donors in
  let g := FillInSomeMissingVectorsInGrid8 f in
  (occupancy g 1 1 = occupancy f 1 1 /\
   dx g 1 1 = dx f 1 1 /\ dy g 1 1 = dy f 1 1) \/
  (occupancy f 1 1 = 0 /\ occupancy g 1 1 = 2 /\
   interior f 1 1 /\ bracketed g 1 1).
Proof.
  apply (X7_fill_is_conservative
           (bin_vectors (fresh_cur Examples.cfg8 1 0 "P") Examples.donors)).
  - vm_compute. split; discriminate.
  - vm_compute. split; discriminate.
Defined.

Lemma Fill_nothing_to_fill f :
  (forall i j, occupancy f i j = 0) ->
  forall i j,
    dx (FillInSomeMissingVectorsInGrid8 f) i j = dx f i j /\
    dy (FillInSomeMissingVectorsInGrid8 f) i j = dy f i j /\
    occupancy (FillInSomeMissingVectorsInGrid8 f) i j = 0.
Proof.
  intros Hzero.
  apply (Fill_inv (fun x => forall i j,
           dx x i j = dx f i j /\ dy x i j = dy f i j /\ occupancy x i j = 0)).
  - intros i j. rewrite Hzero. tauto.
  - intros i0 j0 x _ _ Hx i j.
    destruct (fill_cell_cases i0 j0 x) as [_ Hl _|_ _ Ht _|_]; [| |apply Hx].
    + exfalso. apply Hl. apply Hx.
    + exfalso. apply Ht. apply Hx.
Qed.

(** X8. On a stream at least one grid step high and wide, the grid built
    for a frame without vectors is empty on either grid step: every cell has displacement 0 and occupancy 0, and the grid is
    flagged empty and not printed.  The neighbour fill puts nothing into a
    grid that has no occupied cell. *)
Theorem X8_grid_of_frame_without_vectors cfg fi pts pt :
  1 <= fst (shape cfg) -> 1 <= snd (shape cfg) ->
  let cur := build_cur cfg fi pts pt [] in
  Empty cur = true /\ Printed cur = false /\ Origin cur = "video"%string /\
  forall i j, dx cur i j = 0 /\ dy cur i j = 0 /\ occupancy cur i j = 0.
Proof.
  intros Hrows Hcols cur.
  destruct (build_cur_fields cfg fi pts pt [])
    as (_ & _ & _ & _ & _ & Ho & Hp & He). fold cur in Ho, Hp, He.
  split; [exact He|]. split; [exact Hp|]. split; [exact Ho|].
  intros i j. unfold cur, build_cur. simpl.
  destruct (gridStep cfg =? 8); [|simpl; unfold zeros; tauto].
  destruct (Fill_nothing_to_fill (fresh_cur cfg fi pts pt)
              (fun _ _ => eq_refl) i j) as (-> & -> & ->).
  simpl. unfold zeros. tauto.
Qed.

Lemma X8_grid_of_frame_without_vectors_witness :
  let cur := build_cur Examples.cfg8 2 11 "P" [] in
  Empty cur = true /\ occupancy cur 1 1 = 0 /\ dx cur 1 1 = 0.
Proof.
  destruct (X8_grid_of_frame_without_vectors Examples.cfg8 2 11 "P")
    as (Hempty & _ & _ & Hcells).
  - vm_compute. discriminate.
  - vm_compute. discriminate.
  - destruct (Hcells 1 1) as (Hx & _ & Ho). repeat split; assumption.
Defined.

(** ** Interpolation *)

Lemma InterpolateFlow_outside this p n i j :
  ~ (0 <= i < fst (Shape this) /\ 0 <= j < snd (Shape this)) ->
  dx (InterpolateFlow this p n) i j = dx this i j /\
  dy (InterpolateFlow this p n) i j = dy this i j.
Proof.
  intros Hout. unfold InterpolateFlow. simpl.
  apply (for_loop_inv (fun x => dx x i j = dx this i j /\
                                dy x i j = dy this i j)); [tauto|].
  intros i0 x Hi0 Hx. apply for_loop_inv; [exact Hx|].
  intros j0 y Hj0 Hy. simpl.
  rewrite !upd2_other by (intros E; inversion E; subst; apply Hout; lia).
  exact Hy.
Qed.

Lemma quot2_between a b :
  Z.min a b <= Z.quot (a + b) 2 <= Z.max a b.
Proof. Z.quot_rem_to_equations. lia. Qed.

(** X9. An interpolated cell lies between the two cells it is computed
    from, and equals them when they are equal; cells outside the grid shape
    keep the value they had.  Stated for operands whose cells are in the
    displacement range, where the [int] sum is exact. *)
Theorem X9_interpolation_between_neighbours this p n :
  bounded p -> bounded n ->
  let m := InterpolateFlow this p n in
  (forall i j, 0 <= i < fst (Shape this) -> 0 <= j < snd (Shape this) ->
     Z.min (dx p i j) (dx n i j) <= dx m i j <= Z.max (dx p i j) (dx n i j) /\
     Z.min (dy p i j) (dy n i j) <= dy m i j <= Z.max (dy p i j) (dy n i j) /\
     (dx p i j = dx n i j -> dx m i j = dx p i j) /\
     (dy p i j = dy n i j -> dy m i j = dy p i j)) /\
  (forall i j, ~ (0 <= i < fst (Shape this) /\ 0 <= j < snd (Shape this)) ->
     dx m i j = dx this i j /\ dy m i j = dy this i j).
Proof.
  intros Hp Hn m. split.
  - intros i j Hi Hj.
    destruct (InterpolateFlow_cell this p n i j Hi Hj) as [Ex Ey].
    fold m in Ex, Ey. rewrite Ex, Ey.
    rewrite !avg_exact by first [apply Hp | apply Hn].
    pose proof (quot2_between (dx p i j) (dx n i j)) as Bx.
    pose proof (quot2_between (dy p i j) (dy n i j)) as By.
    split; [exact Bx|]. split; [exact By|]. split; intros E.
    + rewrite <- E in Bx. rewrite Z.min_id, Z.max_id in Bx. rewrite <- E. lia.
    + rewrite <- E in By. rewrite Z.min_id, Z.max_id in By. rewrite <- E. lia.
  - intros i j Hout. now apply InterpolateFlow_outside.
Qed.

Lemma X9_interpolation_between_neighbours_witness :
  let cur := build_cur Examples.cfg16 3 12 "P" [Examples.mv_a] in
  let m := InterpolateFlow Examples.window_back Examples.window_front cur in
  dx m 1 1 = dx Examples.window_front 1 1.
Proof.
  destruct (X9_interpolation_between_neighbours Examples.window_back
              Examples.window_front
              (build_cur Examples.cfg16 3 12 "P" [Examples.mv_a]))
    as [Hin _].
  - intros i j. apply (build_cur_bounded Examples.cfg16 1 10 "P" [Examples.mv_a]).
    repeat constructor; simpl; unfold in_int16; lia.
  - apply build_cur_bounded.
    repeat constructor; simpl; unfold in_int16; lia.
  - destruct (Hin 1 1) as (_ & _ & Hx & _);
      [vm_compute; split; congruence ..|].
    apply Hx. vm_compute. reflexivity.
Defined.

(** ** The output of a run, frame by frame *)

Lemma has_vectors_false c : has_vectors c = false <-> c_vectors c = [].
Proof. unfold has_vectors. destruct (c_vectors c); simpl; split; congruence. Qed.

Lemma has_vectors_true c : has_vectors c = true <-> c_vectors c <> [].
Proof. unfold has_vectors. destruct (c_vectors c); simpl; split; congruence. Qed.

Lemma grid_of_fields cfg c :
  Printed (grid_of cfg c) = false /\
  Empty (grid_of cfg c) = negb (has_vectors c) /\
  Origin (grid_of cfg c) = "video"%string /\
  key (grid_of cfg c) = call_key c.
Proof.
  unfold grid_of, has_vectors, key, call_key.
  destruct (build_cur_fields cfg (c_index c) (c_pts c) (c_pict_type c)
              (c_vectors c)) as (_ & _ & -> & -> & _ & -> & -> & ->).
  now rewrite negb_involutive.
Qed.

Lemma unprinted_grids cfg cs :
  unprinted (map (grid_of cfg) cs) = map (grid_of cfg) cs.
Proof.
  induction cs as [|c cs IH]; simpl; [reflexivity|].
  destruct (grid_of_fields cfg c) as (-> & _). simpl. now rewrite IH.
Qed.

(** The grid of a call with vectors is never replaced, whatever surrounds
    it, and what precedes it does not depend on what follows it. *)
Lemma arranged_grids_split cfg l : forall b v r,
  has_vectors v = true ->
  arranged_grids cfg b (l ++ v :: r)
  = arranged_grids cfg b (l ++ [v]) ++ arranged_grids cfg (Some v) r.
Proof.
  induction l as [|c l IH]; intros b v r Hv.
  - simpl. rewrite Hv. simpl.
    destruct b as [b|]; destruct r as [|n r]; reflexivity.
  - change ((c :: l) ++ v :: r) with (c :: (l ++ v :: r)).
    change ((c :: l) ++ [v]) with (c :: (l ++ [v])).
    cbn [arranged_grids]. rewrite (IH (Some c) v r Hv).
    destruct l as [|c' l]; reflexivity.
Qed.

(** A stretch of calls without vectors is printed as it is. *)
Lemma arranged_grids_no_vectors cfg E : forall b,
  Forall (fun c => has_vectors c = false) E ->
  arranged_grids cfg b E = map (grid_of cfg) E.
Proof.
  induction E as [|e E IH]; intros b HE; [reflexivity|].
  inversion HE as [|? ? He HE']; subst.
  cbn [arranged_grids map]. rewrite (IH (Some e) HE').
  destruct b as [b|]; [|reflexivity].
  destruct E as [|n E]; [reflexivity|].
  inversion HE' as [|? ? Hn _]; subst. rewrite Hn.
  now rewrite !andb_false_r.
Qed.

(** Calls without vectors followed by a call with vectors: none of them is
    interpolated when the call before them has no vectors, or when there are
    at least two of them. *)
Lemma arranged_grids_after_no_vectors cfg E : forall b c,
  Forall (fun c => has_vectors c = false) E ->
  match b with Some b' => has_vectors b' = false | None => True end ->
  arranged_grids cfg b (E ++ [c]) = map (grid_of cfg) E ++ [grid_of cfg c].
Proof.
  induction E as [|e E IH]; intros b c HE Hb.
  - simpl. destruct b; reflexivity.
  - inversion HE as [|? ? He HE']; subst.
    change ((e :: E) ++ [c]) with (e :: (E ++ [c])).
    cbn [arranged_grids map app]. rewrite (IH (Some e) c HE' He).
    destruct b as [b|]; [|reflexivity]. rewrite Hb.
    destruct (E ++ [c]); [reflexivity|]. now rewrite andb_false_r.
Qed.

Lemma arranged_grids_long_gap cfg e1 e2 E b c :
  Forall (fun c => has_vectors c = false) (e1 :: e2 :: E) ->
  arranged_grids cfg b ((e1 :: e2 :: E) ++ [c])
  = map (grid_of cfg) (e1 :: e2 :: E) ++ [grid_of cfg c].
Proof.
  intros HE. inversion HE as [|? ? H1 HE']; subst.
  inversion HE' as [|? ? H2 _]; subst.
  change ((e1 :: e2 :: E) ++ [c]) with (e1 :: ((e2 :: E) ++ [c])).
  cbn [arranged_grids]. 
  rewrite (arranged_grids_after_no_vectors cfg (e2 :: E) (Some e1) c HE' H1).
  destruct b as [b|]; [|reflexivity].
  cbn [app]. rewrite H2. now rewrite andb_false_r.
Qed.

Lemma emitted_grids_print_all s cur :
  emitted_grids
    {| prev := [set_Printed cur true];
       printer := emit (fold_left emit (unprinted (prev s)) (printer s)) cur |}
  = emitted_grids s ++ unprinted (prev s) ++ [cur].
Proof.
  unfold emitted_grids. simpl. rewrite map_app, emitted_fold_emit. simpl.
  now rewrite <- app_assoc.
Qed.

Lemma trace_state_init cfg : trace_state cfg [] pipeline_init.
Proof. apply trace_no_vectors_yet; [constructor|reflexivity|reflexivity]. Qed.

Lemma trace_state_step cfg cs s c :
  trace_state cfg cs s -> c_index c <> -1 ->
  trace_state cfg (cs ++ [c]) (deliver cfg s c).
Proof.
  intros Hst Hfi.
  assert (Hno : has_vectors c = false ->
            deliver cfg s c
            = {| prev := prev s ++ [grid_of cfg c]; printer := printer s |}).
  { intros Hc. apply has_vectors_false in Hc.
    unfold deliver, grid_of. rewrite Hc. now apply path_no_vectors. }
  assert (Hall : has_vectors c = true ->
            (forall front back, prev s = [front; back] -> Empty front = true) ->
            deliver cfg s c
            = {| prev := [set_Printed (grid_of cfg c) true];
                 printer := emit (fold_left emit (unprinted (prev s))
                                    (printer s)) (grid_of cfg c) |}).
  { intros Hc Hnot. apply has_vectors_true in Hc.
    unfold deliver, grid_of. now apply path_print_all. }
  destruct (has_vectors c) eqn:Hc.
  - (* a call with vectors *)
    destruct Hst as [HE Hout Hprev | A v E Hcs Hv HE Hout Hprev].
    + rewrite Hall; [|reflexivity|].
      * apply (trace_after_vectors cfg _ _ cs c []);
          [reflexivity|exact Hc|constructor| |reflexivity].
        rewrite emitted_grids_print_all, Hout, Hprev, unprinted_grids.
        simpl. symmetry. now apply arranged_grids_after_no_vectors.
      * rewrite Hprev. intros front back E.
        destruct cs as [|e1 [|e2 [|e3 cs']]]; try discriminate.
        simpl in E. inversion E; subst.
        inversion HE as [|? ? He1 _]; subst.
        destruct (grid_of_fields cfg e1) as (_ & -> & _). now rewrite He1.
    + assert (Hfront : Empty (set_Printed (grid_of cfg v) true) = false).
      { simpl. destruct (grid_of_fields cfg v) as (_ & -> & _). now rewrite Hv. }
      assert (Hsplit : arranged_grids cfg None ((cs ++ [c]))
                = arranged_grids cfg None (A ++ [v])
                  ++ arranged_grids cfg (Some v) (E ++ [c])).
      { rewrite Hcs, <- app_assoc. simpl.
        now apply arranged_grids_split. }
      apply (trace_after_vectors cfg _ _ cs c []);
        [reflexivity|exact Hc|constructor| |].
      * rewrite Hsplit.
        destruct E as [|e [|e2 E']].
        -- (* nothing waits *)
           rewrite Hall; [|reflexivity|rewrite Hprev; discriminate].
           rewrite emitted_grids_print_all, Hout, Hprev. reflexivity.
        -- (* one grid waits: it is interpolated *)
           inversion HE as [|? ? He _]; subst.
           unfold deliver.
           rewrite (path_interpolate cfg (c_index c) (c_pts c) (c_pict_type c)
                      Hfi (c_vectors c) s (set_Printed (grid_of cfg v) true)
                      (grid_of cfg e));
             [ | now apply has_vectors_true | exact Hprev | exact Hfront
               | apply grid_of_fields ].
           unfold emitted_grids in *. simpl. rewrite !map_app. simpl.
           rewrite <- app_assoc, Hout. simpl.
           rewrite He, Hv, Hc. reflexivity.
        -- (* two or more wait: they are printed as they are *)
           rewrite Hall; [|reflexivity|rewrite Hprev; discriminate].
           rewrite emitted_grids_print_all, Hout, Hprev.
           change (unprinted (set_Printed (grid_of cfg v) true
                              :: map (grid_of cfg) (e :: e2 :: E')))
             with (unprinted (map (grid_of cfg) (e :: e2 :: E'))).
           rewrite unprinted_grids.
           now rewrite (arranged_grids_long_gap cfg e e2 E' (Some v) c HE).
      * destruct E as [|e [|e2 E']].
        -- rewrite Hall; [reflexivity|reflexivity|rewrite Hprev; discriminate].
        -- unfold deliver.
           rewrite (path_interpolate cfg (c_index c) (c_pts c) (c_pict_type c)
                      Hfi (c_vectors c) s (set_Printed (grid_of cfg v) true)
                      (grid_of cfg e));
             [ reflexivity | now apply has_vectors_true | exact Hprev
             | exact Hfront | apply grid_of_fields ].
        -- rewrite Hall; [reflexivity|reflexivity|rewrite Hprev; discriminate].
  - (* a call without vectors *)
    rewrite Hno by reflexivity.
    destruct Hst as [HE Hout Hprev | A v E Hcs Hv HE Hout Hprev].
    + apply trace_no_vectors_yet.
      * apply Forall_app. split; [exact HE|now constructor].
      * exact Hout.
      * simpl. now rewrite Hprev, map_app.
    + apply (trace_after_vectors cfg _ _ A v (E ++ [c])).
      * rewrite Hcs, <- app_assoc. reflexivity.
      * exact Hv.
      * apply Forall_app. split; [exact HE|now constructor].
      * exact Hout.
      * simpl. now rewrite Hprev, map_app.
Qed.

Lemma trace_state_run cfg cs :
  Forall (fun c => c_index c <> -1) cs ->
  trace_state cfg cs (deliver_all cfg cs pipeline_init).
Proof.
  induction cs as [|c cs IH] using rev_ind; intros Hreal.
  - apply trace_state_init.
  - apply Forall_app in Hreal. destruct Hreal as [Hcs Hc].
    inversion Hc; subst. rewrite deliver_all_snoc.
    apply trace_state_step; [now apply IH|assumption].
Qed.

(** The printed grids of a whole run are [arranged_grids]. *)
Lemma arranged_output cfg cs pts pt mvs :
  Forall (fun c => c_index c <> -1) cs ->
  emitted_grids (flush cfg pts pt mvs (deliver_all cfg cs pipeline_init))
  = arranged_grids cfg None cs.
Proof.
  intros Hreal. rewrite emitted_grids_flush.
  destruct (trace_state_run cfg cs Hreal)
    as [HE Hout Hprev | A v E Hcs Hv HE Hout Hprev].
  - rewrite Hout, Hprev, unprinted_grids. simpl. symmetry.
    now apply arranged_grids_no_vectors.
  - rewrite Hout, Hprev.
    change (unprinted (set_Printed (grid_of cfg v) true :: map (grid_of cfg) E))
      with (unprinted (map (grid_of cfg) E)).
    rewrite unprinted_grids, Hcs, (arranged_grids_split cfg A None v E Hv).
    now rewrite (arranged_grids_no_vectors cfg E (Some v) HE).
Qed.

(** X10. The whole output of a run, read off the delivered frames alone,
    on a stream at least one grid step high and wide.
    After the end-of-stream call the printed grids are, in order, the grids
    built for the frames, except that the grid of a frame without vectors
    standing between two frames with vectors is replaced by its
    interpolation between the grids of these two frames. *)
Theorem X10_output_frame_by_frame cfg cs pts pt mvs :
  1 <= fst (shape cfg) -> 1 <= snd (shape cfg) ->
  Forall (fun c => c_index c <> -1) cs ->
  emitted_grids (flush cfg pts pt mvs (deliver_all cfg cs pipeline_init))
  = arranged_grids cfg None cs.
Proof. intros Hrows Hcols. apply arranged_output. Qed.

Lemma X10_output_frame_by_frame_witness :
  map Origin (emitted_grids
    (flush Examples.cfg16 0 "P" []
       (deliver_all Examples.cfg16
          [Examples.call 1 10 [Examples.mv_a]; Examples.call 2 11 [];
           Examples.call 3 12 [Examples.mv_a]; Examples.call 4 13 [];
           Examples.call 5 14 []; Examples.call 6 15 [Examples.mv_a]]
          pipeline_init)))
  = ["video"; "interpolated"; "video"; "video"; "video"; "video"]%string.
Proof.
  rewrite (X10_output_frame_by_frame Examples.cfg16
             [Examples.call 1 10 [Examples.mv_a]; Examples.call 2 11 [];
              Examples.call 3 12 [Examples.mv_a]; Examples.call 4 13 [];
              Examples.call 5 14 []; Examples.call 6 15 [Examples.mv_a]]
             0 "P" []).
  - vm_compute. reflexivity.
  - vm_compute. discriminate.
  - vm_compute. discriminate.
  - repeat constructor; simpl; lia.
Defined.

Lemma arranged_grids_nth cfg cs : forall b k,
  nth_error (arranged_grids cfg b cs) k
  = match nth_error cs k with
    | None => None
    | Some c =>
        Some (match call_before b cs k, nth_error cs (S k) with
              | Some b', Some n =>
                  if negb (has_vectors c) && has_vectors b' && has_vectors n
                  then InterpolateFlow (grid_of cfg c)
                         (set_Printed (grid_of cfg b') true) (grid_of cfg n)
                  else grid_of cfg c
              | _, _ => grid_of cfg c
              end)
    end.
Proof.
  induction cs as [|c rest IH]; intros b k.
  - destruct k; reflexivity.
  - destruct k as [|k].
    + cbn [arranged_grids nth_error call_before].
      destruct b as [b|]; destruct rest as [|n rest']; reflexivity.
    + cbn [arranged_grids nth_error]. rewrite (IH (Some c) k).
      destruct (nth_error rest k) as [c'|]; [|reflexivity].
      destruct k; reflexivity.
Qed.

Lemma InterpolateFlow_key this p n :
  key (InterpolateFlow this p n) = key this.
Proof.
  destruct (InterpolateFlow_fields this p n)
    as (_ & _ & _ & _ & _ & Hp & Hi & _).
  unfold key. now rewrite Hp, Hi.
Qed.

(** X11. Which blocks are interpolated, on a stream at least one grid step
    high and wide.  The output of a run has one grid
    per delivered frame, with that frame's index and timestamp.  Its origin
    is "interpolated" exactly when the frame has no vectors and the frames
    right before and right after it both have vectors; every other grid is
    the grid built for its frame, with origin "video". *)
Theorem X11_interpolated_exactly_between_vector_frames cfg cs pts pt mvs :
  1 <= fst (shape cfg) -> 1 <= snd (shape cfg) ->
  Forall (fun c => c_index c <> -1) cs ->
  let out := emitted_grids
               (flush cfg pts pt mvs (deliver_all cfg cs pipeline_init)) in
  length out = length cs /\
  forall k c, nth_error cs k = Some c ->
    exists g, nth_error out k = Some g /\ key g = call_key c /\
      (Origin g = "interpolated"%string <-> between_vector_frames cs k) /\
      (~ between_vector_frames cs k ->
         g = grid_of cfg c /\ Origin g = "video"%string).
Proof.
  intros Hrows Hcols Hreal out. unfold out. rewrite (arranged_output cfg cs pts pt mvs Hreal).
  split.
  - clear. generalize (@None Call). induction cs as [|c cs IH]; intros b;
      [reflexivity|]. cbn [arranged_grids length]. now rewrite IH.
  - intros k c Hk. rewrite arranged_grids_nth, Hk.
    eexists. split; [reflexivity|].
    destruct (grid_of_fields cfg c) as (_ & _ & Horig & Hkey).
    assert (Hplain : ~ between_vector_frames cs k ->
      key (grid_of cfg c) = call_key c /\
      (Origin (grid_of cfg c) = "interpolated"%string
       <-> between_vector_frames cs k) /\
      (~ between_vector_frames cs k ->
       grid_of cfg c = grid_of cfg c /\ Origin (grid_of cfg c) = "video"%string)).
    { intros Hnot. split; [exact Hkey|]. split; [|tauto].
      rewrite Horig. split; [discriminate|tauto]. }
    destruct (call_before None cs k) as [b|] eqn:Hb.
    2:{ apply Hplain. intros (_ & (k' & b & -> & Hk' & _) & _).
        simpl in Hb. congruence. }
    destruct (nth_error cs (S k)) as [n|] eqn:Hn.
    2:{ apply Hplain. intros (_ & _ & (n & Hn' & _)). congruence. }
    destruct (has_vectors c) eqn:Hc.
    { apply Hplain. intros ((c' & Hk' & Hc') & _). congruence. }
    destruct (has_vectors b) eqn:Hvb.
    2:{ apply Hplain. intros (_ & (k' & b' & -> & Hk' & Hb') & _).
        simpl in Hb. congruence. }
    destruct (has_vectors n) eqn:Hvn.
    2:{ apply Hplain. intros (_ & _ & (n' & Hn' & Hvn')). congruence. }
    assert (Hbetween : between_vector_frames cs k).
    { split; [now exists c|]. split; [|now exists n].
      destruct k as [|k']; [discriminate|]. simpl in Hb. now exists k', b. }
    cbn [negb andb]. split; [rewrite InterpolateFlow_key; exact Hkey|].
    split; [|tauto].
    destruct (InterpolateFlow_fields (grid_of cfg c)
                (set_Printed (grid_of cfg b) true) (grid_of cfg n))
      as (_ & _ & -> & _). tauto.
Qed.

Lemma X11_interpolated_exactly_between_vector_frames_witness :
  between_vector_frames
    [Examples.call 1 10 [Examples.mv_a]; Examples.call 2 11 [];
     Examples.call 3 12 [Examples.mv_a]] 1.
Proof.
  destruct (X11_interpolated_exactly_between_vector_frames Examples.cfg16
              [Examples.call 1 10 [Examples.mv_a]; Examples.call 2 11 [];
               Examples.call 3 12 [Examples.mv_a]] 0 "P" [])
    as [_ Hout].
  - vm_compute. discriminate.
  - vm_compute. discriminate.
  - repeat constructor; simpl; lia.
  - destruct (Hout 1%nat (Examples.call 2 11 []) eq_refl)
      as (g & Hg & _ & Hiff & _).
    apply Hiff. vm_compute in Hg. injection Hg as <-. reflexivity.
Defined.

(** ** The raw emitter *)

(** X12. The raw block of a frame shows the timestamp as delivered and
    counts every vector of the frame in its header, but lists only the
    vectors that move: the rows are, in input order, the vectors with
    [dst <> src], each with its destination and its displacement
    [dst - src], and no row has displacement (0, 0). *)
Theorem X12_raw_block_rows fi pts pt mvs :
  Forall int16_mv mvs ->
  let b := output_vectors_raw fi pts pt mvs in
  let moves mv := negb ((dst_x mv =? src_x mv) && (dst_y mv =? src_y mv)) in
  r_pts b = pts /\ r_frame_index b = fi /\
  r_count b = Z.of_nat (length mvs) /\
  r_rows b = map (fun mv => (dst_x mv, dst_y mv,
                             dst_x mv - src_x mv, dst_y mv - src_y mv))
                 (filter moves mvs) /\
  Forall (fun row => snd (fst row) <> 0 \/ snd row <> 0) (r_rows b) /\
  (length (r_rows b) <= length mvs)%nat.
Proof.
  intros Hmv b moves.
  assert (Hrows : r_rows b
    = map (fun mv => (dst_x mv, dst_y mv,
                      dst_x mv - src_x mv, dst_y mv - src_y mv))
          (filter moves mvs)).
  { unfold b, output_vectors_raw. cbn [r_rows].
    induction Hmv as [|mv mvs (Hsx & Hsy & Hdx & Hdy) _ IH]; [reflexivity|].
    cbn [filter]. unfold raw_nonzero at 1. unfold moves at 1.
    destruct (disp_exact _ _ Hsx Hdx) as [Ex _].
    destruct (disp_exact _ _ Hsy Hdy) as [Ey _].
    rewrite Ex, Ey.
    assert (E : negb (dst_x mv - src_x mv =? 0) || negb (dst_y mv - src_y mv =? 0)
                = negb ((dst_x mv =? src_x mv) && (dst_y mv =? src_y mv))).
    { destruct (Z.eqb_spec (dst_x mv - src_x mv) 0),
               (Z.eqb_spec (dst_y mv - src_y mv) 0),
               (Z.eqb_spec (dst_x mv) (src_x mv)),
               (Z.eqb_spec (dst_y mv) (src_y mv)); simpl; try reflexivity; lia. }
    rewrite E.
    destruct (negb ((dst_x mv =? src_x mv) && (dst_y mv =? src_y mv)));
      [|exact IH].
    cbn [map]. rewrite Ex, Ey, IH. reflexivity. }
  split; [reflexivity|]. split; [reflexivity|]. split; [reflexivity|].
  split; [exact Hrows|]. split.
  - rewrite Hrows. apply Forall_forall. intros row Hrow.
    apply in_map_iff in Hrow. destruct Hrow as (mv & <- & Hin).
    apply filter_In in Hin. destruct Hin as [_ Hm]. unfold moves in Hm.
    simpl.
    destruct (Z.eqb_spec (dst_x mv) (src_x mv));
    destruct (Z.eqb_spec (dst_y mv) (src_y mv)); simpl in Hm;
      try discriminate; lia.
  - rewrite Hrows, length_map. apply filter_length_le.
Qed.

Lemma X12_raw_block_rows_witness :
  let b := output_vectors_raw 1 0 "P"
             [Examples.mv_a; Examples.mv_still] in
  r_count b = 2 /\ r_rows b = [(17, 16, 4, -2)].
Proof.
  destruct (X12_raw_block_rows 1 0 "P" [Examples.mv_a; Examples.mv_still])
    as (_ & _ & Hcount & Hrows & _).
  - repeat constructor; simpl; unfold in_int16; lia.
  - split; [exact Hcount|rewrite Hrows; reflexivity].
Defined.

(** ** The dispatcher over a whole stream *)

Lemma frameCallback_prev_pts cfg m fr :
  prev_pts (frameCallback cfg m fr)
  = if (f_pts fr <=? prev_pts m) && negb (prev_pts m =? -1)
    then prev_pts m else f_pts fr.
Proof.
  unfold frameCallback.
  destruct ((f_pts fr <=? prev_pts m) && negb (prev_pts m =? -1));
    [reflexivity|].
  destruct (ARG_OUTPUT_RAW_MOTION_VECTORS cfg); reflexivity.
Qed.

(** In raw mode the raw emitter sees exactly the forwarded frames and the
    arranged pipeline is never called. *)
Lemma raw_run cfg fs :
  ARG_OUTPUT_RAW_MOTION_VECTORS cfg = true ->
  forall m,
    stdout_raw (for_each_frame cfg fs m)
    = stdout_raw m
      ++ map raw_block (forwarded fs (frameIndex m) (prev_pts m)) /\
    pipeline (for_each_frame cfg fs m) = pipeline m.
Proof.
  intros Hraw. induction fs as [|fr fs IH]; intros m.
  - simpl. now rewrite app_nil_r.
  - unfold for_each_frame in *. simpl fold_left.
    destruct (IH (frameCallback cfg m fr)) as [IH1 IH2].
    rewrite IH1, IH2, frameCallback_index, frameCallback_prev_pts.
    simpl forwarded. unfold frameCallback. rewrite Hraw.
    destruct ((f_pts fr <=? prev_pts m) && negb (prev_pts m =? -1)); simpl.
    + tauto.
    + rewrite <- app_assoc. tauto.
Qed.

(** A forwarded frame carries its position in decode order, counted from 1
    over all delivered frames, dropped ones included. *)
Lemma forwarded_position fs : forall index last_pts c,
  0 <= index -> index + Z.of_nat (length fs) < 2 ^ 31 ->
  In c (forwarded fs index last_pts) ->
  exists k fr,
    nth_error fs k = Some fr /\
    c = {| c_index := index + Z.of_nat k + 1; c_pts := f_pts fr;
           c_pict_type := f_pict_type fr; c_vectors := f_vectors fr |}.
Proof.
  change (2 ^ 31) with 2147483648.
  induction fs as [|fr fs IH]; intros index last_pts c Hi Hlen Hin;
    [contradiction|].
  simpl length in Hlen. simpl forwarded in Hin.
  assert (E : wrap32 (index + 1) = index + 1)
    by (apply wrap32_small; unfold in_int32; lia).
  rewrite E in Hin.
  assert (Htail : forall lp, In c (forwarded fs (index + 1) lp) ->
    exists k fr0, nth_error (fr :: fs) k = Some fr0 /\
      c = {| c_index := index + Z.of_nat k + 1; c_pts := f_pts fr0;
             c_pict_type := f_pict_type fr0; c_vectors := f_vectors fr0 |}).
  { intros lp H. destruct (IH (index + 1) lp c) as (k & fr0 & Hk & ->);
      [lia|lia|exact H|].
    exists (S k), fr0. split; [exact Hk|]. f_equal. lia. }
  destruct ((f_pts fr <=? last_pts) && negb (last_pts =? -1)).
  - now apply (Htail last_pts).
  - destruct Hin as [<-|Hin]; [|now apply (Htail (f_pts fr))].
    exists 0%nat, fr. split; [reflexivity|]. f_equal. lia.
Qed.

Lemma forwarded_index_sorted fs : forall index last_pts,
  0 <= index -> index + Z.of_nat (length fs) < 2 ^ 31 ->
  StronglySorted Z.lt (map c_index (forwarded fs index last_pts)) /\
  Forall (fun i => index < i) (map c_index (forwarded fs index last_pts)).
Proof.
  change (2 ^ 31) with 2147483648.
  induction fs as [|fr fs IH]; intros index last_pts Hi Hlen;
    [split; constructor|].
  simpl length in Hlen. simpl forwarded.
  assert (E : wrap32 (index + 1) = index + 1)
    by (apply wrap32_small; unfold in_int32; lia).
  rewrite E.
  assert (Hup : forall l, Forall (fun i => index + 1 < i) l ->
                          Forall (fun i => index < i) l).
  { intros l H. eapply Forall_impl; [|exact H]. simpl. intros. lia. }
  destruct ((f_pts fr <=? last_pts) && negb (last_pts =? -1)).
  - destruct (IH (index + 1) last_pts) as [H1 H2]; [lia|lia|].
    split; [exact H1|now apply Hup].
  - destruct (IH (index + 1) (f_pts fr)) as [H1 H2]; [lia|lia|].
    simpl. split.
    + constructor; [exact H1|exact H2].
    + constructor; [lia|now apply Hup].
Qed.

(** When no delivered frame has timestamp -1, the forwarded timestamps
    increase strictly. *)
Lemma forwarded_pts_sorted fs :
  Forall (fun fr => f_pts fr <> -1) fs ->
  forall index last_pts,
    StronglySorted Z.lt (map c_pts (forwarded fs index last_pts)) /\
    (last_pts <> -1 ->
     Forall (fun p => last_pts < p) (map c_pts (forwarded fs index last_pts))).
Proof.
  induction 1 as [|fr fs Hfr _ IH]; intros index last_pts;
    [split; constructor|].
  simpl forwarded.
  destruct (Z.leb_spec (f_pts fr) last_pts) as [Hle|Hgt];
    destruct (Z.eqb_spec last_pts (-1)) as [Hl|Hl]; simpl.
  - destruct (IH (wrap32 (index + 1)) (f_pts fr)) as [H1 H2].
    split; [constructor; [exact H1|now apply H2]|]. intros C. contradiction.
  - apply IH.
  - destruct (IH (wrap32 (index + 1)) (f_pts fr)) as [H1 H2].
    split; [constructor; [exact H1|now apply H2]|]. intros C. contradiction.
  - destruct (IH (wrap32 (index + 1)) (f_pts fr)) as [H1 H2].
    split; [constructor; [exact H1|now apply H2]|]. intros _.
    constructor; [lia|]. eapply Forall_impl; [|apply (H2 Hfr)].
    simpl. intros. lia.
Qed.

(** Every delivered frame is either forwarded or, unless quiet, reported. *)
Lemma stderr_run cfg fs : forall m,
  (ARG_QUIET cfg = true -> stderr (for_each_frame cfg fs m) = stderr m) /\
  (ARG_QUIET cfg = false ->
   (length (stderr (for_each_frame cfg fs m))
    + length (forwarded fs (frameIndex m) (prev_pts m))
    = length (stderr m) + length fs)%nat).
Proof.
  induction fs as [|fr fs IH]; intros m;
    [simpl; split; intros; [reflexivity|lia]|].
  unfold for_each_frame in *. simpl fold_left.
  destruct (IH (frameCallback cfg m fr)) as [IHq IHn].
  rewrite frameCallback_index, frameCallback_prev_pts in IHn.
  simpl forwarded. simpl length.
  assert (Herr : stderr (frameCallback cfg m fr)
    = if (f_pts fr <=? prev_pts m) && negb (prev_pts m =? -1)
      then if negb (ARG_QUIET cfg)
           then stderr m ++ [Skipping (wrap32 (frameIndex m + 1))
                                      (wrap32 (f_pts fr))]
           else stderr m
      else stderr m).
  { unfold frameCallback.
    destruct ((f_pts fr <=? prev_pts m) && negb (prev_pts m =? -1));
      [reflexivity|].
    destruct (ARG_OUTPUT_RAW_MOTION_VECTORS cfg); reflexivity. }
  split.
  - intros Hq. rewrite (IHq Hq), Herr, Hq. simpl.
    now destruct ((f_pts fr <=? prev_pts m) && negb (prev_pts m =? -1)).
  - intros Hq. specialize (IHn Hq). rewrite Herr, Hq in IHn. simpl in IHn.
    destruct ((f_pts fr <=? prev_pts m) && negb (prev_pts m =? -1)).
    + rewrite length_app in IHn. simpl in IHn. lia.
    + simpl. lia.
Qed.

Lemma main_raw_outputs cfg pts0 pict0 frames ret :
  ARG_OUTPUT_RAW_MOTION_VECTORS cfg = true ->
  let m := for_each_frame cfg frames (main_init pts0 pict0) in
  let e := main cfg pts0 pict0 frames ret in
  stdout_raw (final e) = stdout_raw m /\ pipeline (final e) = pipeline m /\
  exit_code e = (if (ret <? 0) && negb (ret =? AVERROR_EOF) then 1 else 0).
Proof.
  intros Hraw m e. unfold e, main. fold m. rewrite Hraw.
  destruct ((ret <? 0) && negb (ret =? AVERROR_EOF)); simpl; tauto.
Qed.

(** X13. Raw mode.  Whatever the decoder returns, the arranged pipeline is
    never called and nothing is flushed; the output is one raw block per
    forwarded frame, in decode order, each the raw block of a delivered
    frame with that frame's position in decode order (counted from 1)
    as its index. *)
Theorem X13_raw_mode_output cfg pts0 pict0 frames ret :
  ARG_OUTPUT_RAW_MOTION_VECTORS cfg = true -> stream_ok frames ->
  let e := main cfg pts0 pict0 frames ret in
  pipeline (final e) = pipeline_init /\
  exit_code e = (if (ret <? 0) && negb (ret =? AVERROR_EOF) then 1 else 0) /\
  stdout_raw (final e) = map raw_block (forwarded frames 0 (-1)) /\
  (forall b, In b (stdout_raw (final e)) ->
     exists k fr, nth_error frames k = Some fr /\
       b = output_vectors_raw (Z.of_nat k + 1) (f_pts fr) (f_pict_type fr)
             (f_vectors fr)) /\
  Sorted Z.lt (map r_frame_index (stdout_raw (final e))).
Proof.
  intros Hraw [_ Hlen] e.
  destruct (main_raw_outputs cfg pts0 pict0 frames ret Hraw) as (Hout & Hpipe & Hexit).
  fold e in Hout, Hpipe, Hexit.
  destruct (raw_run cfg frames Hraw (main_init pts0 pict0)) as [Hrun Hsame].
  simpl in Hrun. rewrite Hrun in Hout. rewrite Hsame in Hpipe.
  split; [exact Hpipe|]. split; [exact Hexit|]. split; [exact Hout|]. split.
  - intros b Hb. rewrite Hout in Hb. apply in_map_iff in Hb.
    destruct Hb as (c & <- & Hc).
    destruct (forwarded_position frames 0 (-1) c) as (k & fr & Hk & ->);
      [lia|lia|exact Hc|].
    exists k, fr. split; [exact Hk|]. reflexivity.
  - rewrite Hout, map_map. apply StronglySorted_Sorted.
    destruct (forwarded_index_sorted frames 0 (-1)) as [Hs _]; [lia|lia|].
    rewrite <- (map_ext c_index) by reflexivity. exact Hs.
Qed.

Lemma X13_raw_mode_output_witness :
  let cfg := {| ARG_OUTPUT_RAW_MOTION_VECTORS := true;
                ARG_FORCE_GRID_8 := false; ARG_OUTPUT_OCCUPANCY := false;
                ARG_QUIET := false; width := 64; height := 64 |} in
  let e := main cfg 0 "?"
             [Examples.frame 5 [Examples.mv_a]; Examples.frame 5 [];
              Examples.frame 6 [Examples.mv_still]] (-5) in
  pipeline (final e) = pipeline_init /\
  map r_frame_index (stdout_raw (final e)) = [1; 3].
Proof.
  intros cfg e.
  destruct (X13_raw_mode_output cfg 0 "?"
              [Examples.frame 5 [Examples.mv_a]; Examples.frame 5 [];
               Examples.frame 6 [Examples.mv_still]] (-5))
    as (Hpipe & _ & Hout & _).
  - reflexivity.
  - split; [repeat constructor; simpl; unfold in_int16; lia|simpl; lia].
  - split; [exact Hpipe|]. fold e in Hout. rewrite Hout. reflexivity.
Defined.

Lemma main_arranged_grids cfg frames pts0 pict0 :
  ARG_OUTPUT_RAW_MOTION_VECTORS cfg = false -> stream_ok frames ->
  let s := pipeline (final (main cfg pts0 pict0 frames AVERROR_EOF)) in
  map key (emitted_grids s) = map call_key (forwarded frames 0 (-1)) /\
  map header_pts (emitted (printer s))
  = headers (-1) (map c_pts (forwarded frames 0 (-1))).
Proof.
  intros Hraw Hok s.
  destruct (main_is_a_run cfg frames pts0 pict0 Hraw Hok)
    as (cs & p & t & mvs & Hcs & Hreal & Hs).
  fold s in Hs. rewrite <- Hcs.
  destruct (flush_prints_run cfg cs p t mvs Hreal)
    as (gs & Hprinter & Hgrids & Hkeys & _).
  rewrite <- Hs in Hprinter, Hgrids.
  split; [now rewrite Hgrids|].
  rewrite Hprinter, header_pts_fold_emit. simpl.
  now rewrite (keys_pts _ _ Hkeys).
Qed.

(** X14. When no delivered frame has timestamp -1, the frames that reach an
    emitter have strictly increasing timestamps, whatever the order in which
    the decoder delivers them: in raw mode, and in arranged mode on a stream
    at least one grid step high and wide. *)
Theorem X14_emitters_see_increasing_pts cfg pts0 pict0 frames ret :
  Forall (fun fr => f_pts fr <> -1) frames ->
  (ARG_OUTPUT_RAW_MOTION_VECTORS cfg = true ->
   Sorted Z.lt (map r_pts
     (stdout_raw (final (main cfg pts0 pict0 frames ret))))) /\
  (ARG_OUTPUT_RAW_MOTION_VECTORS cfg = false -> stream_ok frames ->
   1 <= fst (shape cfg) -> 1 <= snd (shape cfg) ->
   Sorted Z.lt (map Pts (emitted_grids
     (pipeline (final (main cfg pts0 pict0 frames AVERROR_EOF)))))).
Proof.
  intros Hpts.
  destruct (forwarded_pts_sorted frames Hpts 0 (-1)) as [Hsorted _].
  apply StronglySorted_Sorted in Hsorted. split.
  - intros Hraw.
    destruct (main_raw_outputs cfg pts0 pict0 frames ret Hraw) as (-> & _).
    destruct (raw_run cfg frames Hraw (main_init pts0 pict0)) as [-> _].
    simpl. rewrite map_map.
    rewrite <- (map_ext c_pts) by reflexivity. exact Hsorted.
  - intros Hraw Hok Hrows Hcols.
    destruct (main_arranged_grids cfg frames pts0 pict0 Hraw Hok) as [Hkeys _].
    now rewrite (keys_pts _ _ Hkeys).
Qed.

Lemma X14_emitters_see_increasing_pts_witness :
  Sorted Z.lt (map Pts (emitted_grids (pipeline (final
    (main Examples.cfg16 0 "?"
       [Examples.frame 7 [Examples.mv_a]; Examples.frame 3 [];
        Examples.frame 9 []] AVERROR_EOF))))).
Proof.
  destruct (X14_emitters_see_increasing_pts Examples.cfg16 0 "?"
              [Examples.frame 7 [Examples.mv_a]; Examples.frame 3 [];
               Examples.frame 9 []] AVERROR_EOF) as [_ Harr].
  - repeat constructor; simpl; lia.
  - apply Harr; [reflexivity| |vm_compute; discriminate ..].
    split; [repeat constructor; simpl; unfold in_int16; lia|simpl; lia].
Defined.

Lemma forwarded_pts_from_frames (P : Z -> Prop) fs :
  Forall (fun fr => P (f_pts fr)) fs ->
  forall index last_pts, Forall P (map c_pts (forwarded fs index last_pts)).
Proof.
  induction 1 as [|fr fs Hfr _ IH]; intros index last_pts; [constructor|].
  simpl forwarded.
  destruct ((f_pts fr <=? last_pts) && negb (last_pts =? -1));
    [apply IH|]. simpl. constructor; [exact Hfr|apply IH].
Qed.

Lemma shift_sorted_lt a l :
  StronglySorted Z.lt l -> StronglySorted Z.lt (map (fun p => p - a) l).
Proof.
  induction 1 as [|p l _ IH Hall]; simpl; constructor; [exact IH|].
  rewrite Forall_map. eapply Forall_impl; [|exact Hall].
  simpl. intros. lia.
Qed.

(** X15. In arranged mode, on a stream at least one grid step high and wide
    in which no frame has timestamp -1
    and all timestamps lie in [-2^62, 2^62), the header timestamps of the
    output start at 0 and increase strictly, and each is the timestamp of
    its frame minus the timestamp of the first delivered frame. *)
Theorem X15_header_pts_strictly_increasing cfg pts0 pict0 fr0 rest :
  1 <= fst (shape cfg) -> 1 <= snd (shape cfg) ->
  ARG_OUTPUT_RAW_MOTION_VECTORS cfg = false ->
  stream_ok (fr0 :: rest) ->
  Forall (fun fr => f_pts fr <> -1) (fr0 :: rest) ->
  Forall (fun fr => pts_in_range (f_pts fr)) (fr0 :: rest) ->
  let s := pipeline (final (main cfg pts0 pict0 (fr0 :: rest) AVERROR_EOF)) in
  let hs := map b_pts (stdout_std cfg s) in
  hs = map (fun g => Pts g - f_pts fr0) (emitted_grids s) /\
  hd_error hs = Some 0 /\ Sorted Z.lt hs.
Proof.
  intros Hrows Hcols Hraw Hok Hne Hrange s hs.
  destruct (main_arranged_grids cfg (fr0 :: rest) pts0 pict0 Hraw Hok)
    as [Hkeys Hheaders]. fold s in Hkeys, Hheaders.
  pose proof (keys_pts _ _ Hkeys) as Hpts.
  destruct (forwarded_pts_sorted (fr0 :: rest) Hne 0 (-1)) as [Hsorted _].
  pose proof (forwarded_pts_from_frames pts_in_range (fr0 :: rest) Hrange 0 (-1))
    as Hr.
  assert (Hhs : hs = headers (-1) (map c_pts (forwarded (fr0 :: rest) 0 (-1))))
    by (unfold hs; now rewrite stdout_std_pts).
  destruct (headers_increasing _ (StronglySorted_Sorted Hsorted) Hr)
    as (_ & Hhead & Hshift).
  assert (Hfirst : exists tl, map c_pts (forwarded (fr0 :: rest) 0 (-1))
                              = f_pts fr0 :: tl).
  { simpl forwarded. rewrite andb_false_r. simpl. eexists. reflexivity. }
  destruct Hfirst as (tl & Hfirst).
  inversion Hne as [|? ? Hfr0 _]; subst.
  pose proof (Hshift _ _ Hfirst Hfr0) as Heq.
  split; [|split].
  - rewrite Hhs, Heq, <- Hpts, map_map. reflexivity.
  - rewrite Hhs. apply Hhead. rewrite Hfirst. discriminate.
  - rewrite Hhs, Heq. apply StronglySorted_Sorted. now apply shift_sorted_lt.
Qed.

Lemma X15_header_pts_strictly_increasing_witness :
  map b_pts (stdout_std Examples.cfg16 (pipeline (final
    (main Examples.cfg16 0 "?"
       [Examples.frame (-7) [Examples.mv_a]; Examples.frame (-9) [];
        Examples.frame 4 []] AVERROR_EOF))))
  = [0; 11].
Proof.
  destruct (X15_header_pts_strictly_increasing Examples.cfg16 0 "?"
              (Examples.frame (-7) [Examples.mv_a])
              [Examples.frame (-9) []; Examples.frame 4 []])
    as (Hhs & _).
  - vm_compute. discriminate.
  - vm_compute. discriminate.
  - reflexivity.
  - split; [repeat constructor; simpl; unfold in_int16; lia|simpl; lia].
  - repeat constructor; simpl; lia.
  - repeat constructor; unfold pts_in_range; simpl; lia.
  - rewrite Hhs. vm_compute. reflexivity.
Defined.

(** X16. On a stream at least one grid step high and wide, the frame index
    of a printed grid is the position of its frame in
    decode order, counted from 1 over all delivered frames: a dropped frame
    uses up its index.  The blocks come in increasing index order. *)
Theorem X16_frame_index_is_decode_position cfg pts0 pict0 frames :
  1 <= fst (shape cfg) -> 1 <= snd (shape cfg) ->
  ARG_OUTPUT_RAW_MOTION_VECTORS cfg = false -> stream_ok frames ->
  let s := pipeline (final (main cfg pts0 pict0 frames AVERROR_EOF)) in
  (forall g, In g (emitted_grids s) ->
     exists k fr, nth_error frames k = Some fr /\
       FrameIndex g = Z.of_nat k + 1 /\ Pts g = f_pts fr) /\
  Sorted Z.lt (map b_frame_index (stdout_std cfg s)).
Proof.
  intros Hrows Hcols Hraw Hok s.
  destruct (main_arranged_grids cfg frames pts0 pict0 Hraw Hok) as [Hkeys _].
  fold s in Hkeys. destruct Hok as [_ Hlen]. split.
  - intros g Hg.
    assert (Hk : In (key g) (map call_key (forwarded frames 0 (-1))))
      by (rewrite <- Hkeys; now apply in_map).
    apply in_map_iff in Hk. destruct Hk as (c & Hck & Hc).
    destruct (forwarded_position frames 0 (-1) c) as (k & fr & Hnth & ->);
      [lia|lia|exact Hc|].
    exists k, fr. split; [exact Hnth|].
    unfold key, call_key in Hck. simpl in Hck. inversion Hck. split; reflexivity.
  - assert (E : map b_frame_index (stdout_std cfg s)
                = map c_index (forwarded frames 0 (-1))).
    { rewrite <- (keys_index _ _ Hkeys). unfold stdout_std, emitted_grids.
      rewrite !map_map. reflexivity. }
    rewrite E. apply StronglySorted_Sorted.
    now destruct (forwarded_index_sorted frames 0 (-1)) as [Hs _]; [lia|lia|].
Qed.

Lemma X16_frame_index_is_decode_position_witness :
  Sorted Z.lt (map b_frame_index (stdout_std Examples.cfg16 (pipeline (final
    (main Examples.cfg16 0 "?"
       [Examples.frame 7 [Examples.mv_a]; Examples.frame 7 [];
        Examples.frame 9 []] AVERROR_EOF))))).
Proof.
  apply (X16_frame_index_is_decode_position Examples.cfg16 0 "?"
           [Examples.frame 7 [Examples.mv_a]; Examples.frame 7 [];
            Examples.frame 9 []]).
  - vm_compute. discriminate.
  - vm_compute. discriminate.
  - reflexivity.
  - split; [repeat constructor; simpl; unfold in_int16; lia|simpl; lia].
Defined.

(** X17. Every delivered frame is accounted for.  After a clean end of
    stream and unless quiet, the number of blocks on standard output plus
    the number of "Skipping frame" lines that the callback writes is the
    number of delivered frames: in raw mode for any stream, in arranged mode
    on a stream at least one grid step high and wide.  When quiet, the
    program writes no such line in either mode.  [stderr] counts what
    [main] and the callback write, not what libav logs on its own. *)
Theorem X17_every_frame_printed_or_reported cfg pts0 pict0 frames :
  let e := main cfg pts0 pict0 frames AVERROR_EOF in
  (ARG_QUIET cfg = true -> stderr (final e) = []) /\
  (ARG_QUIET cfg = false ->
   ARG_OUTPUT_RAW_MOTION_VECTORS cfg = true ->
   (length (stdout_raw (final e)) + length (stderr (final e))
    = length frames)%nat) /\
  (ARG_QUIET cfg = false ->
   ARG_OUTPUT_RAW_MOTION_VECTORS cfg = false -> stream_ok frames ->
   1 <= fst (shape cfg) -> 1 <= snd (shape cfg) ->
   (length (stdout_std cfg (pipeline (final e))) + length (stderr (final e))
    = length frames)%nat).
Proof.
  intros e.
  destruct (stderr_run cfg frames (main_init pts0 pict0)) as [Hq Hn].
  simpl in Hq, Hn.
  assert (Herr : stderr (final e)
                 = stderr (for_each_frame cfg frames (main_init pts0 pict0))).
  { unfold e, main. simpl.
    destruct (ARG_OUTPUT_RAW_MOTION_VECTORS cfg); reflexivity. }
  split; [|split].
  - intros Hquiet. now rewrite Herr, Hq.
  - intros Hquiet Hraw. specialize (Hn Hquiet).
    destruct (main_raw_outputs cfg pts0 pict0 frames AVERROR_EOF Hraw)
      as (Hout & _). fold e in Hout.
    destruct (raw_run cfg frames Hraw (main_init pts0 pict0)) as [Hrun _].
    simpl in Hrun. rewrite Hout, Hrun, length_map, Herr. lia.
  - intros Hquiet Hraw Hok Hrows Hcols. specialize (Hn Hquiet).
    pose proof (main_one_block_per_forwarded_frame cfg frames pts0 pict0
                  Hraw Hok) as Hblocks.
    apply (f_equal (@length Z)) in Hblocks. rewrite !length_map in Hblocks.
    fold e in Hblocks. rewrite Hblocks, Herr. lia.
Qed.

Lemma X17_every_frame_printed_or_reported_witness :
  let e := main Examples.cfg16 0 "?"
             [Examples.frame 7 [Examples.mv_a]; Examples.frame 7 [];
              Examples.frame 9 []] AVERROR_EOF in
  (length (stdout_std Examples.cfg16 (pipeline (final e)))
   + length (stderr (final e)) = 3)%nat.
Proof.
  destruct (X17_every_frame_printed_or_reported Examples.cfg16 0 "?"
              [Examples.frame 7 [Examples.mv_a]; Examples.frame 7 [];
               Examples.frame 9 []]) as (_ & _ & Harr).
  apply Harr; [reflexivity|reflexivity| |vm_compute; discriminate ..].
  split; [repeat constructor; simpl; unfold in_int16; lia|simpl; lia].
Defined.

(** ** [parse_options] *)

Lemma parse_loop_snoc argv0 args arg :
  parse_loop (argv0 :: args ++ [arg])
  = parse_arg (parse_loop (argv0 :: args)) arg.
Proof. unfold parse_loop. simpl. now rewrite fold_left_app. Qed.

Ltac eqb_cases arg :=
  repeat match goal with
  | |- context [(arg =? ?s)%string] =>
      destruct (String.eqb_spec arg s); subst; simpl
  end.

Lemma parse_arg_flags a arg :
  let a' := parse_arg a arg in
  a_help a' = a_help a || (arg =? "--help")%string || (arg =? "-h")%string /\
  a_raw a' = a_raw a || (arg =? "--raw")%string /\
  a_grid8 a' = a_grid8 a || (arg =? "--grid8x8")%string /\
  a_occupancy a' = a_occupancy a || (arg =? "--occupancy")%string /\
  a_quiet a' = a_quiet a || (arg =? "-q")%string || (arg =? "--quiet")%string /\
  a_video_path a' = if is_option arg then a_video_path a else Some arg.
Proof.
  unfold parse_arg, is_option. cbn [existsb].
  eqb_cases arg; try discriminate;
    rewrite ?orb_true_r, ?orb_false_r; repeat split; reflexivity.
Qed.

Lemma existsb_eqb_In (s : string) (l : list string) :
  existsb (fun x => String.eqb x s) l = true <-> In s l.
Proof.
  rewrite existsb_exists. split.
  - intros (x & Hin & E). apply String.eqb_eq in E. now subst.
  - intros H. exists s. split; [exact H|apply String.eqb_refl].
Qed.

Lemma parse_loop_flags argv0 args :
  let a := parse_loop (argv0 :: args) in
  a_help a = existsb (fun x => (x =? "--help")%string) args
             || existsb (fun x => (x =? "-h")%string) args /\
  a_raw a = existsb (fun x => (x =? "--raw")%string) args /\
  a_grid8 a = existsb (fun x => (x =? "--grid8x8")%string) args /\
  a_occupancy a = existsb (fun x => (x =? "--occupancy")%string) args /\
  a_quiet a = existsb (fun x => (x =? "-q")%string) args
              || existsb (fun x => (x =? "--quiet")%string) args.
Proof.
  induction args as [|arg args IH] using rev_ind.
  - repeat split; reflexivity.
  - rewrite parse_loop_snoc.
    destruct (parse_arg_flags (parse_loop (argv0 :: args)) arg)
      as (H1 & H2 & H3 & H4 & H5 & _).
    cbv zeta in IH. destruct IH as (I1 & I2 & I3 & I4 & I5).
    cbv zeta. rewrite H1, H2, H3, H4, H5, I1, I2, I3, I4, I5.
    rewrite !existsb_app. simpl. rewrite !orb_false_r.
    repeat split;
      repeat match goal with
      | |- context [existsb ?f args] => destruct (existsb f args)
      end;
      repeat match goal with
      | |- context [(arg =? ?s)%string] => destruct (arg =? s)%string
      end; reflexivity.
Qed.

Lemma parse_loop_path argv0 args :
  a_video_path (parse_loop (argv0 :: args))
  = hd_error (rev (filter (fun x => negb (is_option x)) args)).
Proof.
  induction args as [|arg args IH] using rev_ind; [reflexivity|].
  rewrite parse_loop_snoc.
  destruct (parse_arg_flags (parse_loop (argv0 :: args)) arg)
    as (_ & _ & _ & _ & _ & ->).
  rewrite filter_app, rev_app_distr. simpl.
  destruct (is_option arg); simpl; [exact IH|reflexivity].
Qed.

(** X18. [parse_options] ends the process with the usage text exactly when
    the help option is given or no argument other than an option is; the
    program name [argv[0]] is never looked at. *)
Theorem X18_usage_exit argv0 args :
  parse_options (argv0 :: args) = Usage <->
  In "--help"%string args \/ In "-h"%string args \/
  Forall (fun arg => is_option arg = true) args.
Proof.
  unfold parse_options.
  destruct (parse_loop_flags argv0 args) as (Hhelp & _).
  pose proof (parse_loop_path argv0 args) as Hpath. cbv zeta in Hhelp.
  rewrite <- !existsb_eqb_In.
  assert (Hnone : a_video_path (parse_loop (argv0 :: args)) = None
                  <-> Forall (fun arg => is_option arg = true) args).
  { rewrite Hpath. clear. split.
    - intros H. apply Forall_forall. intros x Hx.
      destruct (is_option x) eqn:E; [reflexivity|]. exfalso.
      assert (Hin : In x (rev (filter (fun x => negb (is_option x)) args))).
      { rewrite <- in_rev. apply filter_In. split; [exact Hx|now rewrite E]. }
      destruct (rev (filter (fun x => negb (is_option x)) args));
        [contradiction|discriminate].
    - intros H. rewrite Forall_forall in H.
      destruct (filter (fun x => negb (is_option x)) args) as [|x l] eqn:E;
        [reflexivity|].
      exfalso. assert (Hx : In x (filter (fun x => negb (is_option x)) args))
        by (rewrite E; now left).
      apply filter_In in Hx. destruct Hx as [Hx Hn].
      rewrite (H x Hx) in Hn. discriminate. }
  rewrite Hhelp.
  destruct (existsb (fun x => (x =? "--help")%string) args);
    [simpl; split; [tauto|reflexivity]|].
  destruct (existsb (fun x => (x =? "-h")%string) args);
    [simpl; split; [tauto|reflexivity]|].
  simpl. destruct (a_video_path (parse_loop (argv0 :: args))) eqn:Ep.
  - split; [discriminate|]. intros [C|[C|C]]; try discriminate.
    apply Hnone in C. discriminate.
  - split; [|reflexivity]. intros _. right. right. now apply Hnone.
Qed.

(** X19. When [parse_options] lets the program go on, each flag is set
    exactly when its option occurs among the arguments, in any position and
    any number of times; the video path is the last argument that is not one
    of the seven options, even when it begins with a dash; and the grid step
    of the run is 8 exactly when "--grid8x8" occurs, 16 otherwise. *)
Theorem X19_parsed_flags_and_path argv0 args a :
  parse_options (argv0 :: args) = Proceed a ->
  (a_raw a = true <-> In "--raw"%string args) /\
  (a_grid8 a = true <-> In "--grid8x8"%string args) /\
  (a_occupancy a = true <-> In "--occupancy"%string args) /\
  (a_quiet a = true <-> In "-q"%string args \/ In "--quiet"%string args) /\
  (exists before path after,
     args = before ++ path :: after /\ a_video_path a = Some path /\
     is_option path = false /\
     Forall (fun arg => is_option arg = true) after) /\
  (forall w h, gridStep (config_of a w h)
               = if a_grid8 a then 8 else 16).
Proof.
  unfold parse_options.
  destruct (parse_loop_flags argv0 args) as (_ & Hraw & Hg & Ho & Hq).
  pose proof (parse_loop_path argv0 args) as Hpath. cbv zeta in *.
  destruct (a_help (parse_loop (argv0 :: args))); [discriminate|]. simpl.
  destruct (a_video_path (parse_loop (argv0 :: args))) as [path|] eqn:Ep;
    [|discriminate].
  intros E. injection E as <-.
  assert (Hlast : forall l : list string,
    hd_error (rev (filter (fun x => negb (is_option x)) l)) = Some path ->
    exists before after, l = before ++ path :: after /\
      is_option path = false /\
      Forall (fun arg => is_option arg = true) after).
  { clear. induction l as [|x l IH] using rev_ind; [discriminate|].
    rewrite filter_app, rev_app_distr. simpl.
    destruct (is_option x) eqn:Ex; simpl.
    - intros H. destruct (IH H) as (b & af & -> & Hp & Haf).
      exists b, (af ++ [x]). rewrite <- app_assoc. split; [reflexivity|].
      split; [exact Hp|]. apply Forall_app. split; [exact Haf|].
      now constructor.
    - intros H. injection H as <-. exists l, [].
      split; [reflexivity|]. split; [exact Ex|constructor]. }
  destruct (Hlast args (eq_sym Hpath)) as (b & af & Hargs & Hp & Haf).
  assert (Hstep : forall w h,
            gridStep (config_of (parse_loop (argv0 :: args)) w h)
            = if a_grid8 (parse_loop (argv0 :: args)) then 8 else 16)
    by reflexivity.
  assert (Hfile : exists before path0 after,
            args = before ++ path0 :: after /\
            a_video_path (parse_loop (argv0 :: args)) = Some path0 /\
            is_option path0 = false /\
            Forall (fun arg => is_option arg = true) after)
    by (exists b, path, af; rewrite Ep; tauto).
  revert Hstep Hfile.
  rewrite Hraw, Hg, Ho, Hq, orb_true_iff, <- !existsb_eqb_In.
  intros Hstep Hfile. tauto.
Qed.

Lemma X19_parsed_flags_and_path_witness :
  exists a,
    parse_options ["mpegflow"; "--grid8x8"; "a.mp4"; "--raw"; "--grid16";
                   "-q"]%string = Proceed a /\
    a_video_path a = Some "--grid16"%string /\
    gridStep (config_of a 64 64) = 8.
Proof.
  eexists. split; [vm_compute; reflexivity|].
  destruct (X19_parsed_flags_and_path "mpegflow"
              ["--grid8x8"; "a.mp4"; "--raw"; "--grid16"; "-q"]%string
              _ eq_refl) as (_ & _ & _ & _ & _ & Hstep).
  split; [reflexivity|apply Hstep].
Defined.

Lemma X18_usage_exit_witness :
  parse_options ["mpegflow"; "--raw"; "-q"]%string = Usage.
Proof.
  apply (X18_usage_exit "mpegflow" ["--raw"; "-q"]%string).
  right. right. repeat constructor.
Defined.

(** ** The decoding loop *)

Section DecoderFacts.

Variable idx : Z.
Variable pict : ascii.
Variable St : Type.
Variable callback : St -> Frame -> St.

Lemma receive_loop_spec rs : forall st,
  receive_loop pict St callback rs st
  = match receive_end rs with
    | None => None
    | Some o => Some (fold_left callback (received_frames pict rs) st, o)
    end.
Proof.
  induction rs as [|r rs IH]; intros st; [reflexivity|].
  cbn [receive_loop receive_end received_frames].
  destruct (Z.eqb_spec (rc_ret r) AVERROR_EAGAIN) as [E|_];
    [rewrite E; reflexivity|].
  destruct (Z.eqb_spec (rc_ret r) AVERROR_EOF) as [E|_];
    [rewrite E; reflexivity|].
  simpl. destruct (rc_ret r <? 0); [reflexivity|]. apply IH.
Qed.

Lemma for_each_frame_packets_spec ps : forall st,
  for_each_frame_packets idx pict St callback ps st
  = match returned idx ps with
    | None => None
    | Some ret =>
        Some (fold_left callback (delivered_frames idx pict ps) st, ret)
    end.
Proof.
  induction ps as [|p ps IH]; intros st; [reflexivity|].
  cbn [for_each_frame_packets returned delivered_frames].
  destruct (negb (pk_read p =? 0)); [reflexivity|].
  destruct (pk_stream_index p =? idx); [|apply IH].
  destruct (negb (pk_send p =? 0)); [reflexivity|].
  rewrite receive_loop_spec.
  destruct (receive_end (pk_receive p)) as [[ret|]|]; [| |reflexivity].
  - now rewrite app_nil_r.
  - rewrite IH. destruct (returned idx ps); [|reflexivity].
    now rewrite fold_left_app.
Qed.

Lemma receive_end_some rs :
  Exists (fun r => rc_ret r < 0) rs -> receive_end rs <> None.
Proof.
  induction 1 as [r rs Hr|r rs _ IH]; cbn [receive_end].
  - destruct ((rc_ret r =? AVERROR_EAGAIN) || (rc_ret r =? AVERROR_EOF));
      [discriminate|].
    replace (rc_ret r <? 0) with true by lia. discriminate.
  - destruct ((rc_ret r =? AVERROR_EAGAIN) || (rc_ret r =? AVERROR_EOF));
      [discriminate|].
    destruct (rc_ret r <? 0); [discriminate|exact IH].
Qed.

Lemma receive_end_code rs ret :
  receive_end rs = Some (Some ret) ->
  ret < 0 /\ ret <> AVERROR_EAGAIN /\ ret <> AVERROR_EOF /\
  exists r, In r rs /\ rc_ret r = ret.
Proof.
  induction rs as [|r rs IH]; [discriminate|]. cbn [receive_end].
  destruct (Z.eqb_spec (rc_ret r) AVERROR_EAGAIN) as [|H1]; [discriminate|].
  destruct (Z.eqb_spec (rc_ret r) AVERROR_EOF) as [|H2]; [discriminate|].
  simpl. destruct (Z.ltb_spec (rc_ret r) 0) as [Hneg|_].
  - intros E. injection E as <-. repeat split; try assumption.
    exists r. split; [now left|reflexivity].
  - intros E. destruct (IH E) as (H3 & H4 & H5 & r' & Hin & Hr).
    repeat split; try assumption. exists r'. split; [now right|exact Hr].
Qed.

Lemma returned_origin ps ret :
  returned idx ps = Some ret ->
  ret <> 0 /\
  ((exists p, In p ps /\ pk_read p = ret) \/
   (exists p, In p ps /\ pk_send p = ret) \/
   (ret < 0 /\ ret <> AVERROR_EAGAIN /\ ret <> AVERROR_EOF /\
    exists p r, In p ps /\ In r (pk_receive p) /\ rc_ret r = ret)).
Proof.
  induction ps as [|p ps IH]; [discriminate|]. cbn [returned].
  assert (Hrest : returned idx ps = Some ret ->
    ret <> 0 /\
    ((exists q, In q (p :: ps) /\ pk_read q = ret) \/
     (exists q, In q (p :: ps) /\ pk_send q = ret) \/
     (ret < 0 /\ ret <> AVERROR_EAGAIN /\ ret <> AVERROR_EOF /\
      exists q r, In q (p :: ps) /\ In r (pk_receive q) /\ rc_ret r = ret))).
  { intros E. destruct (IH E) as (H0 & [(q & Hq & H)|[(q & Hq & H)|
      (H1 & H2 & H3 & q & r & Hq & Hr & H)]]).
    - split; [exact H0|]. left. exists q. split; [now right|exact H].
    - split; [exact H0|]. right. left. exists q. split; [now right|exact H].
    - split; [exact H0|]. right. right. repeat split; try assumption.
      exists q, r. split; [now right|]. split; assumption. }
  destruct (Z.eqb_spec (pk_read p) 0) as [_|Hread]; simpl.
  2:{ intros E. injection E as <-. split; [exact Hread|].
      left. exists p. split; [now left|reflexivity]. }
  destruct (pk_stream_index p =? idx); [|exact Hrest].
  destruct (Z.eqb_spec (pk_send p) 0) as [_|Hsend]; simpl.
  2:{ intros E. injection E as <-. split; [exact Hsend|].
      right. left. exists p. split; [now left|reflexivity]. }
  destruct (receive_end (pk_receive p)) as [[code|]|] eqn:Eend;
    [|exact Hrest|discriminate].
  intros E. injection E as <-.
  destruct (receive_end_code _ _ Eend) as (H1 & H2 & H3 & r & Hr & Hc).
  split; [lia|]. right. right. repeat split; try assumption.
  exists p, r. split; [now left|]. split; assumption.
Qed.

Lemma returned_some ps : script_ends idx ps -> returned idx ps <> None.
Proof.
  intros (before & p & after & -> & Hread & Hbefore).
  induction Hbefore as [|q before Hq _ IH]; cbn [app returned].
  - destruct (Z.eqb_spec (pk_read p) 0); [contradiction|]. discriminate.
  - destruct (negb (pk_read q =? 0)); [discriminate|].
    destruct (Z.eqb_spec (pk_stream_index q) idx) as [Hidx|_]; [|exact IH].
    destruct (Z.eqb_spec (pk_send q) 0) as [Hsend|_]; [|discriminate].
    cbn [negb]. pose proof (receive_end_some _ (Hq Hidx Hsend)) as Hend.
    destruct (receive_end (pk_receive q)) as [[code|]|];
      [discriminate|exact IH|contradiction].
Qed.

Lemma received_frames_pict rs :
  Forall (fun fr => f_pict_type fr = pict) (received_frames pict rs).
Proof.
  induction rs as [|r rs IH]; cbn [received_frames]; [constructor|].
  destruct (rc_ret r <? 0); constructor; [reflexivity|exact IH].
Qed.

Lemma delivered_frames_pict ps :
  Forall (fun fr => f_pict_type fr = pict) (delivered_frames idx pict ps).
Proof.
  induction ps as [|p ps IH]; cbn [delivered_frames]; [constructor|].
  destruct (negb (pk_read p =? 0)); [constructor|].
  destruct (pk_stream_index p =? idx); [|exact IH].
  destruct (negb (pk_send p =? 0)); [constructor|].
  apply Forall_app. split; [apply received_frames_pict|].
  destruct (receive_end (pk_receive p)) as [[code|]|];
    [constructor|exact IH|constructor].
Qed.

Lemma retag_receive f rs :
  let rs' := map (fun r => {| rc_ret := rc_ret r;
                              rc_timestamp := rc_timestamp r;
                              rc_pict_type := f (rc_pict_type r);
                              rc_side_data := rc_side_data r |}) rs in
  receive_end rs' = receive_end rs /\
  received_frames pict rs' = received_frames pict rs.
Proof.
  induction rs as [|r rs [IH1 IH2]]; [split; reflexivity|].
  cbn [map receive_end received_frames rc_ret].
  destruct ((rc_ret r =? AVERROR_EAGAIN) || (rc_ret r =? AVERROR_EOF));
    destruct (rc_ret r <? 0); split; try reflexivity; try exact IH1.
  - unfold frame_of. cbn [rc_timestamp rc_side_data]. now f_equal.
  - unfold frame_of. cbn [rc_timestamp rc_side_data]. now f_equal.
Qed.

Lemma retag_script f ps :
  returned idx (map (retag f) ps) = returned idx ps /\
  delivered_frames idx pict (map (retag f) ps) = delivered_frames idx pict ps.
Proof.
  induction ps as [|p ps [IH1 IH2]]; [split; reflexivity|].
  destruct p as [rd si sd rs].
  cbn [map returned delivered_frames retag
       pk_read pk_stream_index pk_send pk_receive].
  destruct (retag_receive f rs) as [E1 E2]. cbv zeta in E1, E2.
  rewrite E1, E2, IH1, IH2. split; reflexivity.
Qed.

End DecoderFacts.

(** X20. On answers of the library that make the loop end (some
    [av_read_frame] fails, and before it the decoder answers every video
    packet it accepted with a negative code sooner or later),
    [for_each_frame] returns; the callback has then been called on the
    delivered frames, in order, whatever the callback is, so that with the
    callback of [main] the state is that of [for_each_frame] over these
    frames.  The value returned is never 0: it is the code of a failed read,
    the code of a refused packet, or a negative decoder answer other than
    EAGAIN and end-of-file, which only end the inner loop. *)
Theorem X20_decoding_loop_returns idx pict cfg ps m :
  script_ends idx ps ->
  exists ret,
    for_each_frame_packets idx pict MState (frameCallback cfg) ps m
    = Some (for_each_frame cfg (delivered_frames idx pict ps) m, ret) /\
    (forall (St : Type) (callback : St -> Frame -> St) (st : St),
       for_each_frame_packets idx pict St callback ps st
       = Some (fold_left callback (delivered_frames idx pict ps) st, ret)) /\
    ret <> 0 /\
    ((exists p, In p ps /\ pk_read p = ret) \/
     (exists p, In p ps /\ pk_send p = ret) \/
     (ret < 0 /\ ret <> AVERROR_EAGAIN /\ ret <> AVERROR_EOF /\
      exists p r, In p ps /\ In r (pk_receive p) /\ rc_ret r = ret)).
Proof.
  intros Hends. pose proof (returned_some idx ps Hends) as Hret.
  destruct (returned idx ps) as [ret|] eqn:E; [|contradiction].
  exists ret.
  assert (Hgen : forall (St : Type) (callback : St -> Frame -> St) (st : St),
    for_each_frame_packets idx pict St callback ps st
    = Some (fold_left callback (delivered_frames idx pict ps) st, ret)).
  { intros St callback st. now rewrite for_each_frame_packets_spec, E. }
  split; [apply Hgen|]. split; [exact Hgen|]. now apply (returned_origin idx).
Qed.

Lemma X20_decoding_loop_returns_witness :
  let video r := {| pk_read := 0; pk_stream_index := 0; pk_send := 0;
                    pk_receive := r |} in
  let audio := {| pk_read := 0; pk_stream_index := 1; pk_send := 0;
                  pk_receive := [] |} in
  let eof := {| pk_read := AVERROR_EOF; pk_stream_index := 0; pk_send := 0;
                pk_receive := [] |} in
  let got t sd := {| rc_ret := 0; rc_timestamp := t; rc_pict_type := "I";
                     rc_side_data := sd |} in
  let again := {| rc_ret := AVERROR_EAGAIN; rc_timestamp := 0;
                  rc_pict_type := "?"; rc_side_data := None |} in
  let ps := [video [got 10 (Some [Examples.mv_a]); again]; audio;
             video [got 11 None; again]; eof] in
  exists ret,
    for_each_frame_packets 0 "P" MState (frameCallback Examples.cfg16) ps
      (main_init 0 "?")
    = Some (for_each_frame Examples.cfg16
              [Examples.frame 10 [Examples.mv_a]; Examples.frame 11 []]
              (main_init 0 "?"), ret)
    /\ ret <> 0.
Proof.
  intros video audio eof got again ps.
  destruct (X20_decoding_loop_returns 0 "P" Examples.cfg16 ps (main_init 0 "?"))
    as (ret & Hrun & _ & Hne & _).
  - exists [video [got 10 (Some [Examples.mv_a]); again]; audio;
            video [got 11 None; again]], eof, [].
    split; [reflexivity|]. split; [unfold eof, AVERROR_EOF; simpl; lia|].
    assert (Hagain : forall t sd,
      Exists (fun r => rc_ret r < 0) [got t sd; again]).
    { intros t sd. apply Exists_cons_tl. apply Exists_cons_hd.
      unfold again, AVERROR_EAGAIN. simpl. lia. }
    apply Forall_cons; [intros _ _; apply Hagain|].
    apply Forall_cons; [intros Hidx; discriminate Hidx|].
    apply Forall_cons; [intros _ _; apply Hagain|apply Forall_nil].
  - exists ret. split; [exact Hrun|exact Hne].
Defined.

(** X21. The picture type handed to the callback is that of the global
    frame [ffmpeg_pFrame], which the loop never decodes into, not that of
    the frame just received: every delivered frame carries the one global
    value, and a run in which the decoder reports other picture types for
    its frames calls the callback on the same frames and returns the
    same. *)
Theorem X21_picture_type_of_the_global_frame idx pict (St : Type)
    (callback : St -> Frame -> St) (f : ascii -> ascii) ps st :
  Forall (fun fr => f_pict_type fr = pict) (delivered_frames idx pict ps) /\
  delivered_frames idx pict (map (retag f) ps) = delivered_frames idx pict ps /\
  for_each_frame_packets idx pict St callback (map (retag f) ps) st
  = for_each_frame_packets idx pict St callback ps st.
Proof.
  destruct (retag_script idx pict f ps) as [Hr Hd].
  split; [apply delivered_frames_pict|]. split; [exact Hd|].
  now rewrite !for_each_frame_packets_spec, Hd, Hr.
Qed.

(** X22. What is on [stdout] before the end-of-stream call, on a stream at
    least one grid step high and wide.  The frames
    forwarded so far split into a printed part, empty or ending with the
    last frame that has vectors, and a held part, the frames without vectors
    after it: the printed part has been printed exactly as in a whole run
    over it, and the held frames wait in the buffer, unprinted and
    unchanged.  The end-of-stream call appends them as they are; when the
    decoder fails with an error other than end-of-file that call is never
    made, so the program exits with code 1 and the held frames are never
    printed. *)
Theorem X22_frames_held_until_end_of_stream cfg pts0 pict0 frames ret :
  1 <= fst (shape cfg) -> 1 <= snd (shape cfg) ->
  ARG_OUTPUT_RAW_MOTION_VECTORS cfg = false -> stream_ok frames ->
  ret < 0 -> ret <> AVERROR_EOF ->
  let failed := main cfg pts0 pict0 frames ret in
  let ended := main cfg pts0 pict0 frames AVERROR_EOF in
  exit_code failed = 1 /\
  exists printed held,
    forwarded frames 0 (-1) = printed ++ held /\
    Forall (fun c => has_vectors c = false) held /\
    (printed = [] \/
     exists A v, printed = A ++ [v] /\ has_vectors v = true) /\
    emitted_grids (pipeline (final failed)) = arranged_grids cfg None printed /\
    unprinted (prev (pipeline (final failed))) = map (grid_of cfg) held /\
    emitted_grids (pipeline (final ended))
    = emitted_grids (pipeline (final failed)) ++ map (grid_of cfg) held.
Proof.
  intros Hrows Hcols Hraw Hok Hneg Hne failed ended.
  set (m := for_each_frame cfg frames (main_init pts0 pict0)).
  set (cs := forwarded frames 0 (-1)).
  assert (Herr : (ret <? 0) && negb (ret =? AVERROR_EOF) = true).
  { apply andb_true_iff. split; [lia|]. apply negb_true_iff. lia. }
  assert (Hfailed : pipeline (final failed) = deliver_all cfg cs pipeline_init).
  { unfold failed, main. rewrite Herr. simpl.
    now rewrite pipeline_run by exact Hraw. }
  assert (Hended : pipeline (final ended)
    = flush cfg (pts m) (pictType m) (motionVectors m)
        (deliver_all cfg cs pipeline_init)).
  { unfold ended, main. fold m. rewrite Hraw. simpl.
    unfold m. now rewrite pipeline_run by exact Hraw. }
  assert (Hreal : Forall (fun c => c_index c <> -1) cs).
  { destruct Hok as [Hmv Hlen].
    pose proof (forwarded_real frames 0 (-1) Hmv) as H.
    eapply Forall_impl; [|apply H; simpl; lia].
    intros c [Hc _]. exact Hc. }
  split; [unfold failed, main; now rewrite Herr|].
  rewrite Hended, emitted_grids_flush, Hfailed.
  destruct (trace_state_run cfg cs Hreal)
    as [HE Hout Hprev | A v E Hcs Hv HE Hout Hprev].
  - exists [], cs. split; [reflexivity|]. split; [exact HE|].
    split; [now left|]. split; [exact Hout|].
    rewrite Hprev, unprinted_grids. split; reflexivity.
  - exists (A ++ [v]), E. split; [now rewrite <- app_assoc|].
    split; [exact HE|]. split; [right; now exists A, v|].
    split; [exact Hout|]. rewrite Hprev.
    change (unprinted (set_Printed (grid_of cfg v) true :: map (grid_of cfg) E))
      with (unprinted (map (grid_of cfg) E)).
    rewrite unprinted_grids. split; reflexivity.
Qed.

Lemma X22_frames_held_until_end_of_stream_witness :
  let frames := [Examples.frame 7 [Examples.mv_a]; Examples.frame 8 [];
                 Examples.frame 9 []] in
  exit_code (main Examples.cfg16 0 "?" frames (-5)) = 1 /\
  (length (emitted_grids
     (pipeline (final (main Examples.cfg16 0 "?" frames (-5))))) = 1)%nat.
Proof.
  intros frames.
  destruct (X22_frames_held_until_end_of_stream Examples.cfg16 0 "?" frames (-5))
    as (Hexit & printed & held & _ & _ & _ & Hout & _).
  - vm_compute. discriminate.
  - vm_compute. discriminate.
  - reflexivity.
  - split; [repeat constructor; simpl; unfold in_int16; lia|simpl; lia].
  - lia.
  - unfold AVERROR_EOF. lia.
  - split; [exact Hexit|]. vm_compute. reflexivity.
Defined.

(** ** [ffmpeg_init] *)

Lemma stream_loop_spec streams : forall i g0,
  0 <= i -> i + Z.of_nat (length streams) < 2 ^ 31 ->
  g_videoStreamIndex g0 < 0 ->
  forall g,
    stream_loop streams i g0 = LoopDone g <->
    ((g = g0 /\
      Forall (fun s => st_decoder s = Some false) streams) \/
     exists n s,
       first_video_stream streams n s /\ 0 <= st_open s /\
       g = {| g_videoStreamIndex := i + Z.of_nat n;
              g_frameWidth := to_size_t (st_width s);
              g_frameHeight := to_size_t (st_height s) |}).
Proof.
  change (2 ^ 31) with 2147483648.
  induction streams as [|s rest IH]; intros i g0 Hi Hlen Hg0 g.
  - simpl. split.
    + intros E. injection E as <-. left. split; [reflexivity|constructor].
    + intros [[-> _]|(n & s & (Hn & _) & _)]; [reflexivity|].
      destruct n; discriminate Hn.
  - simpl length in Hlen. cbn [stream_loop].
    assert (Ei : wrap32 (i + 1) = i + 1)
      by (apply wrap32_small; unfold in_int32; lia).
    replace (g_videoStreamIndex g0 <? 0) with true by lia.
    destruct (st_decoder s) as [[|]|] eqn:Hdec; cbn [andb].
    + (* a video decoder: the loop ends here *)
      destruct (Z.ltb_spec (st_open s) 0) as [Hopen|Hopen].
      * split; [discriminate|].
        intros [[_ Hall]|(n & s' & (Hn & Hs' & Hbefore) & Hop & _)].
        -- inversion Hall; congruence.
        -- destruct n as [|n].
           ++ injection Hn as <-. lia.
           ++ specialize (Hbefore 0%nat s (Nat.lt_0_succ n) eq_refl).
              congruence.
      * split.
        -- intros E. injection E as <-. right. exists 0%nat, s.
           split; [|split; [exact Hopen|now rewrite Z.add_0_r]].
           split; [reflexivity|]. split; [exact Hdec|]. intros j s' Hj. lia.
        -- intros [[_ Hall]|(n & s' & (Hn & Hs' & Hbefore) & Hop & ->)].
           ++ inversion Hall; congruence.
           ++ destruct n as [|n].
              ** injection Hn as <-. now rewrite Z.add_0_r.
              ** specialize (Hbefore 0%nat s (Nat.lt_0_succ n) eq_refl).
                 congruence.
    + (* a decoder of another type: on to the next stream *)
      rewrite Ei, (IH (i + 1) g0) by lia. split.
      * intros [[-> Hall]|(n & s' & (Hn & Hs' & Hbefore) & Hop & ->)].
        -- left. split; [reflexivity|]. now constructor.
        -- right. exists (S n), s'. split; [|split; [exact Hop|f_equal; lia]].
           split; [exact Hn|]. split; [exact Hs'|].
           intros [|j] s'' Hj Hnth.
           ++ injection Hnth as <-. exact Hdec.
           ++ apply (Hbefore j s''); [lia|exact Hnth].
      * intros [[-> Hall]|(n & s' & (Hn & Hs' & Hbefore) & Hop & ->)].
        -- left. split; [reflexivity|]. now inversion Hall.
        -- destruct n as [|n]; [injection Hn as <-; congruence|].
           right. exists n, s'. split; [|split; [exact Hop|f_equal; lia]].
           split; [exact Hn|]. split; [exact Hs'|].
           intros j s'' Hj Hnth. apply (Hbefore (S j) s''); [lia|exact Hnth].
    + (* no decoder *)
      split; [discriminate|].
      intros [[_ Hall]|(n & s' & (Hn & Hs' & Hbefore) & _)].
      * inversion Hall; congruence.
      * destruct n as [|n].
        -- injection Hn as <-. congruence.
        -- specialize (Hbefore 0%nat s (Nat.lt_0_succ n) eq_refl). congruence.
Qed.

(** X23. [ffmpeg_init] settles on the first video stream, and only on it.
    It succeeds exactly when the input opens with code 0, the stream
    information is found with a code that is not negative, some stream has
    a video decoder, every stream before the first such stream has a decoder
    of another type, and that first stream's codec opens; the globals are
    then that stream's position and its width and height as [size_t].  So a
    later video stream is never tried when the first one fails to open, and
    the index of a successful start is never the -1 that stands for no
    stream. *)
Theorem X23_first_video_stream_is_selected open_input find_stream_info
    streams g :
  Z.of_nat (length streams) < 2 ^ 31 ->
  ffmpeg_init open_input find_stream_info streams = InitReady g <->
  (open_input = 0 /\ 0 <= find_stream_info /\
   exists n s,
     first_video_stream streams n s /\ 0 <= st_open s /\
     g = {| g_videoStreamIndex := Z.of_nat n;
            g_frameWidth := to_size_t (st_width s);
            g_frameHeight := to_size_t (st_height s) |}).
Proof.
  intros Hlen. unfold ffmpeg_init.
  set (g0 := {| g_videoStreamIndex := -1; g_frameWidth := 0;
                g_frameHeight := 0 |}).
  pose proof (stream_loop_spec streams 0 g0 (Z.le_refl 0) Hlen
                ltac:(simpl; lia)) as Hloop.
  destruct (Z.eqb_spec open_input 0) as [Hopen|Hopen]; cbn [negb].
  2:{ split; [discriminate|]. intros [H _]. contradiction. }
  destruct (Z.ltb_spec find_stream_info 0) as [Hinfo|Hinfo].
  { split; [discriminate|]. intros (_ & H & _). lia. }
  destruct (stream_loop streams 0 g0) as [|what|g1] eqn:E.
  - split; [discriminate|]. intros (_ & _ & n & s & Hfirst & Hop & ->).
    assert (H : NullCodec = LoopDone
      {| g_videoStreamIndex := Z.of_nat n;
         g_frameWidth := to_size_t (st_width s);
         g_frameHeight := to_size_t (st_height s) |}).
    { apply Hloop. right. now exists n, s. }
    discriminate H.
  - split; [discriminate|]. intros (_ & _ & n & s & Hfirst & Hop & ->).
    assert (H : LoopThrows what = LoopDone
      {| g_videoStreamIndex := Z.of_nat n;
         g_frameWidth := to_size_t (st_width s);
         g_frameHeight := to_size_t (st_height s) |}).
    { apply Hloop. right. now exists n, s. }
    discriminate H.
  - destruct (proj1 (Hloop g1) eq_refl)
      as [[-> Hall]|(n & s & Hfirst & Hop & ->)].
    + simpl. split; [discriminate|].
      intros (_ & _ & n & s & (Hn & Hs & _) & _).
      rewrite Forall_forall in Hall.
      specialize (Hall s (nth_error_In _ _ Hn)). congruence.
    + cbn [g_videoStreamIndex].
      destruct (Z.eqb_spec (0 + Z.of_nat n) (-1)) as [Hneg|_]; [lia|].
      split.
      * intros Eg. injection Eg as <-. split; [exact Hopen|].
        split; [exact Hinfo|]. now exists n, s.
      * intros (_ & _ & n' & s' & Hfirst' & Hop' & ->). f_equal.
        assert (H : LoopDone
          {| g_videoStreamIndex := 0 + Z.of_nat n;
             g_frameWidth := to_size_t (st_width s);
             g_frameHeight := to_size_t (st_height s) |}
          = LoopDone
          {| g_videoStreamIndex := Z.of_nat n';
             g_frameWidth := to_size_t (st_width s');
             g_frameHeight := to_size_t (st_height s') |}).
        { apply Hloop. right. now exists n', s'. }
        now injection H as -> -> ->.
Qed.

Lemma X23_first_video_stream_is_selected_witness :
  let audio := {| st_decoder := Some false; st_open := 0; st_width := 0;
                  st_height := 0 |} in
  let video w h := {| st_decoder := Some true; st_open := 0; st_width := w;
                      st_height := h |} in
  ffmpeg_init 0 0 [audio; video 64 48; video 1920 1080]
  = InitReady {| g_videoStreamIndex := 1; g_frameWidth := 64;
                 g_frameHeight := 48 |}.
Proof.
  intros audio video.
  apply (X23_first_video_stream_is_selected 0 0
           [audio; video 64 48; video 1920 1080]); [simpl; lia|].
  split; [reflexivity|]. split; [lia|]. exists 1%nat, (video 64 48).
  split; [|split; [simpl; lia|reflexivity]].
  split; [reflexivity|]. split; [reflexivity|].
  intros [|[|j]] s' Hj Hnth; [|lia|lia].
  injection Hnth as <-. reflexivity.
Defined.
